(** * unitysync: a shallow embedding of [unitysync.py]

    The program synchronises asset folders between a local Unity project
    and the origin projects named in a JSON manifest.  This development
    models the script over a tree-shaped file system and proves (or
    refutes on concrete inputs) the properties of its specification.

    Modelling conventions.
    - A path is the list of its components from the file-system root; the
      strings of the manifest are resolved against the working directory
      by [resolve] ([os.path.join] followed by the lookup the operating
      system performs; no symbolic links, trailing separators ignored).
    - A regular file carries its modification time and its bytes, which
      is all [filecmp] and [shutil.copy2] look at.
    - [print] appends a structured message to the output of the state.
    - A Python exception is the outcome [Raise]; the state reached before
      the exception is kept, as on disk.
    - The handler calls and the [dircmp] objects of a walk are recorded
      in a log, which the program itself never reads.
    - Not modelled: symbolic links, permissions, the [logging.debug]
      lines, the result cache of [filecmp.cmp], and the directories that
      [shutil.copytree] leaves behind when it is aborted by the
      interpreter (see [copytree]). *)

From Stdlib Require Import List String Ascii Bool Arith Lia ZArith.
Import ListNotations.
Open Scope string_scope.
Open Scope list_scope.

Set Implicit Arguments.
Set Warnings "-register-all".

(** ** Paths *)

Definition path := list string.

Fixpoint prefix (p q : path) : bool :=
  match p, q with
  | [], _ => true
  | _ :: _, [] => false
  | a :: p', b :: q' => String.eqb a b && prefix p' q'
  end.

Definition path_eqb (p q : path) : bool :=
  if list_eq_dec string_dec p q then true else false.

(** [os.path.basename] of a resolved path. *)
Definition basename (p : path) : string := last p "".

(** [dirname]: the path without its last component. *)
Definition parent (p : path) : path := removelast p.

(** [p + suffix] on the string of a path touches its last component. *)
Definition add_suffix (p : path) (suffix : string) : path :=
  parent p ++ [(basename p ++ suffix)%string].

(** ** The file system *)

Inductive node : Type :=
| File (mtime : nat) (data : string)
| Dir (ents : list (string * node)).

Definition entries := list (string * node).

Fixpoint get_ent (n : string) (es : entries) : option node :=
  match es with
  | [] => None
  | (m, c) :: es' => if String.eqb n m then Some c else get_ent n es'
  end.

Fixpoint set_ent (n : string) (v : node) (es : entries) : entries :=
  match es with
  | [] => [(n, v)]
  | (m, c) :: es' =>
      if String.eqb n m then (n, v) :: es' else (m, c) :: set_ent n v es'
  end.

Definition del_ent (n : string) (es : entries) : entries :=
  filter (fun e => negb (String.eqb n (fst e))) es.

Fixpoint height (t : node) : nat :=
  match t with
  | File _ _ => 0
  | Dir es =>
      S ((fix hs (l : entries) : nat :=
            match l with
            | [] => 0
            | (_, c) :: l' => Nat.max (height c) (hs l')
            end) es)
  end.

Fixpoint lookup (t : node) (p : path) : option node :=
  match p with
  | [] => Some t
  | n :: p' =>
      match t with
      | Dir es =>
          match get_ent n es with
          | Some c => lookup c p'
          | None => None
          end
      | File _ _ => None
      end
  end.

Inductive errno : Type :=
| ENOENT | EEXIST | ENOTDIR | EISDIR | ESAMEFILE | EBUSY.

(** The error the operating system reports for a path that [lookup]
    does not find. *)
Fixpoint missing_errno (t : node) (p : path) : errno :=
  match p with
  | [] => ENOENT
  | n :: p' =>
      match t with
      | Dir es =>
          match get_ent n es with
          | Some c => missing_errno c p'
          | None => ENOENT
          end
      | File _ _ => ENOTDIR
      end
  end.

Definition isdir (t : node) (p : path) : bool :=
  match lookup t p with Some (Dir _) => true | _ => false end.

Definition isfile (t : node) (p : path) : bool :=
  match lookup t p with Some (File _ _) => true | _ => false end.

Definition exists_ (t : node) (p : path) : bool :=
  match lookup t p with Some _ => true | None => false end.

(** A fresh chain of directories ending in [v]: what [os.makedirs]
    creates below the deepest existing ancestor. *)
Fixpoint chain (p : path) (v : node) : node :=
  match p with
  | [] => v
  | n :: p' => Dir [(n, chain p' v)]
  end.

(** [store p v t] puts [v] at [p], creating the missing ancestors;
    it fails only when an ancestor is a regular file. *)
Fixpoint store (p : path) (v : node) (t : node) : option node :=
  match p with
  | [] => Some v
  | n :: p' =>
      match t with
      | Dir es =>
          match get_ent n es with
          | Some c =>
              match store p' v c with
              | Some c' => Some (Dir (set_ent n c' es))
              | None => None
              end
          | None => Some (Dir (set_ent n (chain p' v) es))
          end
      | File _ _ => None
      end
  end.

(** [erase p t] unlinks the entry at [p]; the root cannot be unlinked. *)
Fixpoint erase (p : path) (t : node) : option node :=
  match p with
  | [] => None
  | n :: p' =>
      match t with
      | Dir es =>
          match p' with
          | [] => Some (Dir (del_ent n es))
          | _ :: _ =>
              match get_ent n es with
              | Some c =>
                  match erase p' c with
                  | Some c' => Some (Dir (set_ent n c' es))
                  | None => None
                  end
              | None => None
              end
          end
      | File _ _ => None
      end
  end.

(** ** Manifest values *)

(** What [json.load] returns. *)
Inductive json : Type :=
| JNull
| JBool (b : bool)
| JNum (z : Z)
| JStr (s : string)
| JArr (items : list json)
| JObj (members : list (string * json)).

(** ** Program states and outcomes *)

Inductive exn : Type :=
| OSError (e : errno)       (* FileNotFoundError, FileExistsError, shutil.Error, ... *)
| RecursionError            (* maximum recursion depth exceeded *)
| NameError
| KeyError
| TypeError
| JSONDecodeError.

Inductive result (A : Type) : Type :=
| Ok (a : A)
| Raise (e : exn)
| OutOfFuel.

Arguments Raise {A} e.
Arguments OutOfFuel {A}.

(** What the script prints. *)
Inductive msg : Type :=
| MsgCopying (src dest : path)     (* 'Copying asset:\n  From: {0}\n  To: {1}' *)
| MsgRemoving (p : path)           (* 'Removing asset:\n  {0}' *)
| MsgL (p : path)                  (* 'L: {0}' *)
| MsgR (p : path)                  (* 'R: {0}' *)
| MsgD (p : path)                  (* 'D: {0}' *)
| MsgNoDependFile (name : string)  (* 'No depend file named "{0}" found ...' *)
| MsgWithProject (p : json)        (* '  With project {0}:' *)
| MsgComparing                     (* 'Comparing changes' *)
| MsgPulling                       (* 'Pulling changes' *)
| MsgPushing.                      (* 'Pushing changes' *)

Inductive handler : Type := HLeftOnly | HRightOnly | HDiff.

(** The attributes of a [filecmp.dircmp] object that [visit_dcmp] reads,
    with the classes of common names they are computed from. *)
Record dircmp : Type := mkDircmp {
  dc_left : path;
  dc_right : path;
  dc_left_only : list string;
  dc_right_only : list string;
  dc_common_dirs : list string;
  dc_common_funny : list string;
  dc_diff_files : list string;
  dc_subdirs : list string          (* the keys of [subdirs], in order *)
}.

Inductive event : Type :=
| Call (h : handler) (left right : path) (name : string)
| Compared (d : dircmp).

Record state : Type := mkState {
  fs : node;
  out : list msg;
  log : list event
}.

Definition M (A : Type) : Type := state -> result A * state.

Definition ret {A} (a : A) : M A := fun s => (Ok a, s).

Definition bind {A B} (m : M A) (f : A -> M B) : M B :=
  fun s =>
    match m s with
    | (Ok a, s') => f a s'
    | (Raise e, s') => (Raise e, s')
    | (OutOfFuel, s') => (OutOfFuel, s')
    end.

Definition raise {A} (e : exn) : M A := fun s => (Raise e, s).

Notation "x <- m ;; k" := (bind m (fun x => k))
  (at level 61, m at next level, right associativity).
Notation "m ;; k" := (bind m (fun _ => k))
  (at level 61, right associativity).

Definition print (m : msg) : M unit :=
  fun s => (Ok tt, mkState (fs s) (out s ++ [m]) (log s)).

Definition record (e : event) : M unit :=
  fun s => (Ok tt, mkState (fs s) (out s) (log s ++ [e])).

(** Reading the file system. *)
Definition query {A} (f : node -> A) : M A := fun s => (Ok (f (fs s)), s).

(** A system call that changes the file system or fails with an errno. *)
Definition syscall (f : node -> errno + node) : M unit :=
  fun s =>
    match f (fs s) with
    | inr t => (Ok tt, mkState t (out s) (log s))
    | inl e => (Raise (OSError e), s)
    end.

(** A library call that changes the file system or raises. *)
Definition libcall (f : node -> exn + node) : M unit :=
  fun s =>
    match f (fs s) with
    | inr t => (Ok tt, mkState t (out s) (log s))
    | inl e => (Raise e, s)
    end.

(** [for x in xs: body(x)] *)
Fixpoint foreach {A} (xs : list A) (body : A -> M unit) : M unit :=
  match xs with
  | [] => ret tt
  | x :: xs' => body x ;; foreach xs' body
  end.

(** ** The calls into [os] and [shutil] *)

Fixpoint mem (x : string) (l : list string) : bool :=
  match l with
  | [] => false
  | y :: l' => String.eqb x y || mem x l'
  end.

Fixpoint dedup (l : list string) : list string :=
  match l with
  | [] => []
  | x :: l' => if mem x l' then dedup l' else x :: dedup l'
  end.

(** [os.listdir]: every name once. *)
Definition listdir (t : node) (p : path) : errno + list string :=
  match lookup t p with
  | Some (Dir es) => inr (dedup (map fst es))
  | Some (File _ _) => inl ENOTDIR
  | None => inl (missing_errno t p)
  end.

(** [shutil.copy2(src, dst)]: a directory as destination receives the
    file under the source's base name; source and destination must not
    be the same file; the bytes and the modification time are copied. *)
Definition copy2 (src dst : path) (t : node) : errno + node :=
  let dst := if isdir t dst then dst ++ [basename src] else dst in
  if exists_ t src && path_eqb src dst then inl ESAMEFILE
  else
    match lookup t src with
    | None => inl (missing_errno t src)
    | Some (Dir _) => inl EISDIR
    | Some (File m d) =>
        match lookup t dst with
        | Some (Dir _) => inl EISDIR
        | _ =>
            match lookup t (parent dst) with
            | Some (Dir _) =>
                match store dst (File m d) t with
                | Some t' => inr t'
                | None => inl ENOTDIR
                end
            | Some (File _ _) => inl ENOTDIR
            | None => inl (missing_errno t (parent dst))
            end
        end
    end.

(** [dst] lies below an existing entry of the directory [src]. *)
Definition copies_into_itself (t : node) (src dst : path) : bool :=
  prefix src dst &&
  match skipn (List.length src) dst with
  | b :: _ :: _ => exists_ t (src ++ [b])
  | _ => false
  end.

(** [shutil.copytree(src, dst)].  [os.scandir(src)] lists the entries of
    [src]; then [os.makedirs(dst)] creates [dst] with its missing
    ancestors, and fails when [dst] exists or a regular file is on its
    way; then every listed entry is copied, a directory by a recursive
    call that lists it at that moment, a file with [copy2].

    When [dst] lies below an existing entry [b] of [src], the directories
    that [makedirs] has just made are listed in the call for [b], and
    their copy contains its own destination again: the recursion has no
    end, and the interpreter stops it with [RecursionError], which is no
    [OSError].  (With long names the operating system may refuse a path
    first; the outcome is then an [OSError].)  The exception is modelled;
    the nested directories that the aborted calls have made by then, all
    of them at or below [dst], are not: the file system of the model
    stays as it was. *)
Definition copytree (src dst : path) (t : node) : exn + node :=
  match lookup t src with
  | None => inl (OSError (missing_errno t src))
  | Some (File _ _) => inl (OSError ENOTDIR)
  | Some (Dir es) =>
      if exists_ t dst then inl (OSError EEXIST)
      else
        match store dst (Dir es) t with
        | None => inl (OSError ENOTDIR)
        | Some t' =>
            if copies_into_itself t src dst then inl RecursionError
            else inr t'
        end
  end.

(** [shutil.rmtree(path)] *)
Definition rmtree (p : path) (t : node) : errno + node :=
  match lookup t p with
  | None => inl (missing_errno t p)
  | Some (File _ _) => inl ENOTDIR
  | Some (Dir _) =>
      match erase p t with
      | Some t' => inr t'
      | None => inl EBUSY
      end
  end.

(** [os.remove(path)] *)
Definition os_remove (p : path) (t : node) : errno + node :=
  match lookup t p with
  | None => inl (missing_errno t p)
  | Some (Dir _) => inl EISDIR
  | Some (File _ _) =>
      match erase p t with
      | Some t' => inr t'
      | None => inl EBUSY
      end
  end.

Definition os_listdir (p : path) : M (list string) :=
  fun s =>
    match listdir (fs s) p with
    | inr names => (Ok names, s)
    | inl e => (Raise (OSError e), s)
    end.

(** ** [filecmp.dircmp] *)

Definition DEFAULT_IGNORES : list string :=
  ["RCS"; "CVS"; "tags"; ".git"; ".hg"; ".bzr"; "_darcs"; "__pycache__"].

Definition hide : list string := ["."; ".."].

Definition dircmp_filter (flist skip : list string) : list string :=
  filter (fun x => negb (mem x skip)) flist.

Fixpoint insert_sorted (x : string) (l : list string) : list string :=
  match l with
  | [] => [x]
  | y :: l' => if String.leb x y then x :: l else y :: insert_sorted x l'
  end.

Fixpoint sort (l : list string) : list string :=
  match l with
  | [] => []
  | x :: l' => insert_sorted x (sort l')
  end.

(** [phase0]: the two listings, filtered and sorted. *)
Definition phase0 (l r : path) : M (list string * list string) :=
  left_list <- os_listdir l ;;
  right_list <- os_listdir r ;;
  ret (sort (dircmp_filter left_list (hide ++ DEFAULT_IGNORES)),
       sort (dircmp_filter right_list (hide ++ DEFAULT_IGNORES))).

(** [phase1]: common names, left-only names, right-only names. *)
Definition phase1 (left_list right_list : list string)
  : list string * list string * list string :=
  (filter (fun x => mem x right_list) left_list,
   filter (fun x => negb (mem x right_list)) left_list,
   filter (fun x => negb (mem x left_list)) right_list).

Inductive class : Type := CDir | CFile | CFunny.

(** The class [phase2] gives a common name: both sides directories,
    both regular files, or funny (types differ, or [os.stat] fails). *)
Definition classify (t : node) (l r : path) (x : string) : class :=
  match lookup t (l ++ [x]), lookup t (r ++ [x]) with
  | Some (Dir _), Some (Dir _) => CDir
  | Some (File _ _), Some (File _ _) => CFile
  | _, _ => CFunny
  end.

Definition is_dir_class (c : class) : bool :=
  match c with CDir => true | _ => false end.
Definition is_file_class (c : class) : bool :=
  match c with CFile => true | _ => false end.
Definition is_funny_class (c : class) : bool :=
  match c with CFunny => true | _ => false end.

(** [phase2]: common_dirs, common_files, common_funny. *)
Definition phase2 (t : node) (l r : path) (common : list string)
  : list string * list string * list string :=
  (filter (fun x => is_dir_class (classify t l r x)) common,
   filter (fun x => is_file_class (classify t l r x)) common,
   filter (fun x => is_funny_class (classify t l r x)) common).

(** [filecmp.cmp(f1, f2, shallow=True)]: equal signatures (type, size,
    modification time) are taken as equal files; otherwise the sizes
    and then the bytes decide.  [None] is the [OSError] of [os.stat]. *)
Definition cmp (t : node) (f1 f2 : path) : option bool :=
  match lookup t f1, lookup t f2 with
  | Some n1, Some n2 =>
      match n1, n2 with
      | File m1 d1, File m2 d2 =>
          if Nat.eqb (String.length d1) (String.length d2) && Nat.eqb m1 m2
          then Some true
          else if negb (Nat.eqb (String.length d1) (String.length d2))
          then Some false
          else Some (String.eqb d1 d2)
      | _, _ => Some false
      end
  | _, _ => None
  end.

(** [phase3]: the common files that [cmpfiles] reports as different. *)
Definition phase3 (t : node) (l r : path) (common_files : list string)
  : list string :=
  filter (fun x => match cmp t (l ++ [x]) (r ++ [x]) with
                   | Some false => true
                   | _ => false
                   end) common_files.

(** ** Path strings and manifest values *)

(** [s.split('/')] *)
Fixpoint components (s : string) : list string :=
  match s with
  | EmptyString => [EmptyString]
  | String c s' =>
      if Ascii.eqb c "/" then EmptyString :: components s'
      else
        match components s' with
        | [] => [String c EmptyString]
        | x :: xs => String c x :: xs
        end
  end.

(** Following the components from a directory, kept as a stack. *)
Fixpoint follow (stack : list string) (cs : list string) : path :=
  match cs with
  | [] => rev stack
  | c :: cs' =>
      if String.eqb c "" || String.eqb c "." then follow stack cs'
      else if String.eqb c ".." then follow (tl stack) cs'
      else follow (c :: stack) cs'
  end.

Definition is_absolute (s : string) : bool :=
  match s with
  | String c _ => Ascii.eqb c "/"
  | EmptyString => false
  end.

(** The entry that [os.path.join(base, s)] names. *)
Definition resolve (base : path) (s : string) : path :=
  follow (if is_absolute s then [] else rev base) (components s).

(** [bool(value)] *)
Definition truthy (v : option json) : bool :=
  match v with
  | None | Some JNull => false
  | Some (JBool b) => b
  | Some (JNum z) => negb (Z.eqb z 0)
  | Some (JStr s) => negb (String.eqb s "")
  | Some (JArr l) => match l with [] => false | _ => true end
  | Some (JObj l) => match l with [] => false | _ => true end
  end.

Fixpoint assoc (k : string) (l : list (string * json)) : option json :=
  match l with
  | [] => None
  | (k', v) :: l' => if String.eqb k k' then Some v else assoc k l'
  end.

(** [value[key]] for a string key. *)
Definition subscript (v : json) (key : string) : M json :=
  match v with
  | JObj l =>
      match assoc key l with
      | Some x => ret x
      | None => raise KeyError
      end
  | _ => raise TypeError
  end.

Fixpoint chars (s : string) : list json :=
  match s with
  | EmptyString => []
  | String c s' => JStr (String c EmptyString) :: chars s'
  end.

(** The items of [for x in value]. *)
Definition iterate (v : json) : M (list json) :=
  match v with
  | JArr l => ret l
  | JObj l => ret (map (fun kv => JStr (fst kv)) l)
  | JStr s => ret (chars s)
  | _ => raise TypeError
  end.

(** [os.path.join(base, value)] accepts only a string. *)
Definition os_path_join (base : path) (v : json) : M path :=
  match v with
  | JStr s => ret (resolve base s)
  | _ => raise TypeError
  end.

(** ** The script *)

Inductive comparer : Type :=
| DiffComparer
| PullComparer (clean preview : bool)
| PushComparer (clean preview : bool).

(** [self.preview]; [DiffComparer.__init__] sets it to [False]. *)
Definition preview (self : comparer) : bool :=
  match self with
  | DiffComparer => false
  | PullComparer _ p | PushComparer _ p => p
  end.

Record Args : Type := mkArgs {
  dependfile : string;
  clean : bool;
  arg_preview : bool
}.

Section Script.

(** The working directory of the process. *)
Variable cwd : path.

(** [json.load] on the bytes of a file; [None] is a decoding error. *)
Variable json_load : string -> option json.

(** A relative path names an entry below the working directory. *)
Definition relative (p : path) : path := cwd ++ p.

Definition copy_asset (self : comparer) (src dest : path) : M unit :=
  print (MsgCopying src dest) ;;
  if preview self then ret tt
  else
    (d <- query (fun t => isdir t src) ;;
     if d then libcall (copytree src dest) else syscall (copy2 src dest)) ;;
    (* src_metafile = src = '.meta' : both names now hold the literal *)
    let src := relative [".meta"] in
    let src_metafile := src in
    f <- query (fun t => isfile t src_metafile) ;;
    if f then syscall (copy2 src_metafile (add_suffix dest ".meta"))
    else ret tt.

Definition remove_asset (self : comparer) (p : path) : M unit :=
  print (MsgRemoving p) ;;
  if preview self then ret tt
  else
    d <- query (fun t => isdir t p) ;;
    if d then syscall (rmtree p) else syscall (os_remove p).

Definition validate (self : comparer) (origin local : path) : M bool :=
  match self with
  | DiffComparer =>
      d <- query (fun t => isdir t local) ;;
      if negb d then print (MsgL origin) ;; ret false
      else
        d <- query (fun t => isdir t origin) ;;
        if negb d then print (MsgR local) ;; ret false
        else ret true
  | PullComparer _ _ =>
      d <- query (fun t => isdir t local) ;;
      if negb d then copy_asset self origin local ;; ret false
      else
        d <- query (fun t => isdir t origin) ;;
        if negb d then ret false
        else ret true
  | PushComparer _ _ =>
      d <- query (fun t => isdir t local) ;;
      if negb d then ret false
      else
        d <- query (fun t => isdir t origin) ;;
        if negb d then copy_asset self local origin ;; ret false
        else ret true
  end.

(** The handlers take [dcmp.left] and [dcmp.right] for [dcmp]. *)
Definition left_only (self : comparer) (left right : path) (asset : string)
  : M unit :=
  match self with
  | DiffComparer => print (MsgL (left ++ [asset]))
  | PullComparer _ _ => copy_asset self (left ++ [asset]) (right ++ [asset])
  | PushComparer c _ =>
      if c then remove_asset self (left ++ [asset]) else ret tt
  end.

Definition right_only (self : comparer) (left right : path) (asset : string)
  : M unit :=
  match self with
  | DiffComparer => print (MsgR (right ++ [asset]))
  | PullComparer c _ =>
      if c then remove_asset self (right ++ [asset]) else ret tt
  | PushComparer _ _ => copy_asset self (right ++ [asset]) (left ++ [asset])
  end.

Definition diff (self : comparer) (left right : path) (asset : string)
  : M unit :=
  match self with
  | DiffComparer => print (MsgD (right ++ [asset]))
  | PullComparer _ _ => copy_asset self (left ++ [asset]) (right ++ [asset])
  | PushComparer _ _ => copy_asset self (right ++ [asset]) (left ++ [asset])
  end.

(** [visit_dcmp(dcmp, comparer)] for [dcmp = dircmp(left, right)].  The
    attributes of a [dircmp] are computed when first read: the listings
    with [left_only], the classes of the common names with [diff_files],
    after the handlers of the one-sided names have run, and the
    comparison of a common subdirectory when it is visited.  The fuel
    bounds the depth of the recursion. *)
Fixpoint visit_dcmp (fuel : nat) (comparer : comparer) (left right : path)
  : M unit :=
  match fuel with
  | 0 => fun s => (OutOfFuel, s)
  | S fuel' =>
      lists <- phase0 left right ;;
      let '(common, lo, ro) := phase1 (fst lists) (snd lists) in
      foreach lo (fun name =>
        record (Call HLeftOnly left right name) ;;
        left_only comparer left right name) ;;
      foreach ro (fun name =>
        record (Call HRightOnly left right name) ;;
        right_only comparer left right name) ;;
      t <- query (fun t => t) ;;
      let '(common_dirs, common_files, common_funny) :=
        phase2 t left right common in
      let diff_files := phase3 t left right common_files in
      foreach diff_files (fun name =>
        record (Call HDiff left right name) ;;
        diff comparer left right name) ;;
      record (Compared (mkDircmp left right lo ro common_dirs common_funny
                                 diff_files common_dirs)) ;;
      foreach common_dirs (fun name =>
        visit_dcmp fuel' comparer (left ++ [name]) (right ++ [name]))
  end.

(** The loop of [local_root], from the working directory upwards; the
    directory is kept with its last component first. *)
Fixpoint local_root_from (t : node) (curdir : list string)
    (dependfile : string) : option path :=
  if isfile t (resolve (rev curdir) dependfile) then Some (rev curdir)
  else
    match curdir with
    | [] => None
    | _ :: up => local_root_from t up dependfile
    end.

Definition local_root (dependfile : string) : M (option path) :=
  query (fun t => local_root_from t (rev cwd) dependfile).

Definition read_file (p : path) : M string :=
  fun s =>
    match lookup (fs s) p with
    | Some (File _ d) => (Ok d, s)
    | Some (Dir _) => (Raise (OSError EISDIR), s)
    | None => (Raise (OSError (missing_errno (fs s) p)), s)
    end.

Definition load_conf (dependfile : string) : M (option json) :=
  root <- local_root dependfile ;;
  match root with
  | None => ret None
  | Some root =>
      json_data <- read_file (resolve root dependfile) ;;
      match json_load json_data with
      | Some conf => ret (Some conf)
      | None => raise JSONDecodeError
      end
  end.

(** Reading a name that no scope binds. *)
Definition unbound_name (name : string) : M string := raise NameError.

(** [compare_projects(args, comparer)].  The module binds the globals
    [parser], [subparsers], [diff_parser], [pull_parser], [push_parser],
    [args] and [loglevel] besides its imports, classes and functions;
    [dependfile] is none of them and is no parameter or local of the
    function, so the argument of [format] cannot be evaluated. *)
Definition compare_projects (fuel : nat) (args : Args) (comparer : comparer)
  : M (option Z) :=
  conf <- load_conf (dependfile args) ;;
  if negb (truthy conf) then
    name <- unbound_name "dependfile" ;;
    print (MsgNoDependFile name) ;;
    ret (Some 1%Z)
  else
    root <- local_root (dependfile args) ;;
    local_assets <-
      match root with
      | Some root => ret (resolve root "Assets")
      | None => raise TypeError
      end ;;
    projects <-
      match conf with
      | Some conf => subscript conf "projects"
      | None => raise TypeError
      end ;;
    projects <- iterate projects ;;
    foreach projects (fun proj =>
      proj_path <- subscript proj "path" ;;
      print (MsgWithProject proj_path) ;;
      origin_assets <- os_path_join cwd proj_path ;;
      let origin_assets := origin_assets ++ ["Assets"] in
      assets <- subscript proj "assets" ;;
      assets <- iterate assets ;;
      foreach assets (fun asset =>
        origin_path <- os_path_join origin_assets asset ;;
        local_path <- os_path_join local_assets asset ;;
        ok <- validate comparer origin_path local_path ;;
        if negb ok then ret tt
        else visit_dcmp fuel comparer origin_path local_path)) ;;
    ret None.

Definition diff_cmd (fuel : nat) (args : Args) : M unit :=
  print MsgComparing ;;
  let comparer := DiffComparer in
  compare_projects fuel args comparer ;;
  ret tt.

Definition pull_cmd (fuel : nat) (args : Args) : M unit :=
  print MsgPulling ;;
  let comparer := PullComparer (clean args) (arg_preview args) in
  compare_projects fuel args comparer ;;
  ret tt.

Definition push_cmd (fuel : nat) (args : Args) : M unit :=
  print MsgPushing ;;
  let comparer := PushComparer (clean args) (arg_preview args) in
  compare_projects fuel args comparer ;;
  ret tt.

End Script.

(** * The vocabulary of the statements *)

Unset Implicit Arguments.

(** ** Paths, kinds and listings *)

(** Neither path lies on the way to the other. *)
Definition apart (p q : path) : Prop :=
  prefix p q = false /\ prefix q p = false.

(** Directory ([true]), regular file ([false]) or nothing at a path. *)
Definition kind_at (t : node) (p : path) : option bool :=
  match lookup t p with
  | Some (Dir _) => Some true
  | Some (File _ _) => Some false
  | None => None
  end.

(** The path [q] is not at or below the entry [m] of either root, and
    not below the entry [m.meta]: the handlers for [m] write nowhere
    else. *)
Definition beside (l r : path) (m : string) (q : path) : Prop :=
  forall root, root = l \/ root = r ->
    prefix (root ++ [m]) q = false /\
    (prefix (root ++ [(m ++ ".meta")%string]) q = false \/
     q = root ++ [(m ++ ".meta")%string]).

(** The names [dircmp] leaves out of its listings. *)
Definition ignored (n : string) : bool := mem n (hide ++ DEFAULT_IGNORES).

(** The filtered and sorted listing of a directory with entries [es]. *)
Definition listing (es : entries) : list string :=
  sort (dircmp_filter (dedup (map fst es)) (hide ++ DEFAULT_IGNORES)).

(** ** Predicates on computations *)

(** An action that cannot exhaust the fuel and keeps the file system. *)
Definition plain {A} (m : M A) : Prop :=
  forall s, fst (m s) <> OutOfFuel /\ fs (snd (m s)) = fs s.

(** From a state with the file system [t0], [m] leaves the file system
    as it is and, when [total] is set, ends with a value or an
    exception. *)
Definition quiet (total : bool) (t0 : node) {A} (m : M A) : Prop :=
  forall s, fs s = t0 ->
    (total = true -> fst (m s) <> OutOfFuel) /\ fs (snd (m s)) = t0.

(** A comparer that only announces: the report policy, or a previewing
    pull or push. *)
Definition announces_only (c : comparer) : bool :=
  match c with
  | DiffComparer => true
  | PullComparer _ p | PushComparer _ p => p
  end.

(** Every event that [m] appends to the log satisfies [Q]. *)
Definition emits (Q : event -> Prop) {A} (m : M A) : Prop :=
  forall s, exists new, log (snd (m s)) = log s ++ new /\ Forall Q new.

(** [m] appends nothing. *)
Definition silent {A} (m : M A) : Prop := emits (fun _ => False) m.

(** [m] keeps the kind [k] of the entry at [q]. *)
Definition keeps_kind (q : path) (k : bool) {A} (m : M A) : Prop :=
  forall s, kind_at (fs s) q = Some k -> kind_at (fs (snd (m s))) q = Some k.

(** The events between two states of one run all satisfy [Q]. *)
Definition adds (Q : event -> Prop) (s s' : state) : Prop :=
  exists new, log s' = log s ++ new /\ Forall Q new.

(** ** Events of the log *)

(** No name of [left_only], [right_only] or [diff_files] is a key of
    [subdirs]. *)
Definition domains_disjoint (d : dircmp) : Prop :=
  forall n,
    In n (dc_left_only d) \/ In n (dc_right_only d) \/ In n (dc_diff_files d) ->
    ~ In n (dc_subdirs d).

Definition compared_disjoint (e : event) : Prop :=
  match e with
  | Compared d => domains_disjoint d
  | Call _ _ _ _ => True
  end.

(** The left directory of the comparison an event belongs to. *)
Definition event_left (e : event) : path :=
  match e with
  | Call _ dir _ _ => dir
  | Compared d => dc_left d
  end.

(** The event lies at or below the directory [l]. *)
Definition below (l : path) (e : event) : Prop :=
  prefix l (event_left e) = true.

(** The event is no handler call for [n] in [l], and does not lie at or
    below [l/n]. *)
Definition quiet_about (l : path) (n : string) (e : event) : Prop :=
  match e with
  | Call _ dir _ name => ~ (dir = l /\ name = n)
  | Compared _ => True
  end /\
  prefix (l ++ [n]) (event_left e) = false.

(** ** Pushing with the clean flag *)

(** For a walk that started the level at [l] in the state [s0]:
    the state [s] has [es] as the entries of [l], agrees with [s0] on
    every path apart from [l], and has no file [.meta] in the working
    directory. *)
Definition at_level (cwd l : path) (s0 : state) (es : entries) (s : state)
  : Prop :=
  lookup (fs s) l = Some (Dir es) /\
  (forall q, apart l q -> lookup (fs s) q = lookup (fs s0) q) /\
  isfile (fs s) (relative cwd [".meta"]) = false.

(** The paths, relative to the origin folder, of the origin entries that
    a walk meets without a local counterpart: an entry of a directory
    that the walk reaches, under a name that [dircmp] lists. *)
Inductive origin_only : entries -> entries -> path -> Prop :=
| origin_only_here (le re : entries) (n : string) :
    get_ent n le <> None -> get_ent n re = None -> ignored n = false ->
    origin_only le re [n]
| origin_only_below (le re le' re' : entries) (d : string) (q : path) :
    get_ent d le = Some (Dir le') -> get_ent d re = Some (Dir re') ->
    ignored d = false -> origin_only le' re' q ->
    origin_only le re (d :: q).

(** The entries of the origin directory after [name] was copied from the
    local directory with entries [re]. *)
Definition pushed (re : entries) (name : string) (es : entries) : entries :=
  match get_ent name re with
  | Some c => set_ent name c es
  | None => es
  end.

(** The policy of [push --clean] without [--preview]. *)
Definition push_clean : comparer := PushComparer true false.

(** A name of the local directory with entries [re] that can be copied
    onto the entries [es] of the origin. *)
Definition pushable (re : entries) (n : string) (es : entries) : Prop :=
  exists c, get_ent n re = Some c /\
    match c with
    | Dir _ => get_ent n es = None
    | File _ _ => forall es', get_ent n es <> Some (Dir es')
    end.

(** What a walk of [push --clean] does to a pair of directories that lie
    apart, in a state without a file [.meta] in the working directory,
    which is not below the origin folder. *)
Definition push_walk_spec (cwd : path) (fuel : nat) : Prop :=
  forall (l r : path) (le re : entries) (s : state),
    lookup (fs s) l = Some (Dir le) ->
    lookup (fs s) r = Some (Dir re) ->
    apart l r ->
    isfile (fs s) (relative cwd [".meta"]) = false ->
    prefix l (relative cwd [".meta"]) = false ->
    height (Dir le) <= fuel ->
    exists s',
      visit_dcmp cwd fuel push_clean l r s = (Ok tt, s') /\
      (forall q, apart l q -> lookup (fs s') q = lookup (fs s) q) /\
      (forall q, origin_only le re q -> lookup (fs s') (l ++ q) = None) /\
      isfile (fs s') (relative cwd [".meta"]) = false.

(** ** Pulling twice *)

(** [filecmp.cmp] on two regular files. *)
Definition files_equal (a b : node) : bool :=
  match a, b with
  | File m1 d1, File m2 d2 =>
      if Nat.eqb (String.length d1) (String.length d2) && Nat.eqb m1 m2
      then true
      else if negb (Nat.eqb (String.length d1) (String.length d2))
      then false
      else String.eqb d1 d2
  | _, _ => false
  end.

(** The local entries mirror the origin entries: a walk over the two
    directories finds no name of the origin missing and no common file
    different, at any level it reaches. *)
Inductive mirrored : entries -> entries -> Prop :=
| mirrored_entries (le re : entries) :
    (forall n c, ignored n = false -> get_ent n le = Some c ->
                 exists c', get_ent n re = Some c' /\ mirrors c c') ->
    mirrored le re
with mirrors : node -> node -> Prop :=
| mirrors_file (m m' : nat) (d d' : string) :
    files_equal (File m d) (File m' d') = true ->
    mirrors (File m d) (File m' d')
| mirrors_dir (a b : entries) : mirrored a b -> mirrors (Dir a) (Dir b)
| mirrors_file_dir (m : nat) (d : string) (b : entries) :
    mirrors (File m d) (Dir b)
| mirrors_dir_file (a : entries) (m : nat) (d : string) :
    mirrors (Dir a) (File m d).

(** The policy of [pull] without [--clean] and [--preview]. *)
Definition pull_plain : comparer := PullComparer false false.

(** What a walk of [pull] does to a pair of directories that lie apart,
    in a state without a file [.meta] in the working directory, which is
    not below the local folder. *)
Definition pull_walk_spec (cwd : path) (fuel : nat) : Prop :=
  forall (l r : path) (le re : entries) (s : state),
    lookup (fs s) l = Some (Dir le) ->
    lookup (fs s) r = Some (Dir re) ->
    apart l r ->
    isfile (fs s) (relative cwd [".meta"]) = false ->
    prefix r (relative cwd [".meta"]) = false ->
    height (Dir le) <= fuel ->
    exists s' re',
      visit_dcmp cwd fuel pull_plain l r s = (Ok tt, s') /\
      (forall q, apart r q -> lookup (fs s') q = lookup (fs s) q) /\
      lookup (fs s') r = Some (Dir re') /\
      mirrored le re' /\
      isfile (fs s') (relative cwd [".meta"]) = false.

(** No call of [left_only] or [diff]. *)
Definition no_residue (e : event) : Prop :=
  match e with
  | Call HLeftOnly _ _ _ | Call HDiff _ _ _ => False
  | _ => True
  end.

(** From a state with the file system [t0], [m] keeps the file system
    and appends only events that satisfy [Q]. *)
Definition still (t0 : node) (Q : event -> Prop) {A} (m : M A) : Prop :=
  forall s, fs s = t0 -> fs (snd (m s)) = t0 /\ adds Q s (snd (m s)).

(** ** What a run does to the file system *)

(** Every run of [m] relates the file system it starts from to the one
    it leaves, whatever the outcome. *)
Definition preserves (R : node -> node -> Prop) {A} (m : M A) : Prop :=
  forall s, R (fs s) (fs (snd (m s))).

(** No entry disappears, and none changes between regular file and
    directory. *)
Definition keeps_entries (t t' : node) : Prop :=
  forall q k, kind_at t q = Some k -> kind_at t' q = Some k.

(** A policy that removes entries: [--clean] without [--preview]. *)
Definition removes (c : comparer) : bool :=
  match c with
  | DiffComparer => false
  | PullComparer cl p | PushComparer cl p => cl && negb p
  end.

(** The paths in [P] hold after the run what they held before. *)
Definition unchanged_at (P : path -> Prop) (t t' : node) : Prop :=
  forall q, P q -> lookup t' q = lookup t q.

(** The directories whose entries the handlers of a policy write to, in
    a walk over [l] and [r]. *)
Definition dest_roots (c : comparer) (l r : path) : list path :=
  match c with
  | DiffComparer => []
  | PullComparer _ p => if p then [] else [r]
  | PushComparer _ p => if p then [] else [l]
  end.

(** The path [q] is apart from every entry of a destination directory
    that carries a name [dircmp] lists. *)
Definition outside (c : comparer) (l r : path) (q : path) : Prop :=
  forall root m, In root (dest_roots c l r) -> ignored m = false ->
    apart (root ++ [m]) q.

(** [s] ends with [suffix]. *)
Fixpoint has_suffix (suffix s : string) : bool :=
  String.eqb s suffix ||
  match s with
  | String _ s' => has_suffix suffix s'
  | EmptyString => false
  end.

(** One step of a run for an asset pair. *)
Definition sync_step (cwd : path) (fuel : nat) (c : comparer)
    (origin local : path) : M unit :=
  ok <- validate cwd c origin local ;;
  if negb ok then ret tt
  else visit_dcmp cwd fuel c origin local.

(** ** Walks that find nothing to do *)

(** A comparison without one-sided names and without differing files,
    and no handler call. *)
Definition nothing_to_do (e : event) : Prop :=
  match e with
  | Call _ _ _ _ => False
  | Compared d =>
      dc_left_only d = [] /\ dc_right_only d = [] /\ dc_diff_files d = []
  end.

(** From a state with the file system [t0], [m] returns, prints nothing
    and keeps the file system; the events it logs satisfy [Q]. *)
Definition idle (Q : event -> Prop) (t0 : node) (m : M unit) : Prop :=
  forall s, fs s = t0 ->
    exists new, m s = (Ok tt, mkState t0 (out s) (log s ++ new)) /\
                Forall Q new.

(** ** Copying and removing one asset *)

(** The path [dest] can receive a copy of the node [c]: a regular file
    needs an existing parent directory and no directory at [dest]; a
    directory needs a free path that meets no regular file on its way
    ([copytree] makes the missing ancestors). *)
Definition receives (t : node) (dest : path) (c : node) : Prop :=
  match c with
  | File _ _ =>
      dest <> [] /\
      (exists es, lookup t (parent dest) = Some (Dir es)) /\
      (forall es, lookup t dest <> Some (Dir es))
  | Dir _ => lookup t dest = None /\ missing_errno t dest = ENOENT
  end.

(** ** What a report prints *)




(** ** The steps of a run *)



(** ** What an acting policy does *)

(** Each of the two directories mirrors the other. *)
Definition in_sync (a b : entries) : Prop := mirrored a b /\ mirrored b a.

(** Pull or push with preview off. *)
Definition acts (c : comparer) : bool :=
  match c with
  | DiffComparer => false
  | PullComparer _ p | PushComparer _ p => negb p
  end.

(** The clean flag of a policy. *)
Definition cleans (c : comparer) : bool :=
  match c with
  | DiffComparer => false
  | PullComparer cl _ | PushComparer cl _ => cl
  end.

(** Of the two sides of a walk, the one that a policy reads from and the
    one that it writes to: [pull] copies from the left (the origin) to
    the right (the local project), [push] from the right to the left. *)
Definition source {A} (c : comparer) (l r : A) : A :=
  match c with PushComparer _ _ => r | _ => l end.

Definition target {A} (c : comparer) (l r : A) : A :=
  match c with PushComparer _ _ => l | _ => r end.

(** The class of a common name, from the entries of the two
    directories. *)
Definition classify_entries (le re : entries) (x : string) : class :=
  match get_ent x le, get_ent x re with
  | Some (Dir _), Some (Dir _) => CDir
  | Some (File _ _), Some (File _ _) => CFile
  | _, _ => CFunny
  end.

(** [filecmp.cmp] tells the two entries under a common name apart. *)
Definition differs (le re : entries) (x : string) : bool :=
  match get_ent x le, get_ent x re with
  | Some a, Some b => negb (files_equal a b)
  | _, _ => false
  end.

(** The handler calls and the comparisons of a walk over two
    directories with the entries [le] and [re], in their order: the
    calls for the left-only names, for the right-only names and for the
    differing files, the comparison of the level, then the walks of the
    common directories. *)
Fixpoint plan (fuel : nat) (l r : path) (le re : entries) : list event :=
  match fuel with
  | 0 => []
  | S fuel' =>
      let '(common, lo, ro) := phase1 (listing le) (listing re) in
      let cd :=
        filter (fun x => is_dir_class (classify_entries le re x)) common in
      let cf :=
        filter (fun x => is_file_class (classify_entries le re x)) common in
      let cfunny :=
        filter (fun x => is_funny_class (classify_entries le re x)) common in
      let df := filter (differs le re) cf in
      map (Call HLeftOnly l r) lo ++
      map (Call HRightOnly l r) ro ++
      map (Call HDiff l r) df ++
      Compared (mkDircmp l r lo ro cd cfunny df cd) ::
      flat_map (fun d =>
                  match get_ent d le, get_ent d re with
                  | Some (Dir a), Some (Dir b) =>
                      plan fuel' (l ++ [d]) (r ++ [d]) a b
                  | _, _ => []
                  end) cd
  end.

(** What a walk of an acting policy does to a pair of directories that
    lie apart, in a state without a file [.meta] in the working
    directory, which is not below the target directory: the walk ends
    normally and writes below the target only; the target then mirrors
    the source, and is mirrored by it when the policy cleans; without
    the clean flag the target entries under names that the source lacks
    are as before; the events of the walk are those of [plan]. *)
Definition walk_spec (cwd : path) (c : comparer) (fuel : nat) : Prop :=
  forall (l r : path) (le re : entries) (s : state),
    lookup (fs s) l = Some (Dir le) ->
    lookup (fs s) r = Some (Dir re) ->
    apart l r ->
    isfile (fs s) (relative cwd [".meta"]) = false ->
    prefix (target c l r) (relative cwd [".meta"]) = false ->
    height (Dir le) <= fuel ->
    exists s' es',
      visit_dcmp cwd fuel c l r s = (Ok tt, s') /\
      (forall q, apart (target c l r) q ->
                 lookup (fs s') q = lookup (fs s) q) /\
      lookup (fs s') (target c l r) = Some (Dir es') /\
      mirrored (source c le re) es' /\
      (cleans c = true -> mirrored es' (source c le re)) /\
      (cleans c = false ->
       forall n, get_ent n (source c le re) = None ->
                 get_ent n es' = get_ent n (target c le re)) /\
      isfile (fs s') (relative cwd [".meta"]) = false /\
      log s' = log s ++ plan fuel l r le re.

(** From a state with the file system [t0], [m] returns and keeps the
    file system; it logs the events [evs]. *)
Definition steady (evs : list event) (t0 : node) (m : M unit) : Prop :=
  forall s, fs s = t0 ->
    exists o, m s = (Ok tt, mkState t0 o (log s ++ evs)).

(** The policy [c] with the preview flag set. *)
Definition previewing (c : comparer) : comparer :=
  match c with
  | DiffComparer => DiffComparer
  | PullComparer cl _ => PullComparer cl true
  | PushComparer cl _ => PushComparer cl true
  end.

(** ** What a walk prints *)

(** The line that the policy [c] prints in the handler call [e]. *)
Definition announcement (c : comparer) (e : event) : list msg :=
  match e with
  | Compared _ => []
  | Call h l r n =>
      match c, h with
      | DiffComparer, HLeftOnly => [MsgL (l ++ [n])]
      | DiffComparer, HRightOnly => [MsgR (r ++ [n])]
      | DiffComparer, HDiff => [MsgD (r ++ [n])]
      | PullComparer cl _, HRightOnly =>
          if cl then [MsgRemoving (r ++ [n])] else []
      | PullComparer _ _, _ => [MsgCopying (l ++ [n]) (r ++ [n])]
      | PushComparer cl _, HLeftOnly =>
          if cl then [MsgRemoving (l ++ [n])] else []
      | PushComparer _ _, _ => [MsgCopying (r ++ [n]) (l ++ [n])]
      end
  end.

(** [m] prints the announcements of the events it logs, in their
    order, and nothing else. *)
Definition announces (c : comparer) {A} (m : M A) : Prop :=
  forall s, exists new,
    log (snd (m s)) = log s ++ new /\
    out (snd (m s)) = out s ++ flat_map (announcement c) new.

(** [m] prints nothing and logs nothing. *)
Definition mute {A} (m : M A) : Prop :=
  forall s, out (snd (m s)) = out s /\ log (snd (m s)) = log s.

(** ** Sample trees *)

(** A manifest with one origin project [/o] and one asset [w]. *)
Definition sample_conf : json :=
  JObj [("projects",
         JArr [JObj [("path", JStr "/o"); ("assets", JArr [JStr "w"])]])].

Definition sample_json_load (data : string) : option json := Some sample_conf.

(** The local project lives in [/l], which is the working directory. *)
Definition sample_cwd : path := ["l"].

Definition sample_args (clean preview : bool) : Args :=
  mkArgs "depend.json" clean preview.

Definition start (t : node) : state := mkState t [] [].

(** An asset [Foo] with its sidecar [Foo.meta], to be copied to [/l]. *)
Definition sidecar_tree : node :=
  Dir [("o", Dir [("Foo", File 7 "mesh"); ("Foo.meta", File 7 "guid: 1")]);
       ("l", Dir [])].

(** A project tree without any manifest. *)
Definition no_manifest_tree : node :=
  Dir [("o", Dir [("Assets", Dir [("w", Dir [("a", File 1 "x")])])]);
       ("l", Dir [("Assets", Dir [("w", Dir [])])])].

(** [x] is a regular file in the origin and a directory in the local
    project. *)
Definition mismatch_tree : node :=
  Dir [("o", Dir [("Assets", Dir [("w", Dir [("x", File 1 "q")])])]);
       ("l", Dir [("depend.json", File 1 "{}");
                  ("Assets", Dir [("w", Dir [("x", Dir [])])])])].


(** The origin holds a file named [tags] that the local project lacks. *)
Definition tags_tree : node :=
  Dir [("o", Dir [("Assets", Dir [("w", Dir [("a", File 1 "x");
                                             ("tags", File 1 "t");
                                             ("old", File 1 "gone")])])]);
       ("l", Dir [("depend.json", File 1 "{}");
                  ("Assets", Dir [("w", Dir [("a", File 1 "x")])])])].

(** The working directory holds a file [.meta]; [a] differs between the
    projects and [a.meta] does not. *)
Definition dot_meta_tree : node :=
  Dir [("o", Dir [("Assets", Dir [("w", Dir [("a", File 2 "new");
                                             ("a.meta", File 1 "M")])])]);
       ("l", Dir [("depend.json", File 1 "{}");
                  (".meta", File 5 "Y");
                  ("Assets", Dir [("w", Dir [("a", File 1 "old");
                                             ("a.meta", File 1 "M")])])])].

Definition origin_w : path := ["o"; "Assets"; "w"].

Definition local_w : path := ["l"; "Assets"; "w"].

(** A local project [p] that sits inside the origin asset folder. *)
Definition nested_tree : node :=
  Dir [("o", Dir [("Assets", Dir [("w", Dir [("p", Dir
         [("depend.json", File 1 "{}")])])])])].

Definition nested_cwd : path := origin_w ++ ["p"].

Definition nested_local : path := nested_cwd ++ ["Assets"; "w"].

(** The origin has [a] and the local project [b] on their own; both
    have the directory [sub]. *)
Definition mixed_tree : node :=
  Dir [("o", Dir [("Assets", Dir [("w", Dir [("a", File 1 "x");
                                             ("sub", Dir [("c", File 1 "y")])])])]);
       ("l", Dir [("depend.json", File 1 "{}");
                  ("Assets", Dir [("w", Dir [("b", File 1 "z");
                                             ("sub", Dir [])])])])].

Definition mixed_comparison : dircmp :=
  mkDircmp origin_w local_w ["a"] ["b"] ["sub"] [] [] ["sub"].

(** A project whose manifest is the empty object. *)
Definition empty_manifest_tree : node :=
  Dir [("o", Dir [("Assets", Dir [("w", Dir [("a", File 1 "x")])])]);
       ("l", Dir [("depend.json", File 1 "{}");
                  ("Assets", Dir [("w", Dir [])])])].

Definition empty_json_load (data : string) : option json := Some (JObj []).

(** A manifest that is a list of projects, without the member
    [projects] around it. *)
Definition list_json_load (data : string) : option json :=
  Some (JArr [JObj [("path", JStr "/o"); ("assets", JArr [JStr "w"])]]).

(** The asset folder [w] holds the same entries on both sides. *)
Definition synced_entries : entries :=
  [("a", File 1 "x"); ("sub", Dir [("c", File 1 "y")])].

Definition synced_tree : node :=
  Dir [("o", Dir [("Assets", Dir [("w", Dir synced_entries)])]);
       ("l", Dir [("depend.json", File 1 "{}");
                  ("Assets", Dir [("w", Dir synced_entries)])])].

(** The origin has the asset folder [w]; the local project has no
    [Assets] folder at all. *)
Definition bootstrap_tree : node :=
  Dir [("o", Dir [("Assets", Dir [("w", Dir [("a.txt", File 1 "A");
                                             ("b.txt", File 2 "B")])])]);
       ("l", Dir [("depend.json", File 1 "{}")])].

Definition bootstrap_entries : entries :=
  [("a.txt", File 1 "A"); ("b.txt", File 2 "B")].

(** The local project has the asset folder [w]; the origin project has
    no [Assets] folder at all. *)
Definition push_bootstrap_tree : node :=
  Dir [("o", Dir []);
       ("l", Dir [("depend.json", File 1 "{}");
                  ("Assets", Dir [("w", Dir bootstrap_entries)])])].

(** * Properties *)

(** ** Basic facts about the file system *)

Lemma lookup_app (t : node) (p q : path) :
  lookup t (p ++ q) =
  match lookup t p with Some c => lookup c q | None => None end.
Proof.
  revert t; induction p as [|n p IH]; intro t; simpl; [reflexivity|].
  destruct t as [m d|es]; [reflexivity|].
  destruct (get_ent n es) as [c|]; [apply IH | reflexivity].
Qed.

Lemma height_get_ent (n : string) (es : entries) (c : node) :
  get_ent n es = Some c -> height c < height (Dir es).
Proof.
  induction es as [|[m c'] es IH]; simpl; [discriminate|].
  destruct (String.eqb n m).
  - intros [= ->]; lia.
  - intro H; specialize (IH H); simpl in IH; lia.
Qed.

Lemma height_lookup (t : node) (p : path) (c : node) :
  lookup t p = Some c -> height c <= height t.
Proof.
  revert t; induction p as [|n p IH]; intro t; simpl.
  - intros [= ->]; lia.
  - destruct t as [m d|es]; [discriminate|].
    destruct (get_ent n es) as [c'|] eqn:E; [|discriminate].
    intro H; apply IH in H; apply height_get_ent in E; lia.
Qed.

Lemma height_child (t : node) (l : path) (n : string) (es es' : entries) :
  lookup t l = Some (Dir es) ->
  lookup t (l ++ [n]) = Some (Dir es') ->
  height (Dir es') < height (Dir es).
Proof.
  intros Hl Hc; rewrite lookup_app, Hl in Hc; simpl in Hc.
  destruct (get_ent n es) as [c|] eqn:E; [|discriminate].
  injection Hc as ->; exact (height_get_ent _ _ _ E).
Qed.

(** ** Runs that leave the file system alone *)

Lemma plain_ret {A} (a : A) : plain (ret a).
Proof. intro s; split; [discriminate | reflexivity]. Qed.

Lemma plain_raise {A} (e : exn) : plain (@raise A e).
Proof. intro s; split; [discriminate | reflexivity]. Qed.

Lemma plain_print (m : msg) : plain (print m).
Proof. intro s; split; [discriminate | reflexivity]. Qed.

Lemma plain_record (e : event) : plain (record e).
Proof. intro s; split; [discriminate | reflexivity]. Qed.

Lemma plain_query {A} (f : node -> A) : plain (query f).
Proof. intro s; split; [discriminate | reflexivity]. Qed.

Lemma plain_os_listdir (p : path) : plain (os_listdir p).
Proof.
  intro s; unfold os_listdir.
  destruct (listdir (fs s) p); split; try discriminate; reflexivity.
Qed.

Lemma plain_read_file (p : path) : plain (read_file p).
Proof.
  intro s; unfold read_file.
  destruct (lookup (fs s) p) as [[m d|es]|]; split;
    try discriminate; reflexivity.
Qed.

Lemma plain_bind {A B} (m : M A) (f : A -> M B) :
  plain m -> (forall a, plain (f a)) -> plain (bind m f).
Proof.
  intros Hm Hf s; unfold bind.
  destruct (Hm s) as [H1 H2].
  destruct (m s) as [[a|e|] s1]; simpl in *.
  - destruct (Hf a s1) as [H3 H4]; split; [exact H3 | congruence].
  - split; [discriminate | exact H2].
  - contradiction.
Qed.

Create HintDb plain.

#[local] Hint Resolve plain_ret plain_raise plain_print plain_record
  plain_query plain_os_listdir plain_read_file : plain.

Ltac plain_step :=
  lazymatch goal with
  | |- plain (bind _ _) => apply plain_bind; [| intro]
  | |- plain (if ?b then _ else _) => destruct b
  | |- plain (match ?x with _ => _ end) => destruct x
  | |- plain _ => solve [auto with plain]
  end.

Lemma quiet_plain (total : bool) (t0 : node) {A} (m : M A) :
  plain m -> quiet total t0 m.
Proof. intros H s Hs; destruct (H s) as [H1 H2]; rewrite <- Hs; auto. Qed.

Lemma quiet_bind (total : bool) (t0 : node) {A B} (m : M A) (f : A -> M B) :
  quiet total t0 m ->
  (forall a, (exists s s', fs s = t0 /\ m s = (Ok a, s')) ->
             quiet total t0 (f a)) ->
  quiet total t0 (bind m f).
Proof.
  intros Hm Hf s Hs; unfold bind.
  destruct (Hm s Hs) as [H1 H2].
  destruct (m s) as [[a|e|] s1] eqn:E; simpl in *.
  - apply (Hf a); [exists s, s1; auto | exact H2].
  - split; [discriminate | exact H2].
  - split; [intro Ht; exfalso; apply (H1 Ht); reflexivity | exact H2].
Qed.

Lemma quiet_foreach (total : bool) (t0 : node) {A} (xs : list A)
    (body : A -> M unit) :
  (forall x, In x xs -> quiet total t0 (body x)) ->
  quiet total t0 (foreach xs body).
Proof.
  induction xs as [|x xs IH]; intro Hb; simpl.
  - intros s Hs; split; [discriminate | exact Hs].
  - apply quiet_bind; [apply Hb; left; reflexivity|].
    intros _ _; apply IH; intros y Hy; apply Hb; right; exact Hy.
Qed.

Section Quiet.

Variable cwd : path.
Variable json_load : string -> option json.

Lemma plain_phase0 (l r : path) : plain (phase0 l r).
Proof. unfold phase0; repeat plain_step. Qed.

Lemma plain_copy_asset (c : comparer) (src dest : path) :
  preview c = true -> plain (copy_asset cwd c src dest).
Proof. intro H; unfold copy_asset; rewrite H; repeat plain_step. Qed.

Lemma plain_remove_asset (c : comparer) (p : path) :
  preview c = true -> plain (remove_asset c p).
Proof. intro H; unfold remove_asset; rewrite H; repeat plain_step. Qed.

Lemma plain_validate (c : comparer) (origin local : path) :
  announces_only c = true -> plain (validate cwd c origin local).
Proof.
  intro H; destruct c; simpl in H; unfold validate; repeat plain_step;
    apply plain_copy_asset; exact H.
Qed.

Lemma plain_left_only (c : comparer) (l r : path) (n : string) :
  announces_only c = true -> plain (left_only cwd c l r n).
Proof.
  intro H; destruct c; simpl in H; unfold left_only; repeat plain_step;
    first [apply plain_copy_asset | apply plain_remove_asset]; exact H.
Qed.

Lemma plain_right_only (c : comparer) (l r : path) (n : string) :
  announces_only c = true -> plain (right_only cwd c l r n).
Proof.
  intro H; destruct c; simpl in H; unfold right_only; repeat plain_step;
    first [apply plain_copy_asset | apply plain_remove_asset]; exact H.
Qed.

Lemma plain_diff (c : comparer) (l r : path) (n : string) :
  announces_only c = true -> plain (diff cwd c l r n).
Proof.
  intro H; destruct c; simpl in H; unfold diff; repeat plain_step;
    apply plain_copy_asset; exact H.
Qed.

Lemma classify_dir (t : node) (l r : path) (x : string) :
  is_dir_class (classify t l r x) = true ->
  (exists es, lookup t (l ++ [x]) = Some (Dir es)) /\
  (exists es, lookup t (r ++ [x]) = Some (Dir es)).
Proof.
  unfold classify.
  destruct (lookup t (l ++ [x])) as [[m d|es]|];
    destruct (lookup t (r ++ [x])) as [[m' d'|es']|]; simpl;
    try discriminate.
  intros _; split; eexists; reflexivity.
Qed.

Lemma listdir_dir (t : node) (p : path) (names : list string) :
  listdir t p = inr names -> exists es, lookup t p = Some (Dir es).
Proof.
  unfold listdir; destruct (lookup t p) as [[m d|es]|]; try discriminate.
  intros _; eexists; reflexivity.
Qed.

Lemma phase0_dir (l r : path) (s s' : state) (lists : list string * list string) :
  phase0 l r s = (Ok lists, s') ->
  exists es, lookup (fs s) l = Some (Dir es).
Proof.
  unfold phase0, bind, os_listdir.
  destruct (listdir (fs s) l) as [e|ll] eqn:E; [discriminate|].
  intros _; exact (listdir_dir _ _ _ E).
Qed.

(** A walk that only announces keeps the file system, and ends when the
    fuel covers the height of the left directory. *)
Lemma quiet_visit_dcmp (c : comparer) (total : bool) (t0 : node) :
  announces_only c = true ->
  forall fuel l r,
    (total = true -> exists es, lookup t0 l = Some (Dir es) /\
                                height (Dir es) <= fuel) ->
    quiet total t0 (visit_dcmp cwd fuel c l r).
Proof.
  intros H fuel; induction fuel as [|fuel IH]; intros l r Hfuel.
  - intros s Hs; split; [|exact Hs].
    intro Ht; destruct (Hfuel Ht) as (es & _ & Hh); simpl in Hh; lia.
  - simpl.
    apply quiet_bind; [apply quiet_plain, plain_phase0 | intros [ll rl] Hp0].
    unfold phase1; simpl fst; simpl snd.
    apply quiet_bind.
    { apply quiet_foreach; intros n _; apply quiet_plain.
      apply plain_bind; [auto with plain | intros _; apply plain_left_only, H]. }
    intros _ _; apply quiet_bind.
    { apply quiet_foreach; intros n _; apply quiet_plain.
      apply plain_bind; [auto with plain | intros _; apply plain_right_only, H]. }
    intros _ _; apply quiet_bind; [apply quiet_plain; auto with plain|].
    intros t (s & s' & Hs & Hq); unfold query in Hq.
    injection Hq as Ht _; rewrite Hs in Ht; subst t.
    unfold phase2.
    apply quiet_bind.
    { apply quiet_foreach; intros n _; apply quiet_plain.
      apply plain_bind; [auto with plain | intros _; apply plain_diff, H]. }
    intros _ _; apply quiet_bind; [apply quiet_plain; auto with plain|].
    intros _ _; apply quiet_foreach; intros n Hn.
    apply IH; intro Ht.
    apply filter_In in Hn; destruct Hn as [_ Hn].
    apply classify_dir in Hn; destruct Hn as [[es' He'] _].
    destruct (Hfuel Ht) as (es & He & Hh).
    exists es'; split; [exact He'|].
    pose proof (height_child _ _ _ _ _ He He'); lia.
Qed.

Lemma plain_load_conf (d : string) : plain (load_conf cwd json_load d).
Proof. unfold load_conf, local_root; repeat plain_step. Qed.

Lemma plain_subscript (v : json) (k : string) : plain (subscript v k).
Proof. unfold subscript; repeat plain_step. Qed.

Lemma plain_iterate (v : json) : plain (iterate v).
Proof. unfold iterate; repeat plain_step. Qed.

Lemma plain_os_path_join (b : path) (v : json) : plain (os_path_join b v).
Proof. unfold os_path_join; repeat plain_step. Qed.

Lemma validate_true (c : comparer) (origin local : path) (s s' : state) :
  validate cwd c origin local s = (Ok true, s') ->
  isdir (fs s) origin = true /\ isdir (fs s) local = true.
Proof.
  destruct c; unfold validate, bind, query, ret;
    destruct (isdir (fs s) local) eqn:El; simpl;
    try destruct (isdir (fs s) origin) eqn:Eo; simpl;
    try (intros [= <-]; auto; fail);
    try discriminate.
  all: destruct (copy_asset _ _ _ _ _) as [[[]|e|] s1]; discriminate.
Qed.

Lemma quiet_compare_projects (c : comparer) (total : bool) (t0 : node)
    (fuel : nat) (args : Args) :
  announces_only c = true ->
  (total = true -> height t0 <= fuel) ->
  quiet total t0 (compare_projects cwd json_load fuel args c).
Proof.
  intros H Hfuel; unfold compare_projects.
  apply quiet_bind; [apply quiet_plain, plain_load_conf | intros conf _].
  destruct (negb (truthy conf)).
  { apply quiet_plain; unfold unbound_name; repeat plain_step. }
  apply quiet_bind;
    [apply quiet_plain; unfold local_root; auto with plain | intros root _].
  apply quiet_bind;
    [apply quiet_plain; destruct root; auto with plain | intros la _].
  apply quiet_bind;
    [apply quiet_plain; destruct conf;
     [apply plain_subscript | auto with plain] | intros ps _].
  apply quiet_bind; [apply quiet_plain, plain_iterate | intros projects _].
  apply quiet_bind; [| intros _ _; apply quiet_plain; auto with plain].
  apply quiet_foreach; intros proj _.
  apply quiet_bind; [apply quiet_plain, plain_subscript | intros pp _].
  apply quiet_bind; [apply quiet_plain; auto with plain | intros _ _].
  apply quiet_bind; [apply quiet_plain, plain_os_path_join | intros oa _].
  apply quiet_bind; [apply quiet_plain, plain_subscript | intros as_ _].
  apply quiet_bind; [apply quiet_plain, plain_iterate | intros assets _].
  apply quiet_foreach; intros asset _.
  apply quiet_bind; [apply quiet_plain, plain_os_path_join | intros op _].
  apply quiet_bind; [apply quiet_plain, plain_os_path_join | intros lp _].
  apply quiet_bind; [apply quiet_plain, plain_validate, H|].
  intros ok (s & s' & Hs & Hv).
  destruct ok; simpl; [| apply quiet_plain; auto with plain].
  apply quiet_visit_dcmp; [exact H|].
  intro Ht; apply validate_true in Hv; destruct Hv as [Ho _].
  unfold isdir in Ho; rewrite Hs in Ho.
  destruct (lookup t0 op) as [[m d|es]|] eqn:E; try discriminate.
  exists es; split; [reflexivity|].
  pose proof (height_lookup _ _ _ E); specialize (Hfuel Ht); lia.
Qed.

End Quiet.

(** ** Preview and report runs *)

Lemma quiet_cmd (cwd : path) (json_load : string -> option json)
    (c : comparer) (m : msg) (fuel : nat) (args : Args) (s : state) :
  announces_only c = true ->
  let run := (print m ;; compare_projects cwd json_load fuel args c ;; ret tt)
  in
  fs (snd (run s)) = fs s /\
  (height (fs s) <= fuel -> fst (run s) <> OutOfFuel).
Proof.
  intros H run.
  assert (Q : forall total, (total = true -> height (fs s) <= fuel) ->
                            quiet total (fs s) run).
  { intros total Ht; unfold run.
    apply quiet_bind; [apply quiet_plain; auto with plain | intros _ _].
    apply quiet_bind; [apply quiet_compare_projects; assumption|].
    intros _ _; apply quiet_plain; auto with plain. }
  split.
  - apply (Q false); [discriminate | reflexivity].
  - intro Hf; apply (Q true); auto.
Qed.

(** C4.  With the preview flag set, [copy_asset] and [remove_asset] print
    their announcement and return with the file system untouched; a
    [pull] run with [--preview] ends with the file system it began with
    (origin and local trees alike), and it does end once the fuel covers
    the height of the tree. *)
Theorem preview_never_mutates :
  forall (cwd : path) (json_load : string -> option json),
    (forall (self : comparer) (src dest : path) (s : state),
        preview self = true ->
        copy_asset cwd self src dest s =
        (Ok tt, mkState (fs s) (out s ++ [MsgCopying src dest]) (log s)) /\
        remove_asset self src s =
        (Ok tt, mkState (fs s) (out s ++ [MsgRemoving src]) (log s))) /\
    (forall (fuel : nat) (dependfile : string) (clean : bool) (s : state),
        let run := pull_cmd cwd json_load fuel (mkArgs dependfile clean true)
        in
        fs (snd (run s)) = fs s /\
        (height (fs s) <= fuel -> fst (run s) <> OutOfFuel)).
Proof.
  intros cwd json_load; split.
  - intros self src dest s H.
    unfold copy_asset, remove_asset, bind, print; rewrite H; split; reflexivity.
  - intros fuel d c s; unfold pull_cmd; simpl.
    apply quiet_cmd; reflexivity.
Qed.

(** C10.  The handlers of the report policy return after printing one
    path, with the file system untouched, and [validate] prints at most
    one; a [diff] run ends with the file system it began with, and it
    does end once the fuel covers the height of the tree. *)
Theorem diff_never_mutates :
  forall (cwd : path) (json_load : string -> option json),
    (forall (origin local : path) (s : state),
        validate cwd DiffComparer origin local s =
        if negb (isdir (fs s) local)
        then (Ok false, mkState (fs s) (out s ++ [MsgL origin]) (log s))
        else if negb (isdir (fs s) origin)
        then (Ok false, mkState (fs s) (out s ++ [MsgR local]) (log s))
        else (Ok true, s)) /\
    (forall (left right : path) (asset : string) (s : state),
        left_only cwd DiffComparer left right asset s =
        (Ok tt, mkState (fs s) (out s ++ [MsgL (left ++ [asset])]) (log s)) /\
        right_only cwd DiffComparer left right asset s =
        (Ok tt, mkState (fs s) (out s ++ [MsgR (right ++ [asset])]) (log s)) /\
        diff cwd DiffComparer left right asset s =
        (Ok tt, mkState (fs s) (out s ++ [MsgD (right ++ [asset])]) (log s))) /\
    (forall (fuel : nat) (args : Args) (s : state),
        fs (snd (diff_cmd cwd json_load fuel args s)) = fs s /\
        (height (fs s) <= fuel ->
         fst (diff_cmd cwd json_load fuel args s) <> OutOfFuel)).
Proof.
  intros cwd json_load; split; [|split].
  - intros origin local s; unfold validate, bind, query, print, ret.
    destruct (isdir (fs s) local); simpl; [|reflexivity].
    destruct (isdir (fs s) origin); reflexivity.
  - intros l r n s; repeat split.
  - intros fuel args s; unfold diff_cmd.
    apply quiet_cmd; reflexivity.
Qed.

(** ** Entries, [store] and [erase] *)

Lemma get_set_same (n : string) (v : node) (es : entries) :
  get_ent n (set_ent n v es) = Some v.
Proof.
  induction es as [|[m c] es IH]; simpl.
  - rewrite String.eqb_refl; reflexivity.
  - destruct (String.eqb n m) eqn:E; simpl.
    + rewrite String.eqb_refl; reflexivity.
    + rewrite E; exact IH.
Qed.

Lemma get_set_other (n m : string) (v : node) (es : entries) :
  n <> m -> get_ent m (set_ent n v es) = get_ent m es.
Proof.
  intro Hnm; induction es as [|[k c] es IH]; simpl.
  - destruct (String.eqb m n) eqn:E; [|reflexivity].
    apply String.eqb_eq in E; congruence.
  - destruct (String.eqb n k) eqn:E; simpl.
    + apply String.eqb_eq in E; subst k.
      destruct (String.eqb m n) eqn:E'; [|reflexivity].
      apply String.eqb_eq in E'; congruence.
    + destruct (String.eqb m k); [reflexivity | exact IH].
Qed.

Lemma get_del_same (n : string) (es : entries) :
  get_ent n (del_ent n es) = None.
Proof.
  induction es as [|[m c] es IH]; simpl; [reflexivity|].
  destruct (String.eqb n m) eqn:E; simpl; [exact IH|].
  rewrite E; exact IH.
Qed.

Lemma get_del_other (n m : string) (es : entries) :
  n <> m -> get_ent m (del_ent n es) = get_ent m es.
Proof.
  intro Hnm; induction es as [|[k c] es IH]; simpl; [reflexivity|].
  destruct (String.eqb n k) eqn:E; simpl.
  - apply String.eqb_eq in E; subst k.
    destruct (String.eqb m n) eqn:E'; [|exact IH].
    apply String.eqb_eq in E'; congruence.
  - destruct (String.eqb m k); [reflexivity | exact IH].
Qed.

Lemma prefix_refl (p : path) : prefix p p = true.
Proof.
  induction p as [|a p IH]; simpl; [reflexivity|].
  rewrite String.eqb_refl; exact IH.
Qed.

Lemma prefix_app (p x : path) : prefix p (p ++ x) = true.
Proof.
  induction p as [|a p IH]; simpl; [reflexivity|].
  rewrite String.eqb_refl; exact IH.
Qed.

Lemma prefix_spec (p q : path) :
  prefix p q = true <-> exists x, q = p ++ x.
Proof.
  revert q; induction p as [|a p IH]; intro q; simpl.
  - split; [intros _; exists q; reflexivity | reflexivity].
  - destruct q as [|b q].
    + split; [discriminate | intros [x Hx]; discriminate].
    + rewrite andb_true_iff, String.eqb_eq, IH; split.
      * intros [-> [x ->]]; exists x; reflexivity.
      * intros [x [= -> ->]]; split; [reflexivity | exists x; reflexivity].
Qed.

Lemma prefix_trans (p q r : path) :
  prefix p q = true -> prefix q r = true -> prefix p r = true.
Proof.
  rewrite !prefix_spec; intros [x ->] [y ->].
  exists (x ++ y); rewrite app_assoc; reflexivity.
Qed.

(** Two prefixes of one path are comparable. *)
Lemma prefix_comparable (p q r : path) :
  prefix p r = true -> prefix q r = true ->
  prefix p q = true \/ prefix q p = true.
Proof.
  revert q r; induction p as [|a p IH]; intros q r; [left; reflexivity|].
  destruct q as [|b q]; [right; reflexivity|].
  destruct r as [|c r]; simpl; [discriminate|].
  rewrite !andb_true_iff, !String.eqb_eq.
  intros [-> Hp] [-> Hq].
  destruct (IH _ _ Hp Hq) as [H|H]; [left | right]; split; auto.
Qed.

Lemma apart_sym (p q : path) : apart p q -> apart q p.
Proof. intros [H1 H2]; split; assumption. Qed.

Lemma apart_below (p q x : path) : apart p q -> apart (p ++ x) q.
Proof.
  intros [H1 H2]; split.
  - destruct (prefix (p ++ x) q) eqn:E; [|reflexivity].
    rewrite (prefix_trans _ _ _ (prefix_app p x) E) in H1; discriminate.
  - destruct (prefix q (p ++ x)) eqn:E; [|reflexivity].
    destruct (prefix_comparable _ _ _ (prefix_app p x) E); congruence.
Qed.

Lemma apart_below_both (p q x y : path) : apart p q -> apart (p ++ x) (q ++ y).
Proof.
  intro H; apply apart_below, apart_sym, apart_below, apart_sym, H.
Qed.

Lemma prefix_app_same (l x y : path) :
  prefix (l ++ x) (l ++ y) = prefix x y.
Proof.
  induction l as [|a l IH]; simpl; [reflexivity|].
  rewrite String.eqb_refl; exact IH.
Qed.

Lemma apart_siblings (l x y : path) (n m : string) :
  n <> m -> apart (l ++ n :: x) (l ++ m :: y).
Proof.
  intro H; split; rewrite prefix_app_same; simpl.
  - destruct (String.eqb n m) eqn:E; [|reflexivity].
    apply String.eqb_eq in E; congruence.
  - destruct (String.eqb m n) eqn:E; [|reflexivity].
    apply String.eqb_eq in E; congruence.
Qed.

(** Replacing the node at an existing path. *)

Lemma store_replace (p : path) (v c0 : node) (t : node) :
  lookup t p = Some c0 -> exists t', store p v t = Some t'.
Proof.
  revert t; induction p as [|n p IH]; intros t H; simpl in *.
  - eexists; reflexivity.
  - destruct t as [m d|es]; [discriminate|].
    destruct (get_ent n es) as [c|]; [|discriminate].
    destruct (IH _ H) as [c' ->]; eexists; reflexivity.
Qed.

Lemma lookup_replace_same (p : path) (v c0 : node) (t t' : node) :
  lookup t p = Some c0 -> store p v t = Some t' -> lookup t' p = Some v.
Proof.
  revert t t'; induction p as [|n p IH]; intros t t' H S; simpl in *.
  - congruence.
  - destruct t as [m d|es]; [discriminate|].
    destruct (get_ent n es) as [c|]; [|discriminate].
    destruct (store p v c) as [c'|] eqn:E; [|discriminate].
    injection S as <-; simpl; rewrite get_set_same.
    exact (IH _ _ H E).
Qed.

Lemma lookup_replace_apart (p q : path) (v c0 : node) (t t' : node) :
  lookup t p = Some c0 -> store p v t = Some t' -> apart p q ->
  lookup t' q = lookup t q.
Proof.
  revert q t t'; induction p as [|n p IH]; intros q t t' H S [A1 A2].
  - discriminate.
  - simpl in H, S.
    destruct t as [m d|es]; [discriminate|].
    destruct (get_ent n es) as [c|] eqn:G; [|discriminate].
    destruct (store p v c) as [c'|] eqn:E; [|discriminate].
    injection S as <-.
    destruct q as [|k q]; [discriminate|]; simpl in *.
    destruct (String.eqb n k) eqn:Enk.
    + apply String.eqb_eq in Enk; subst k.
      rewrite String.eqb_refl in A2; simpl in A1, A2.
      rewrite get_set_same, G.
      apply (IH q c c' H E); split; assumption.
    + rewrite get_set_other; [reflexivity|].
      intros ->; rewrite String.eqb_refl in Enk; discriminate.
Qed.

Lemma lookup_replace_below (p x : path) (v c0 : node) (t t' : node) :
  lookup t p = Some c0 -> store p v t = Some t' ->
  lookup t' (p ++ x) = lookup v x.
Proof.
  intros H S; rewrite lookup_app, (lookup_replace_same _ _ _ _ _ H S); reflexivity.
Qed.

Lemma isfile_replace (p q : path) (v c0 : node) (t t' : node) :
  lookup t p = Some c0 -> store p v t = Some t' -> prefix p q = false ->
  isfile t' q = isfile t q.
Proof.
  revert q t t'; induction p as [|n p IH]; intros q t t' H S A.
  - discriminate.
  - simpl in H, S.
    destruct t as [m d|es]; [discriminate|].
    destruct (get_ent n es) as [c|] eqn:G; [|discriminate].
    destruct (store p v c) as [c'|] eqn:E; [|discriminate].
    injection S as <-.
    destruct q as [|k q]; [reflexivity|].
    unfold isfile; simpl in *.
    destruct (String.eqb n k) eqn:Enk.
    + apply String.eqb_eq in Enk; subst k; simpl in A.
      rewrite get_set_same, G.
      exact (IH q c c' H E A).
    + rewrite get_set_other; [reflexivity|].
      intros ->; rewrite String.eqb_refl in Enk; discriminate.
Qed.

Lemma store_child (l : path) (n : string) (v : node) (es : entries)
    (t : node) :
  lookup t l = Some (Dir es) ->
  store (l ++ [n]) v t = store l (Dir (set_ent n v es)) t.
Proof.
  revert t; induction l as [|a l IH]; intros t H; simpl in *.
  - injection H as ->.
    destruct (get_ent n es); reflexivity.
  - destruct t as [m d|es0]; [discriminate|].
    destruct (get_ent a es0) as [c|]; [|discriminate].
    rewrite (IH _ H); reflexivity.
Qed.

Lemma erase_child (l : path) (n : string) (es : entries) (t : node) :
  lookup t l = Some (Dir es) ->
  erase (l ++ [n]) t = store l (Dir (del_ent n es)) t.
Proof.
  revert t; induction l as [|a l IH]; intros t H; simpl in *.
  - injection H as ->; reflexivity.
  - destruct t as [m d|es0]; [discriminate|].
    destruct (get_ent a es0) as [c|]; [|discriminate].
    rewrite (IH _ H).
    destruct (l ++ [n]) eqn:E; [destruct l; discriminate | reflexivity].
Qed.

Lemma lookup_child (t : node) (l : path) (n : string) (es : entries) :
  lookup t l = Some (Dir es) -> lookup t (l ++ [n]) = get_ent n es.
Proof.
  intro H; rewrite lookup_app, H; simpl.
  destruct (get_ent n es); reflexivity.
Qed.

Lemma parent_child (l : path) (n : string) : parent (l ++ [n]) = l.
Proof. apply removelast_last. Qed.

Lemma basename_child (l : path) (n : string) : basename (l ++ [n]) = n.
Proof. apply last_last. Qed.

Lemma path_eqb_neq (p q : path) : p <> q -> path_eqb p q = false.
Proof.
  intro H; unfold path_eqb; destruct (list_eq_dec string_dec p q);
    [contradiction | reflexivity].
Qed.

(** ** The sidecar of a copied asset *)

(** C1 (the code departs from the claim).  [Foo] has the sidecar
    [Foo.meta] next to it; with preview off [copy_asset] copies [Foo] and
    returns, and no [Foo.meta] exists at the destination: the test for
    the sidecar looks at [.meta] in the working directory. *)
Theorem copy_asset_drops_sidecar :
  let src := ["o"; "Foo"] in
  let dest := ["l"; "Foo"] in
  let s := start sidecar_tree in
  let r := copy_asset sample_cwd (PullComparer false false) src dest s in
  lookup (fs s) (add_suffix src ".meta") = Some (File 7 "guid: 1") /\
  fst r = Ok tt /\
  lookup (fs (snd r)) dest = Some (File 7 "mesh") /\
  lookup (fs (snd r)) (add_suffix dest ".meta") = None.
Proof. vm_compute; repeat split. Qed.

(** ** A missing manifest *)

Lemma local_root_from_none (t : node) (cwd : path) (d : string) :
  (forall dir, prefix dir cwd = true -> isfile t (resolve dir d) = false) ->
  forall cur, prefix (rev cur) cwd = true -> local_root_from t cur d = None.
Proof.
  intros H cur; induction cur as [|a up IH]; intro Hp; simpl.
  - rewrite (H [] Hp); reflexivity.
  - simpl in Hp; rewrite (H _ Hp).
    apply IH; exact (prefix_trans _ _ _ (prefix_app (rev up) [a]) Hp).
Qed.

Lemma load_conf_none (cwd : path) (json_load : string -> option json)
    (d : string) (s : state) :
  (forall dir, prefix dir cwd = true ->
               isfile (fs s) (resolve dir d) = false) ->
  load_conf cwd json_load d s = (Ok None, s).
Proof.
  intro H; unfold load_conf, bind, local_root, query.
  rewrite (local_root_from_none _ _ _ H); [reflexivity|].
  rewrite rev_involutive; apply prefix_refl.
Qed.

(** C2 (the code departs from the claim).  When no file named by
    [--dependfile] exists in the working directory or any directory above
    it, [compare_projects] raises [NameError] while it builds the message
    about the missing depend file: nothing has been printed by it and the
    file system is as before.  Each subcommand has by then printed only
    its own headline. *)
Theorem missing_manifest_raises_name_error
    (cwd : path) (json_load : string -> option json) (fuel : nat)
    (args : Args) (comparer : comparer) (s : state) :
  (forall dir, prefix dir cwd = true ->
               isfile (fs s) (resolve dir (dependfile args)) = false) ->
  compare_projects cwd json_load fuel args comparer s = (Raise NameError, s) /\
  diff_cmd cwd json_load fuel args s =
    (Raise NameError, mkState (fs s) (out s ++ [MsgComparing]) (log s)) /\
  pull_cmd cwd json_load fuel args s =
    (Raise NameError, mkState (fs s) (out s ++ [MsgPulling]) (log s)) /\
  push_cmd cwd json_load fuel args s =
    (Raise NameError, mkState (fs s) (out s ++ [MsgPushing]) (log s)).
Proof.
  intro H.
  assert (C : forall c s', fs s' = fs s ->
            compare_projects cwd json_load fuel args c s' =
            (Raise NameError, s')).
  { intros c s' E; unfold compare_projects, bind.
    rewrite load_conf_none; [reflexivity | rewrite E; exact H]. }
  split; [apply C; reflexivity|].
  unfold diff_cmd, pull_cmd, push_cmd, bind, print.
  rewrite !C by reflexivity; repeat split.
Qed.

Lemma missing_manifest_witness :
  let s := start no_manifest_tree in
  (forall dir, prefix dir sample_cwd = true ->
               isfile (fs s) (resolve dir "depend.json") = false) /\
  pull_cmd sample_cwd sample_json_load 5 (sample_args false false) s =
    (Raise NameError, mkState (fs s) [MsgPulling] []).
Proof.
  assert (H : forall dir, prefix dir sample_cwd = true ->
            isfile no_manifest_tree (resolve dir "depend.json") = false).
  { intros [|a [|b dir]]; simpl.
    - reflexivity.
    - destruct (String.eqb a "l") eqn:E; [|discriminate].
      apply String.eqb_eq in E; subst a; reflexivity.
    - rewrite andb_false_r; discriminate. }
  split; [exact H|].
  exact (proj1 (proj2 (proj2
    (missing_manifest_raises_name_error sample_cwd sample_json_load 5
       (sample_args false false) DiffComparer (start no_manifest_tree) H)))).
Defined.

(** ** Stepping through a computation *)

Lemma bind_ok {A B} (m : M A) (f : A -> M B) (s s1 : state) (a : A) :
  m s = (Ok a, s1) -> bind m f s = f a s1.
Proof. intro H; unfold bind; rewrite H; reflexivity. Qed.

Lemma bind_raise {A B} (m : M A) (f : A -> M B) (s s1 : state) (e : exn) :
  m s = (Raise e, s1) -> bind m f s = (Raise e, s1).
Proof. intro H; unfold bind; rewrite H; reflexivity. Qed.

Lemma bind_out_of_fuel {A B} (m : M A) (f : A -> M B) (s s1 : state) :
  m s = (OutOfFuel, s1) -> bind m f s = (OutOfFuel, s1).
Proof. intro H; unfold bind; rewrite H; reflexivity. Qed.

(** One step of [print], [record], [query] or [ret]. *)
Ltac step := erewrite bind_ok by reflexivity; cbn [fs out log].

(** ** [validate] *)

Lemma syscall_outcome (f : node -> errno + node) (s : state) :
  (exists t, f (fs s) = inr t /\
             syscall f s = (Ok tt, mkState t (out s) (log s))) \/
  (exists e, f (fs s) = inl e /\ syscall f s = (Raise (OSError e), s)).
Proof.
  unfold syscall; destruct (f (fs s)) as [e|t];
    [right | left]; eexists; split; reflexivity.
Qed.

Lemma libcall_outcome (f : node -> exn + node) (s : state) :
  (exists t, f (fs s) = inr t /\
             libcall f s = (Ok tt, mkState t (out s) (log s))) \/
  (exists e, f (fs s) = inl e /\ libcall f s = (Raise e, s)).
Proof.
  unfold libcall; destruct (f (fs s)) as [e|t];
    [right | left]; eexists; split; reflexivity.
Qed.


(** ** Removal under the clean flag *)

Lemma remove_asset_child (self : comparer) (l : path) (n : string)
    (es : entries) (c : node) (s : state) :
  preview self = false ->
  lookup (fs s) l = Some (Dir es) ->
  get_ent n es = Some c ->
  exists t,
    store l (Dir (del_ent n es)) (fs s) = Some t /\
    remove_asset self (l ++ [n]) s =
    (Ok tt, mkState t (out s ++ [MsgRemoving (l ++ [n])]) (log s)).
Proof.
  intros Hp Hl Hn.
  destruct (store_replace l (Dir (del_ent n es)) _ _ Hl) as [t Ht].
  exists t; split; [exact Ht|].
  unfold remove_asset; step; rewrite Hp; step.
  unfold isdir; rewrite (lookup_child _ _ n _ Hl), Hn.
  destruct c; unfold syscall, rmtree, os_remove; cbn [fs out log];
    rewrite (lookup_child _ _ n _ Hl), Hn, (erase_child _ _ _ _ Hl), Ht;
    reflexivity.
Qed.

Lemma removed_child (l : path) (n : string) (es : entries) (t t' : node) :
  lookup t l = Some (Dir es) ->
  store l (Dir (del_ent n es)) t = Some t' ->
  lookup t' (l ++ [n]) = None.
Proof.
  intros Hl Hs.
  rewrite (lookup_replace_below _ [n] _ _ _ _ Hl Hs); simpl.
  rewrite get_del_same; reflexivity.
Qed.

(** C6.  Without the clean flag, [right_only] of the pull policy and
    [left_only] of the push policy do nothing at all.  With it, each
    applies [remove_asset] to the entry of its side (local for pull,
    origin for push): for an entry that exists, the removal is announced
    and, preview being off, no entry is left at that path (with preview
    on, the file system stays as it is). *)
Theorem clean_flag_decides_removal
    (cwd : path) (clean dry : bool) (left right : path) (asset : string)
    (s : state) :
  let pull := right_only cwd (PullComparer clean dry) left right asset s in
  let push := left_only cwd (PushComparer clean dry) left right asset s in
  (clean = false -> pull = (Ok tt, s) /\ push = (Ok tt, s)) /\
  (clean = true -> lookup (fs s) (right ++ [asset]) <> None ->
   fst pull = Ok tt /\
   out (snd pull) = out s ++ [MsgRemoving (right ++ [asset])] /\
   lookup (fs (snd pull)) (right ++ [asset]) =
     (if dry then lookup (fs s) (right ++ [asset]) else None)) /\
  (clean = true -> lookup (fs s) (left ++ [asset]) <> None ->
   fst push = Ok tt /\
   out (snd push) = out s ++ [MsgRemoving (left ++ [asset])] /\
   lookup (fs (snd push)) (left ++ [asset]) =
     (if dry then lookup (fs s) (left ++ [asset]) else None)).
Proof.
  intros pull push; subst pull push; unfold right_only, left_only.
  assert (R : forall self d,
             (self = PullComparer true dry \/
              self = PushComparer true dry) ->
             lookup (fs s) (d ++ [asset]) <> None ->
             let r := remove_asset self (d ++ [asset]) s in
             fst r = Ok tt /\
             out (snd r) = out s ++ [MsgRemoving (d ++ [asset])] /\
             lookup (fs (snd r)) (d ++ [asset]) =
               (if dry then lookup (fs s) (d ++ [asset]) else None)).
  { intros self d Hself Hd.
    assert (Hp : preview self = dry).
    { destruct Hself as [-> | ->]; reflexivity. }
    destruct dry.
    - unfold remove_asset; step; rewrite Hp; cbn; repeat split.
    - rewrite lookup_app in Hd.
      destruct (lookup (fs s) d) as [[m x|es]|] eqn:Ed; simpl in Hd;
        try congruence.
      destruct (get_ent asset es) as [c|] eqn:Ec; [|congruence].
      destruct (remove_asset_child self d asset es c s Hp Ed Ec)
        as (t & Ht & ->).
      cbn; repeat split; exact (removed_child _ _ _ _ _ Ed Ht). }
  split; [intros ->; split; reflexivity|].
  split; intros ->; apply R; auto.
Qed.

(** The push policy with [--clean] removes the origin-only file [old]. *)
Lemma clean_flag_witness :
  let s := start tags_tree in
  lookup (fs (snd (left_only sample_cwd (PushComparer true false)
                     origin_w local_w "old" s))) (origin_w ++ ["old"]) = None.
Proof.
  intro s.
  refine (proj2 (proj2 (proj2 (proj2
    (clean_flag_decides_removal sample_cwd true false origin_w local_w
       "old" s)) eq_refl _))); vm_compute; discriminate.
Defined.

(** ** What a run adds to the log *)

Lemma emits_weaken (Q Q' : event -> Prop) {A} (m : M A) :
  (forall e, Q e -> Q' e) -> emits Q m -> emits Q' m.
Proof.
  intros H Hm s; destruct (Hm s) as (new & E & F).
  exists new; split; [exact E | exact (Forall_impl _ H F)].
Qed.

Lemma emits_silent (Q : event -> Prop) {A} (m : M A) : silent m -> emits Q m.
Proof. apply emits_weaken; contradiction. Qed.

Lemma silent_same_log {A} (m : M A) :
  (forall s, log (snd (m s)) = log s) -> silent m.
Proof.
  intros H s; exists []; rewrite app_nil_r; split; [apply H | constructor].
Qed.

Lemma silent_log {A} (m : M A) (s : state) :
  silent m -> log (snd (m s)) = log s.
Proof.
  intro H; destruct (H s) as (new & E & F).
  destruct new as [|e new]; [rewrite app_nil_r in E; exact E|].
  inversion F; contradiction.
Qed.

Lemma emits_record (Q : event -> Prop) (e : event) : Q e -> emits Q (record e).
Proof. intros H s; exists [e]; split; [reflexivity | repeat constructor; exact H]. Qed.

Lemma emits_bind (Q : event -> Prop) {A B} (m : M A) (f : A -> M B) :
  emits Q m -> (forall a, emits Q (f a)) -> emits Q (bind m f).
Proof.
  intros Hm Hf s; unfold bind.
  destruct (Hm s) as (new & E & F).
  destruct (m s) as [[a|e|] s1]; simpl in *.
  - destruct (Hf a s1) as (new' & E' & F').
    exists (new ++ new'); split.
    + rewrite E', E, app_assoc; reflexivity.
    + apply Forall_app; split; assumption.
  - exists new; split; assumption.
  - exists new; split; assumption.
Qed.

Lemma emits_foreach (Q : event -> Prop) {A} (xs : list A)
    (body : A -> M unit) :
  (forall x, In x xs -> emits Q (body x)) -> emits Q (foreach xs body).
Proof.
  induction xs as [|x xs IH]; intro Hb; simpl.
  - apply emits_silent, silent_same_log; reflexivity.
  - apply emits_bind; [apply Hb; left; reflexivity|].
    intros _; apply IH; intros y Hy; apply Hb; right; exact Hy.
Qed.

Lemma silent_ret {A} (a : A) : silent (ret a).
Proof. apply silent_same_log; reflexivity. Qed.

Lemma silent_raise {A} (e : exn) : silent (@raise A e).
Proof. apply silent_same_log; reflexivity. Qed.

Lemma silent_print (m : msg) : silent (print m).
Proof. apply silent_same_log; reflexivity. Qed.

Lemma silent_query {A} (f : node -> A) : silent (query f).
Proof. apply silent_same_log; reflexivity. Qed.

Lemma silent_syscall (f : node -> errno + node) : silent (syscall f).
Proof.
  apply silent_same_log; intro s; unfold syscall.
  destruct (f (fs s)); reflexivity.
Qed.

Lemma silent_libcall (f : node -> exn + node) : silent (libcall f).
Proof.
  apply silent_same_log; intro s; unfold libcall.
  destruct (f (fs s)); reflexivity.
Qed.

Lemma silent_os_listdir (p : path) : silent (os_listdir p).
Proof.
  apply silent_same_log; intro s; unfold os_listdir.
  destruct (listdir (fs s) p); reflexivity.
Qed.

Lemma silent_read_file (p : path) : silent (read_file p).
Proof.
  apply silent_same_log; intro s; unfold read_file.
  destruct (lookup (fs s) p) as [[m d|es]|]; reflexivity.
Qed.

Lemma silent_bind {A B} (m : M A) (f : A -> M B) :
  silent m -> (forall a, silent (f a)) -> silent (bind m f).
Proof. apply emits_bind. Qed.

Create HintDb silent.

#[local] Hint Resolve silent_ret silent_raise silent_print silent_query
  silent_syscall silent_libcall silent_os_listdir silent_read_file : silent.

Ltac silent_step :=
  lazymatch goal with
  | |- silent (bind _ _) => apply silent_bind; [| intro]
  | |- silent (if ?b then _ else _) => destruct b
  | |- silent (match ?x with _ => _ end) => destruct x
  | |- silent (let _ := _ in _) => cbv zeta
  | |- silent _ => solve [auto with silent]
  end.

Lemma silent_copy_asset (cwd : path) (c : comparer) (src dest : path) :
  silent (copy_asset cwd c src dest).
Proof. unfold copy_asset; repeat silent_step. Qed.

Lemma silent_remove_asset (c : comparer) (p : path) :
  silent (remove_asset c p).
Proof. unfold remove_asset; repeat silent_step. Qed.

#[local] Hint Resolve silent_copy_asset silent_remove_asset : silent.

Lemma silent_validate (cwd : path) (c : comparer) (origin local : path) :
  silent (validate cwd c origin local).
Proof. destruct c; unfold validate; repeat silent_step. Qed.

Lemma silent_left_only (cwd : path) (c : comparer) (l r : path) (n : string) :
  silent (left_only cwd c l r n).
Proof. destruct c; unfold left_only; repeat silent_step. Qed.

Lemma silent_right_only (cwd : path) (c : comparer) (l r : path) (n : string) :
  silent (right_only cwd c l r n).
Proof. destruct c; unfold right_only; repeat silent_step. Qed.

Lemma silent_diff (cwd : path) (c : comparer) (l r : path) (n : string) :
  silent (diff cwd c l r n).
Proof. destruct c; unfold diff; repeat silent_step. Qed.

Lemma silent_phase0 (l r : path) : silent (phase0 l r).
Proof. unfold phase0; repeat silent_step. Qed.

(** The walk appends events that satisfy [Q] when [Q] holds of every
    handler call and of the comparison of every pair of listings. *)
Lemma emits_visit_dcmp (cwd : path) (c : comparer)
    (Q : path -> path -> event -> Prop) :
  (forall l r h n, Q l r (Call h l r n)) ->
  (forall l r ll rl t,
      let '(common, lo, ro) := phase1 ll rl in
      let '(cd, cf, cfunny) := phase2 t l r common in
      Q l r (Compared (mkDircmp l r lo ro cd cfunny (phase3 t l r cf) cd))) ->
  (forall l r n e, Q (l ++ [n]) (r ++ [n]) e -> Q l r e) ->
  forall fuel l r, emits (Q l r) (visit_dcmp cwd fuel c l r).
Proof.
  intros Hcall Hcmp Hsub fuel; induction fuel as [|fuel IH]; intros l r.
  - apply emits_silent, silent_same_log; reflexivity.
  - simpl.
    apply emits_bind; [apply emits_silent, silent_phase0 | intros [ll rl]].
    specialize (Hcmp l r ll rl).
    unfold phase1 in *; cbn [fst snd].
    apply emits_bind.
    { apply emits_foreach; intros n _.
      apply emits_bind; [apply emits_record, Hcall | intros _].
      apply emits_silent, silent_left_only. }
    intros _; apply emits_bind.
    { apply emits_foreach; intros n _.
      apply emits_bind; [apply emits_record, Hcall | intros _].
      apply emits_silent, silent_right_only. }
    intros _; apply emits_bind; [apply emits_silent; auto with silent|].
    intro t; specialize (Hcmp t); unfold phase2 in *.
    apply emits_bind.
    { apply emits_foreach; intros n _.
      apply emits_bind; [apply emits_record, Hcall | intros _].
      apply emits_silent, silent_diff. }
    intros _; apply emits_bind; [apply emits_record, Hcmp | intros _].
    apply emits_foreach; intros n _.
    apply (emits_weaken (Q (l ++ [n]) (r ++ [n]))); [apply Hsub | apply IH].
Qed.

(** ** The classes of a comparison *)

Lemma mem_In (x : string) (l : list string) : mem x l = true <-> In x l.
Proof.
  induction l as [|y l IH]; simpl; [split; [discriminate | contradiction]|].
  rewrite orb_true_iff, String.eqb_eq, IH; split; intros [H|H]; auto.
Qed.

Lemma mem_not_In (x : string) (l : list string) : mem x l = false <-> ~ In x l.
Proof.
  rewrite <- mem_In; destruct (mem x l); split; congruence.
Qed.

Lemma phases_domains_disjoint (l r : path) (ll rl : list string) (t : node) :
  let '(common, lo, ro) := phase1 ll rl in
  let '(cd, cf, cfunny) := phase2 t l r common in
  domains_disjoint (mkDircmp l r lo ro cd cfunny (phase3 t l r cf) cd).
Proof.
  unfold phase1, phase2, phase3, domains_disjoint; cbn.
  intros n H Hcd.
  apply filter_In in Hcd; destruct Hcd as [Hc Hd].
  apply filter_In in Hc; destruct Hc as [Hll Hrl].
  destruct H as [H|[H|H]]; apply filter_In in H; destruct H as [H1 H2].
  - rewrite Hrl in H2; discriminate.
  - apply mem_In in Hll; rewrite Hll in H2; discriminate.
  - apply filter_In in H1; destruct H1 as [_ H1].
    destruct (classify t l r n); discriminate.
Qed.

Lemma emits_compare_projects (cwd : path)
    (json_load : string -> option json) (Q : event -> Prop)
    (fuel : nat) (args : Args) (c : comparer) :
  (forall l r, emits Q (visit_dcmp cwd fuel c l r)) ->
  emits Q (compare_projects cwd json_load fuel args c).
Proof.
  intro Hv.
  assert (S : forall A (m : M A), silent m -> emits Q m)
    by (intros; apply emits_silent; assumption).
  unfold compare_projects.
  apply emits_bind;
    [apply S; unfold load_conf, local_root; repeat silent_step | intro conf].
  destruct (negb (truthy conf)).
  { apply S; unfold unbound_name; repeat silent_step. }
  apply emits_bind; [apply S; unfold local_root; auto with silent | intro root].
  apply emits_bind; [apply S; destruct root; auto with silent | intro la].
  apply emits_bind;
    [apply S; destruct conf; unfold subscript; repeat silent_step | intro ps].
  apply emits_bind; [apply S; unfold iterate; repeat silent_step | intro prs].
  apply emits_bind; [| intros _; apply S; auto with silent].
  apply emits_foreach; intros proj _.
  apply emits_bind; [apply S; unfold subscript; repeat silent_step | intro pp].
  apply emits_bind; [apply S; auto with silent | intros _].
  apply emits_bind;
    [apply S; unfold os_path_join; repeat silent_step | intro oa].
  apply emits_bind; [apply S; unfold subscript; repeat silent_step | intro a].
  apply emits_bind; [apply S; unfold iterate; repeat silent_step | intro as_].
  apply emits_foreach; intros asset _.
  apply emits_bind;
    [apply S; unfold os_path_join; repeat silent_step | intro op].
  apply emits_bind;
    [apply S; unfold os_path_join; repeat silent_step | intro lp].
  apply emits_bind; [apply S, silent_validate | intro ok].
  destruct (negb ok); [apply S; auto with silent | apply Hv].
Qed.

(** C9.  In a walk, and in a whole run of [compare_projects], started
    with an empty log, every comparison that is produced keeps the names
    of [left_only], [right_only] and [diff_files] apart from the keys of
    [subdirs]. *)
Theorem subdirs_disjoint_from_entries
    (cwd : path) (json_load : string -> option json) (fuel : nat)
    (args : Args) (comparer : comparer) (left right : path) (s : state)
    (d : dircmp) (n : string) :
  log s = [] ->
  In (Compared d) (log (snd (visit_dcmp cwd fuel comparer left right s))) \/
  In (Compared d)
     (log (snd (compare_projects cwd json_load fuel args comparer s))) ->
  In n (dc_left_only d) \/ In n (dc_right_only d) \/ In n (dc_diff_files d) ->
  ~ In n (dc_subdirs d).
Proof.
  intros Hs Hd.
  assert (V : forall l r,
             emits compared_disjoint (visit_dcmp cwd fuel comparer l r)).
  { apply (emits_visit_dcmp cwd comparer (fun _ _ => compared_disjoint)).
    - intros; exact I.
    - intros l r ll rl t; pose proof (phases_domains_disjoint l r ll rl t) as P.
      unfold phase1, phase2 in *; exact P.
    - auto. }
  assert (D : compared_disjoint (Compared d)).
  { destruct Hd as [Hd|Hd].
    - destruct (V left right s) as (new & E & F).
      rewrite E, Hs in Hd; simpl in Hd.
      exact (proj1 (Forall_forall _ _) F _ Hd).
    - destruct (emits_compare_projects cwd json_load compared_disjoint
                  fuel args comparer V s) as (new & E & F).
      rewrite E, Hs in Hd; simpl in Hd.
      exact (proj1 (Forall_forall _ _) F _ Hd). }
  exact (D n).
Qed.

Lemma subdirs_disjoint_witness : ~ In "a" (dc_subdirs mixed_comparison).
Proof.
  apply (subdirs_disjoint_from_entries sample_cwd sample_json_load 3
           (sample_args false false) DiffComparer origin_w local_w
           (start mixed_tree) mixed_comparison "a").
  - reflexivity.
  - left; vm_compute; auto.
  - left; simpl; auto.
Defined.

(** ** Concrete runs *)

(** C3, on an input that refutes it: [x] is a regular file under the
    origin root and a directory under the local root; a [diff] run ends
    normally, and [x] was never handed to the [diff] handler: no call is
    logged and no line [D: .../x] is printed. *)
Lemma type_mismatch_not_dispatched :
  let s := start mismatch_tree in
  let r := diff_cmd sample_cwd sample_json_load 3 (sample_args false false) s
  in
  isfile (fs s) (origin_w ++ ["x"]) = true /\
  isdir (fs s) (local_w ++ ["x"]) = true /\
  fst r = Ok tt /\
  ~ In (Call HDiff origin_w local_w "x") (log (snd r)) /\
  ~ In (MsgD (local_w ++ ["x"])) (out (snd r)).
Proof.
  vm_compute; repeat split; try reflexivity;
    intro H; repeat (destruct H as [H|H]; [discriminate|]); exact H.
Qed.

(** C7, on an input that refutes it: the origin holds the files [tags]
    and [old], the local project neither.  After [push --clean] the file
    [old] is gone from the origin and [tags] is still there: [dircmp]
    leaves the names of its ignore list out of both listings. *)
Lemma push_clean_keeps_ignored_name :
  let s := start tags_tree in
  let r := push_cmd sample_cwd sample_json_load 3 (sample_args true false) s
  in
  lookup (fs s) (local_w ++ ["tags"]) = None /\
  lookup (fs s) (local_w ++ ["old"]) = None /\
  fst r = Ok tt /\
  lookup (fs (snd r)) (origin_w ++ ["old"]) = None /\
  lookup (fs (snd r)) (origin_w ++ ["tags"]) = Some (File 1 "t").
Proof. vm_compute; repeat split. Qed.

(** C8 (the code departs from the claim).  The working directory holds a
    file [.meta]; [a] differs between origin and local, [a.meta] is the
    same on both sides.  The first [pull] copies [a] and then overwrites
    the local [a.meta] with the [.meta] of the working directory, so the
    second [pull] finds [a.meta] among the differing files.  The defect
    is the one of the sidecar copy (C1). *)
Theorem second_pull_finds_diff :
  let args := sample_args false false in
  let r1 := pull_cmd sample_cwd sample_json_load 3 args (start dot_meta_tree)
  in
  let r2 := pull_cmd sample_cwd sample_json_load 3 args (start (fs (snd r1)))
  in
  fst r1 = Ok tt /\
  fst r2 = Ok tt /\
  In (Call HDiff origin_w local_w "a.meta") (log (snd r2)).
Proof. vm_compute; repeat split; auto. Qed.

(** ** Listings *)

Lemma In_dedup (x : string) (l : list string) : In x (dedup l) <-> In x l.
Proof.
  induction l as [|y l IH]; simpl; [reflexivity|].
  destruct (mem y l) eqn:E.
  - rewrite IH; split; [auto|].
    intros [->|H]; [apply mem_In; exact E | exact H].
  - simpl; rewrite IH; reflexivity.
Qed.

Lemma NoDup_dedup (l : list string) : NoDup (dedup l).
Proof.
  induction l as [|y l IH]; simpl; [constructor|].
  destruct (mem y l) eqn:E; [exact IH|].
  constructor; [|exact IH].
  rewrite In_dedup; apply mem_not_In; exact E.
Qed.

Lemma In_insert_sorted (x y : string) (l : list string) :
  In x (insert_sorted y l) <-> x = y \/ In x l.
Proof.
  induction l as [|z l IH]; simpl; [intuition congruence|].
  destruct (String.leb y z); simpl; [intuition congruence|].
  rewrite IH; intuition congruence.
Qed.

Lemma In_sort (x : string) (l : list string) : In x (sort l) <-> In x l.
Proof.
  induction l as [|y l IH]; simpl; [reflexivity|].
  rewrite In_insert_sorted, IH; intuition congruence.
Qed.

Lemma NoDup_insert_sorted (y : string) (l : list string) :
  ~ In y l -> NoDup l -> NoDup (insert_sorted y l).
Proof.
  induction l as [|z l IH]; simpl; intros Hy Hl.
  - constructor; [exact Hy | exact Hl].
  - destruct (String.leb y z).
    + constructor; [exact Hy | exact Hl].
    + inversion Hl as [|? ? Hz Hl']; subst.
      constructor.
      * rewrite In_insert_sorted; intros [->|H]; [apply Hy; left; reflexivity|].
        contradiction.
      * apply IH; [intro H; apply Hy; right; exact H | exact Hl'].
Qed.

Lemma NoDup_sort (l : list string) : NoDup l -> NoDup (sort l).
Proof.
  induction l as [|y l IH]; simpl; intro H; [constructor|].
  inversion H as [|? ? Hy Hl]; subst.
  apply NoDup_insert_sorted; [rewrite In_sort; exact Hy | exact (IH Hl)].
Qed.

Lemma In_names_get_ent (n : string) (es : entries) :
  In n (map fst es) <-> get_ent n es <> None.
Proof.
  induction es as [|[m c] es IH]; simpl; [intuition congruence|].
  destruct (String.eqb n m) eqn:E.
  - apply String.eqb_eq in E; subst m; split; [discriminate | auto].
  - rewrite <- IH; split; [intros [->|H]; [|exact H] | auto].
    rewrite String.eqb_refl in E; discriminate.
Qed.

Lemma In_listing (n : string) (es : entries) :
  In n (listing es) <-> get_ent n es <> None /\ ignored n = false.
Proof.
  unfold listing, dircmp_filter, ignored.
  rewrite In_sort, filter_In, In_dedup, In_names_get_ent, negb_true_iff.
  reflexivity.
Qed.

Lemma NoDup_listing (es : entries) : NoDup (listing es).
Proof.
  unfold listing, dircmp_filter.
  apply NoDup_sort, NoDup_filter, NoDup_dedup.
Qed.

Lemma phase0_dirs (l r : path) (le re : entries) (s : state) :
  lookup (fs s) l = Some (Dir le) ->
  lookup (fs s) r = Some (Dir re) ->
  phase0 l r s = (Ok (listing le, listing re), s).
Proof.
  intros Hl Hr; unfold phase0, bind, os_listdir, listdir, ret.
  rewrite Hl, Hr; reflexivity.
Qed.

(** ** Updating the entries of one directory *)

Lemma get_fold_other (upd : string -> entries -> entries) (m : string) :
  (forall n es, n <> m -> get_ent m (upd n es) = get_ent m es) ->
  forall names es,
    ~ In m names ->
    get_ent m (fold_left (fun es n => upd n es) names es) = get_ent m es.
Proof.
  intros H names; induction names as [|n names IH]; intros es Hm; simpl.
  - reflexivity.
  - rewrite IH; [|intro; apply Hm; right; assumption].
    apply H; intros ->; apply Hm; left; reflexivity.
Qed.

Lemma get_fold_del (m : string) (names : list string) (es : entries) :
  In m names ->
  get_ent m (fold_left (fun es n => del_ent n es) names es) = None.
Proof.
  revert es; induction names as [|n names IH]; intros es Hm; simpl.
  - contradiction.
  - destruct (in_dec string_dec m names) as [Hin|Hnot].
    + apply IH; exact Hin.
    + destruct Hm as [->|Hm]; [|contradiction].
      rewrite (get_fold_other (fun n es => del_ent n es)); [|intros; apply get_del_other; assumption | exact Hnot].
      apply get_del_same.
Qed.

(** ** One level of a walk that writes below one directory *)

Section Level.

Variable cwd : path.

(** The directory the handlers write into, and the state at the start of
    the level. *)
Variable l : path.
Variable s0 : state.

Hypothesis meta_outside : prefix l (relative cwd [".meta"]) = false.

Lemma at_level_store (es es' : entries) (s : state) (t : node)
    (o : list msg) (g : list event) :
  at_level cwd l s0 es s ->
  store l (Dir es') (fs s) = Some t ->
  at_level cwd l s0 es' (mkState t o g).
Proof.
  intros (Hl & Hf & Hm) Hs; repeat split; cbn [fs].
  - exact (lookup_replace_same _ _ _ _ _ Hl Hs).
  - intros q Hq; rewrite (lookup_replace_apart _ _ _ _ _ _ Hl Hs Hq).
    apply Hf, Hq.
  - rewrite (isfile_replace _ _ _ _ _ _ Hl Hs meta_outside); exact Hm.
Qed.

Lemma at_level_log (es : entries) (s : state) (o : list msg)
    (g : list event) :
  at_level cwd l s0 es s -> at_level cwd l s0 es (mkState (fs s) o g).
Proof. intro H; exact H. Qed.

(** A loop whose body rewrites the entries of [l]. *)
Lemma level_loop (body : string -> M unit)
    (upd : string -> entries -> entries) (ok : string -> entries -> Prop) :
  (forall n es s, at_level cwd l s0 es s -> ok n es ->
     exists s', body n s = (Ok tt, s') /\ at_level cwd l s0 (upd n es) s') ->
  (forall n m es, n <> m -> ok n es -> ok n (upd m es)) ->
  forall names es s,
    NoDup names -> (forall n, In n names -> ok n es) -> at_level cwd l s0 es s ->
    exists s', foreach names body s = (Ok tt, s') /\
               at_level cwd l s0 (fold_left (fun es n => upd n es) names es) s'.
Proof.
  intros Hbody Hok names; induction names as [|n names IH];
    intros es s Hnd Hall Hat; simpl.
  - exists s; split; [reflexivity | exact Hat].
  - inversion Hnd as [|? ? Hn Hnd']; subst.
    destruct (Hbody n es s Hat (Hall n (or_introl eq_refl)))
      as (s1 & E1 & Hat1).
    destruct (IH (upd n es) s1 Hnd') as (s2 & E2 & Hat2).
    + intros m Hm; apply Hok; [|apply Hall; right; exact Hm].
      intros ->; contradiction.
    + exact Hat1.
    + exists s2; split; [|exact Hat2].
      erewrite bind_ok by exact E1; exact E2.
Qed.

(** [remove_asset] on an entry of [l]. *)
Lemma remove_asset_at_level (self : comparer) (n : string) (es : entries)
    (s : state) :
  preview self = false ->
  at_level cwd l s0 es s -> get_ent n es <> None ->
  exists s', remove_asset self (l ++ [n]) s = (Ok tt, s') /\
             at_level cwd l s0 (del_ent n es) s'.
Proof.
  intros Hp Hat Hn.
  destruct (get_ent n es) as [c|] eqn:Ec; [|congruence].
  destruct (remove_asset_child self l n es c s Hp (proj1 Hat) Ec)
    as (t & Ht & E).
  eexists; split; [exact E | exact (at_level_store _ _ _ _ _ _ Hat Ht)].
Qed.

(** [copy_asset] of [src] onto an entry of [l]: a directory needs a
    free name, a regular file a free name or a regular file. *)
Lemma copy_asset_at_level (self : comparer) (src : path) (c : node)
    (n : string) (es : entries) (s : state) :
  preview self = false ->
  at_level cwd l s0 es s ->
  lookup (fs s) src = Some c ->
  prefix src (l ++ [n]) = false ->
  match c with
  | Dir _ => get_ent n es = None
  | File _ _ => forall es', get_ent n es <> Some (Dir es')
  end ->
  exists s', copy_asset cwd self src (l ++ [n]) s = (Ok tt, s') /\
             at_level cwd l s0 (set_ent n c es) s'.
Proof.
  intros Hp Hat Hsrc Hpre Hfree.
  pose proof Hat as (Hl & _ & Hm).
  destruct (store_replace l (Dir (set_ent n c es)) _ _ Hl) as [t Ht].
  pose proof (at_level_store _ (set_ent n c es) _ _
                (out s ++ [MsgCopying src (l ++ [n])]) (log s) Hat Ht)
    as Hat'.
  exists (mkState t (out s ++ [MsgCopying src (l ++ [n])]) (log s)).
  split; [|exact Hat'].
  unfold copy_asset; step; rewrite Hp.
  assert (Hne : path_eqb src (l ++ [n]) = false).
  { apply path_eqb_neq; intros ->; rewrite prefix_refl in Hpre; discriminate. }
  assert (E : (d <- query (fun t => isdir t src) ;;
               if d then libcall (copytree src (l ++ [n]))
               else syscall (copy2 src (l ++ [n])))
                (mkState (fs s) (out s ++ [MsgCopying src (l ++ [n])]) (log s))
              = (Ok tt, mkState t (out s ++ [MsgCopying src (l ++ [n])])
                                (log s))).
  { step; unfold isdir; rewrite Hsrc.
    destruct c as [m d|ces]; unfold syscall, libcall; cbn [fs out log].
    - assert (Hd : isdir (fs s) (l ++ [n]) = false).
      { unfold isdir; rewrite (lookup_child _ _ n _ Hl).
        destruct (get_ent n es) as [[m' d'|es']|] eqn:G; try reflexivity.
        exfalso; exact (Hfree es' eq_refl). }
      unfold copy2; rewrite Hd; unfold exists_.
      rewrite Hsrc, Hne, andb_false_r.
      rewrite parent_child, Hl, (store_child _ _ _ _ _ Hl), Ht.
      unfold isdir in Hd.
      destruct (lookup (fs s) (l ++ [n])) as [[m' d'|es']|];
        [reflexivity | discriminate | reflexivity].
    - unfold copytree, exists_, copies_into_itself.
      rewrite Hsrc, (lookup_child _ _ n _ Hl), Hfree, Hpre.
      rewrite (store_child _ _ _ _ _ Hl), Ht; reflexivity. }
  erewrite bind_ok by exact E.
  cbv zeta; step.
  destruct Hat' as (_ & _ & Hm'); cbn [fs] in Hm'; rewrite Hm'; reflexivity.
Qed.

End Level.

(** ** Pushing with the clean flag *)

Lemma get_pushed_other (re : entries) (n m : string) (es : entries) :
  n <> m -> get_ent m (pushed re n es) = get_ent m es.
Proof.
  intro H; unfold pushed; destruct (get_ent n re); [|reflexivity].
  apply get_set_other; exact H.
Qed.

Section PushClean.

Variable cwd : path.

Variables l r : path.
Variable re : entries.
Variable s0 : state.

Hypothesis meta_outside : prefix l (relative cwd [".meta"]) = false.
Hypothesis roots_apart : apart l r.
Hypothesis local_dir : lookup (fs s0) r = Some (Dir re).

Lemma local_entry (n : string) (es : entries) (s : state) :
  at_level cwd l s0 es s -> lookup (fs s) (r ++ [n]) = get_ent n re.
Proof.
  intros (_ & Hf & _).
  rewrite Hf; [apply lookup_child; exact local_dir|].
  apply apart_sym, apart_below, apart_sym, roots_apart.
Qed.

Lemma push_remove_loop (names : list string) (es : entries) (s : state) :
  NoDup names -> (forall n, In n names -> get_ent n es <> None) ->
  at_level cwd l s0 es s ->
  exists s',
    foreach names (fun name =>
      record (Call HLeftOnly l r name) ;;
      left_only cwd push_clean l r name) s = (Ok tt, s') /\
    at_level cwd l s0 (fold_left (fun es n => del_ent n es) names es) s'.
Proof.
  apply (level_loop cwd l s0 _ (fun n es => del_ent n es)
           (fun n es => get_ent n es <> None)).
  - intros n es' s' Hat Hn; step.
    apply (remove_asset_at_level cwd l s0 meta_outside push_clean);
      [reflexivity | exact Hat | exact Hn].
  - intros n m es' Hnm Hn; rewrite get_del_other; auto.
Qed.

Lemma push_copy_loop (h : handler) (names : list string) (es : entries)
    (s : state) :
  NoDup names -> (forall n, In n names -> pushable re n es) ->
  at_level cwd l s0 es s ->
  exists s',
    foreach names (fun name =>
      record (Call h l r name) ;;
      copy_asset cwd push_clean (r ++ [name]) (l ++ [name])) s = (Ok tt, s') /\
    at_level cwd l s0 (fold_left (fun es n => pushed re n es) names es) s'.
Proof.
  apply (level_loop cwd l s0 _ (pushed re) (pushable re)).
  - intros n es' s' Hat (c & Hc & Hfree); step.
    unfold pushed; rewrite Hc.
    apply (copy_asset_at_level cwd l s0 meta_outside push_clean);
      [reflexivity | exact Hat | | | exact Hfree].
    + rewrite <- Hc; apply (local_entry n es'); exact Hat.
    + apply (apart_below_both r l [n] [n]), apart_sym, roots_apart.
  - intros n m es' Hnm (c & Hc & Hfree); exists c; split; [exact Hc|].
    rewrite get_pushed_other by congruence; exact Hfree.
Qed.

End PushClean.

Section PushWalk.

Variable cwd : path.

Lemma prefix_below (p x q : path) :
  prefix p q = false -> prefix (p ++ x) q = false.
Proof.
  intro H; destruct (prefix (p ++ x) q) eqn:E; [|reflexivity].
  rewrite (prefix_trans _ _ _ (prefix_app p x) E) in H; discriminate.
Qed.

Lemma push_subdirs_loop (fuel : nat) (l r : path) (le re : entries) :
  push_walk_spec cwd fuel ->
  apart l r ->
  prefix l (relative cwd [".meta"]) = false ->
  forall names s,
    NoDup names ->
    (forall d, In d names ->
       exists le' re', get_ent d le = Some (Dir le') /\
                       get_ent d re = Some (Dir re') /\
                       height (Dir le') <= fuel) ->
    (forall d, In d names ->
       lookup (fs s) (l ++ [d]) = get_ent d le /\
       lookup (fs s) (r ++ [d]) = get_ent d re) ->
    isfile (fs s) (relative cwd [".meta"]) = false ->
    exists s',
      foreach names (fun name =>
        visit_dcmp cwd fuel push_clean (l ++ [name]) (r ++ [name])) s
      = (Ok tt, s') /\
      (forall q, (forall d, In d names -> apart (l ++ [d]) q) ->
                 lookup (fs s') q = lookup (fs s) q) /\
      (forall d le' re' q,
          In d names -> get_ent d le = Some (Dir le') ->
          get_ent d re = Some (Dir re') -> origin_only le' re' q ->
          lookup (fs s') (l ++ d :: q) = None) /\
      isfile (fs s') (relative cwd [".meta"]) = false.
Proof.
  intros IH Hlr Hmeta names; induction names as [|d names IHn];
    intros s Hnd Hdirs Hcur Hm; simpl.
  - exists s; repeat split; auto; contradiction.
  - inversion Hnd as [|? ? Hd Hnd']; subst.
    destruct (Hdirs d (or_introl eq_refl)) as (le' & re' & Gl & Gr & Hh).
    destruct (Hcur d (or_introl eq_refl)) as [Cl Cr].
    rewrite Gl in Cl; rewrite Gr in Cr.
    destruct (IH (l ++ [d]) (r ++ [d]) le' re' s Cl Cr
                (apart_below_both l r [d] [d] Hlr) Hm
                (prefix_below l [d] _ Hmeta) Hh)
      as (s1 & E1 & F1 & O1 & M1).
    assert (Hsib : forall d' x, In d' names -> apart (l ++ [d]) (l ++ d' :: x)).
    { intros d' x Hd'; apply (apart_siblings l [] x d d').
      intros ->; contradiction. }
    destruct (IHn s1 Hnd') as (s2 & E2 & F2 & O2 & M2).
    + intros d' Hd'; apply Hdirs; right; exact Hd'.
    + intros d' Hd'; destruct (Hcur d' (or_intror Hd')) as [Cl' Cr'].
      rewrite <- Cl', <- Cr'; split; apply F1.
      * apply (Hsib d' []); exact Hd'.
      * apply (apart_below_both l r [d] [d']); exact Hlr.
    + exact M1.
    + exists s2; split; [erewrite bind_ok by exact E1; exact E2|].
      split; [|split; [|exact M2]].
      * intros q Hq.
        rewrite F2 by (intros d' Hd'; apply Hq; right; exact Hd').
        apply F1, Hq; left; reflexivity.
      * intros d' le'' re'' q [<-|Hd'] Gl' Gr' Hq.
        -- rewrite F2.
           ++ rewrite Gl in Gl'; rewrite Gr in Gr'.
              injection Gl' as <-; injection Gr' as <-.
              specialize (O1 q Hq); rewrite <- app_assoc in O1; exact O1.
           ++ intros d'' Hd''; apply (apart_siblings l [] q d'' d).
              intros ->; contradiction.
        -- exact (O2 d' le'' re'' q Hd' Gl' Gr' Hq).
Qed.

Lemma classify_file (t : node) (l r : path) (x : string) :
  is_file_class (classify t l r x) = true ->
  (exists m d, lookup t (l ++ [x]) = Some (File m d)) /\
  (exists m d, lookup t (r ++ [x]) = Some (File m d)).
Proof.
  unfold classify.
  destruct (lookup t (l ++ [x])) as [[m d|es]|];
    destruct (lookup t (r ++ [x])) as [[m' d'|es']|]; simpl;
    try discriminate.
  intros _; split; eexists; eexists; reflexivity.
Qed.

Lemma phase1_listing (le re : entries) :
  let '(common, lo, ro) := phase1 (listing le) (listing re) in
  (forall n, In n common <->
             get_ent n le <> None /\ get_ent n re <> None /\
             ignored n = false) /\
  (forall n, In n lo <->
             get_ent n le <> None /\ get_ent n re = None /\
             ignored n = false) /\
  (forall n, In n ro <->
             get_ent n re <> None /\ get_ent n le = None /\
             ignored n = false) /\
  NoDup common /\ NoDup lo /\ NoDup ro.
Proof.
  unfold phase1.
  assert (M : forall n es, mem n (listing es) = true <->
                           get_ent n es <> None /\ ignored n = false)
    by (intros; rewrite mem_In; apply In_listing).
  assert (N : forall n es, negb (mem n (listing es)) = true <->
                           ~ (get_ent n es <> None /\ ignored n = false)).
  { intros n es; rewrite negb_true_iff, <- M.
    destruct (mem n (listing es)); split; congruence. }
  split; [|split; [|split; [|repeat split; apply NoDup_filter, NoDup_listing]]];
    intro n; rewrite filter_In, In_listing.
  - rewrite M; tauto.
  - rewrite N; destruct (get_ent n re); intuition congruence.
  - rewrite N; destruct (get_ent n le); intuition congruence.
Qed.

Lemma push_walk_holds : forall fuel, push_walk_spec cwd fuel.
Proof.
  induction fuel as [|fuel IH]; intros l r le re s Hl Hr Hlr Hm Hmeta Hh.
  { simpl in Hh; lia. }
  cbn [visit_dcmp].
  erewrite bind_ok by (apply phase0_dirs; eassumption).
  cbn [fst snd].
  pose proof (phase1_listing le re) as P1.
  destruct (phase1 (listing le) (listing re)) as [[common lo] ro].
  destruct P1 as (Hco & Hlo & Hro & Nco & Nlo & Nro).
  assert (A0 : at_level cwd l s le s)
    by (repeat split; auto).
  (* the origin-only names are removed *)
  destruct (push_remove_loop cwd l r s Hmeta lo le s Nlo) as (s1 & E1 & A1);
    [intros n Hn; apply Hlo in Hn; tauto | exact A0 |].
  erewrite bind_ok by exact E1.
  set (es1 := fold_left (fun es n => del_ent n es) lo le) in *.
  assert (G1 : forall n, ~ In n lo -> get_ent n es1 = get_ent n le).
  { intros n Hn; apply (get_fold_other (fun n es => del_ent n es)); [|exact Hn].
    intros; apply get_del_other; assumption. }
  (* the local-only names are copied *)
  destruct (push_copy_loop cwd l r re s Hmeta Hlr Hr HRightOnly ro es1 s1 Nro)
    as (s2 & E2 & A2); [| exact A1 |].
  { intros n Hn; apply Hro in Hn; destruct Hn as (Hn1 & Hn2 & Hn3).
    assert (Hfree : get_ent n es1 = None).
    { rewrite G1; [exact Hn2|]; intro H; apply Hlo in H; tauto. }
    destruct (get_ent n re) as [c|] eqn:Ec; [|congruence].
    exists c; split; [exact Ec|].
    destruct c; [intros es'; rewrite Hfree; discriminate | exact Hfree]. }
  erewrite bind_ok by exact E2.
  set (es2 := fold_left (fun es n => pushed re n es) ro es1) in *.
  assert (G2 : forall n, ~ In n ro -> get_ent n es2 = get_ent n es1).
  { intros n Hn; apply (get_fold_other (pushed re)); [|exact Hn].
    intros; apply get_pushed_other; assumption. }
  step.
  assert (L2 : forall n, In n common ->
               lookup (fs s2) (l ++ [n]) = get_ent n le /\
               lookup (fs s2) (r ++ [n]) = get_ent n re).
  { intros n Hn; apply Hco in Hn; split.
    - rewrite (lookup_child _ _ n _ (proj1 A2)), G2, G1; [reflexivity | |];
        intro H; [apply Hlo in H | apply Hro in H]; tauto.
    - exact (local_entry cwd l r re s Hlr Hr n es2 s2 A2). }
  unfold phase2.
  set (cd := filter (fun x => is_dir_class (classify (fs s2) l r x)) common).
  set (cf := filter (fun x => is_file_class (classify (fs s2) l r x)) common).
  set (df := phase3 (fs s2) l r cf).
  assert (Hdf : forall n, In n df ->
                In n common /\ is_file_class (classify (fs s2) l r n) = true).
  { intros n Hn; unfold df, phase3 in Hn.
    apply filter_In in Hn; destruct Hn as [Hn _].
    apply filter_In in Hn; exact Hn. }
  (* the differing files are copied *)
  destruct (push_copy_loop cwd l r re s Hmeta Hlr Hr HDiff df es2 s2)
    as (s3 & E3 & A3); [| | exact A2 |].
  { apply NoDup_filter, NoDup_filter, Nco. }
  { intros n Hn; destruct (Hdf n Hn) as [Hc Hf].
    destruct (L2 n Hc) as [Ll Lr].
    apply classify_file in Hf; destruct Hf as [(m & d & Fl) (m' & d' & Fr)].
    exists (File m' d'); split; [congruence|].
    intros es' H.
    rewrite (lookup_child _ _ n _ (proj1 A2)) in Fl; congruence. }
  erewrite bind_ok by exact E3.
  set (es3 := fold_left (fun es n => pushed re n es) df es2) in *.
  assert (G3 : forall n, ~ In n df -> get_ent n es3 = get_ent n es2).
  { intros n Hn; apply (get_fold_other (pushed re)); [|exact Hn].
    intros; apply get_pushed_other; assumption. }
  step.
  (* the common directories are walked *)
  assert (Hcd : forall d, In d cd ->
                In d common /\
                exists le' re', get_ent d le = Some (Dir le') /\
                                get_ent d re = Some (Dir re')).
  { intros d Hd; apply filter_In in Hd; destruct Hd as [Hc Hd].
    split; [exact Hc|].
    destruct (L2 d Hc) as [Ll Lr].
    apply classify_dir in Hd; destruct Hd as [[le' Dl] [re' Dr]].
    exists le', re'; split; congruence. }
  assert (Ncd : forall d, In d cd -> ~ In d df).
  { intros d Hd Hd'; apply filter_In in Hd; destruct Hd as [_ Hd].
    destruct (Hdf d Hd') as [_ Hf].
    destruct (classify (fs s2) l r d); discriminate. }
  match goal with
  | |- context [foreach cd ?body ?s3'] =>
      destruct (push_subdirs_loop fuel l r le re IH Hlr Hmeta cd s3')
        as (s4 & E4 & F4 & O4 & M4)
  end.
  { apply NoDup_filter, Nco. }
  { intros d Hd; destruct (Hcd d Hd) as [_ (le' & re' & Gl & Gr)].
    exists le', re'; repeat split; try assumption.
    pose proof (height_get_ent _ _ _ Gl); lia. }
  { intros d Hd; destruct (Hcd d Hd) as [Hc _]; cbn [fs]; split.
    - rewrite (lookup_child _ _ d _ (proj1 A3)), G3, G2, G1;
        [reflexivity | | | exact (Ncd d Hd)];
        apply Hco in Hc; intro H; [apply Hlo in H | apply Hro in H]; tauto.
    - exact (local_entry cwd l r re s Hlr Hr d es3 s3 A3). }
  { exact (proj2 (proj2 A3)). }
  exists s4; split; [exact E4|]; cbn [fs] in *.
  split; [|split; [|exact M4]].
  - intros q Hq; rewrite F4 by (intros; apply apart_below; exact Hq).
    exact (proj1 (proj2 A3) q Hq).
  - intros q Hq; inversion Hq as [? ? n H1 H2 H3|? ? le' re' d q' H1 H2 H3 H4];
      subst.
    + assert (Hn : In n lo) by (apply Hlo; tauto).
      rewrite F4.
      * rewrite (lookup_child _ _ n _ (proj1 A3)), G3, G2.
        -- apply get_fold_del; exact Hn.
        -- intro H; apply Hro in H; tauto.
        -- intro H; destruct (Hdf n H) as [H' _]; apply Hco in H'; tauto.
      * intros d Hd; apply (apart_siblings l [] [] d n); intros ->.
        destruct (Hcd n Hd) as [H' _]; apply Hco in H'; tauto.
    + apply (O4 d le' re' q'); try assumption.
      assert (Hc : In d common)
        by (apply Hco; rewrite H1, H2; repeat split; try discriminate; assumption).
      apply filter_In; split; [exact Hc|].
      unfold classify; destruct (L2 d Hc) as [-> ->]; rewrite H1, H2.
      reflexivity.
Qed.

End PushWalk.

(** C7, as the code has it.  Take an asset pair whose origin and local
    folders are directories that lie apart, a working directory that is
    not the origin folder or below it and holds no file [.meta], and
    fuel that covers the height of the origin folder.  Then the step of a
    [push --clean] run for the pair (preview off) ends normally; every
    origin entry without a local counterpart that the walk meets (an
    entry under a name that [dircmp] lists, in a directory reached
    through directories common to both sides) is gone from the origin,
    and every path at or below the local folder holds what it held
    before. *)
Theorem push_clean_removes_origin_only
    (cwd : path) (fuel : nat) (origin local : path) (le re : entries)
    (s : state) :
  lookup (fs s) origin = Some (Dir le) ->
  lookup (fs s) local = Some (Dir re) ->
  apart origin local ->
  isfile (fs s) (cwd ++ [".meta"]) = false ->
  prefix origin (cwd ++ [".meta"]) = false ->
  height (Dir le) <= fuel ->
  let comparer := PushComparer true false in
  let run :=
    ok <- validate cwd comparer origin local ;;
    if negb ok then ret tt
    else visit_dcmp cwd fuel comparer origin local in
  fst (run s) = Ok tt /\
  (forall q, origin_only le re q ->
             lookup (fs (snd (run s))) (origin ++ q) = None) /\
  (forall q, lookup (fs (snd (run s))) (local ++ q) =
             lookup (fs s) (local ++ q)).
Proof.
  intros Hl Hr Hlr Hm Hmeta Hh comparer run; subst comparer run.
  assert (V : validate cwd (PushComparer true false) origin local s =
              (Ok true, s)).
  { unfold validate; step; unfold isdir; rewrite Hr; cbn [negb].
    step; rewrite Hl; reflexivity. }
  erewrite bind_ok by exact V; cbn [negb].
  destruct (push_walk_holds cwd fuel origin local le re s Hl Hr Hlr Hm Hmeta Hh)
    as (s' & E & F & O & _).
  unfold push_clean in E; rewrite E; cbn [fst snd].
  split; [reflexivity|]; split; [exact O|].
  intro q; apply F, apart_sym, apart_below, apart_sym, Hlr.
Qed.

Lemma push_clean_witness :
  let run :=
    ok <- validate sample_cwd (PushComparer true false) origin_w local_w ;;
    if negb ok then ret tt
    else visit_dcmp sample_cwd 3 (PushComparer true false) origin_w local_w
  in
  lookup (fs (snd (run (start tags_tree)))) (origin_w ++ ["old"]) = None.
Proof.
  refine (proj1 (proj2
    (push_clean_removes_origin_only sample_cwd 3 origin_w local_w
       [("a", File 1 "x"); ("tags", File 1 "t"); ("old", File 1 "gone")]
       [("a", File 1 "x")] (start tags_tree) _ _ _ _ _ _)) ["old"] _).
  - reflexivity.
  - reflexivity.
  - split; reflexivity.
  - reflexivity.
  - reflexivity.
  - simpl; lia.
  - apply origin_only_here; [discriminate | reflexivity | reflexivity].
Defined.

(** ** What a system call leaves in place *)

Lemma kind_at_cons (n : string) (q : path) (es : entries) :
  kind_at (Dir es) (n :: q) =
  match get_ent n es with Some c => kind_at c q | None => None end.
Proof. unfold kind_at; simpl; destruct (get_ent n es); reflexivity. Qed.

Lemma eqb_neq_false (n m : string) : n <> m -> String.eqb n m = false.
Proof. intro H; apply String.eqb_neq; exact H. Qed.

(** [store] keeps the kind of every existing entry outside the stored
    path. *)
Lemma kind_store (p q : path) (v : node) (t t' : node) (k : bool) :
  store p v t = Some t' -> prefix p q = false ->
  kind_at t q = Some k -> kind_at t' q = Some k.
Proof.
  revert q t t'; induction p as [|n p IH]; intros q t t' S A K.
  - discriminate.
  - simpl in S; destruct t as [m d|es]; [discriminate|].
    destruct q as [|a q].
    + destruct (get_ent n es) as [c|]; [destruct (store p v c)|];
        try discriminate; injection S as <-; exact K.
    + simpl in A; rewrite kind_at_cons in K.
      destruct (String.eqb n a) eqn:E.
      * apply String.eqb_eq in E; subst a; simpl in A.
        destruct (get_ent n es) as [c|] eqn:G; [|discriminate].
        destruct (store p v c) as [c'|] eqn:Sc; [|discriminate].
        injection S as <-; rewrite kind_at_cons, get_set_same.
        exact (IH q c c' Sc A K).
      * assert (Hna : n <> a)
          by (intros ->; rewrite String.eqb_refl in E; discriminate).
        destruct (get_ent n es) as [c|]; [destruct (store p v c)|];
          try discriminate; injection S as <-;
          rewrite kind_at_cons, get_set_other by exact Hna; exact K.
Qed.

(** [erase] keeps the kind of every existing entry outside the erased
    path. *)
Lemma kind_erase (p q : path) (t t' : node) (k : bool) :
  erase p t = Some t' -> prefix p q = false ->
  kind_at t q = Some k -> kind_at t' q = Some k.
Proof.
  revert q t t'; induction p as [|n p IH]; intros q t t' S A K.
  - discriminate.
  - simpl in S; destruct t as [m d|es]; [discriminate|].
    destruct q as [|a q].
    + destruct p; [|destruct (get_ent n es) as [c|];
                    [destruct (erase _ c)|]];
        try discriminate; injection S as <-; exact K.
    + simpl in A; rewrite kind_at_cons in K.
      destruct (String.eqb n a) eqn:E.
      * apply String.eqb_eq in E; subst a; simpl in A.
        destruct p as [|b p]; [destruct q; discriminate|].
        destruct (get_ent n es) as [c|] eqn:G; [|discriminate].
        destruct (erase (b :: p) c) as [c'|] eqn:Sc; [|discriminate].
        injection S as <-; rewrite kind_at_cons, get_set_same.
        exact (IH q c c' Sc A K).
      * assert (Hna : n <> a)
          by (intros ->; rewrite String.eqb_refl in E; discriminate).
        destruct p as [|b p].
        -- injection S as <-; rewrite kind_at_cons, get_del_other by exact Hna.
           exact K.
        -- destruct (get_ent n es) as [c|]; [destruct (erase (b :: p) c)|];
             try discriminate; injection S as <-.
           rewrite kind_at_cons, get_set_other by exact Hna; exact K.
Qed.

Lemma kind_copytree (src dst q : path) (t t' : node) (k : bool) :
  copytree src dst t = inr t' -> prefix dst q = false ->
  kind_at t q = Some k -> kind_at t' q = Some k.
Proof.
  unfold copytree; intros C A K.
  destruct (lookup t src) as [[m d|es]|]; try discriminate.
  destruct (exists_ t dst); [discriminate|].
  destruct (store dst (Dir es) t) as [t1|] eqn:S; [|discriminate].
  destruct (copies_into_itself t src dst); [discriminate|].
  injection C as <-; exact (kind_store _ _ _ _ _ _ S A K).
Qed.

Lemma prefix_longer (p : path) (n : string) : prefix (p ++ [n]) p = false.
Proof.
  induction p as [|a p IH]; simpl; [reflexivity|].
  rewrite String.eqb_refl; exact IH.
Qed.

(** [copy2] keeps the kind of every existing entry outside the
    destination, and of the destination itself. *)
Lemma kind_copy2 (src dst q : path) (t t' : node) (k : bool) :
  copy2 src dst t = inr t' -> prefix dst q = false \/ q = dst ->
  kind_at t q = Some k -> kind_at t' q = Some k.
Proof.
  unfold copy2; intros C A K.
  destruct (isdir t dst) eqn:D.
  - destruct (exists_ t src && path_eqb src (dst ++ [basename src]));
      [discriminate|].
    destruct (lookup t src) as [[m d|es]|]; try discriminate.
    destruct (lookup t (dst ++ [basename src])) as [[m' d'|es']|];
      try discriminate;
      destruct (lookup t (parent (dst ++ [basename src]))) as [[m'' d''|es'']|];
      try discriminate;
      destruct (store _ _ t) as [t1|] eqn:S; try discriminate;
      injection C as <-; apply (kind_store _ _ _ _ _ _ S); try exact K;
      (destruct A as [A| ->]; [apply prefix_below, A | apply prefix_longer]).
  - destruct (exists_ t src && path_eqb src dst); [discriminate|].
    destruct (lookup t src) as [[m d|es]|]; try discriminate.
    destruct A as [A| ->].
    + destruct (lookup t dst) as [[m' d'|es']|]; try discriminate;
        destruct (lookup t (parent dst)) as [[m'' d''|es'']|];
        try discriminate;
        destruct (store dst _ t) as [t1|] eqn:S; try discriminate;
        injection C as <-; exact (kind_store _ _ _ _ _ _ S A K).
    + unfold kind_at in K; unfold isdir in D.
      destruct (lookup t dst) as [[m' d'|es']|] eqn:L; try discriminate.
      destruct (lookup t (parent dst)) as [[m'' d''|es'']|];
        try discriminate.
      destruct (store dst _ t) as [t1|] eqn:S; try discriminate.
      injection C as <-; injection K as <-.
      unfold kind_at; rewrite (lookup_replace_same _ _ _ _ _ L S).
      reflexivity.
Qed.

Lemma kind_rmtree (p q : path) (t t' : node) (k : bool) :
  rmtree p t = inr t' -> prefix p q = false ->
  kind_at t q = Some k -> kind_at t' q = Some k.
Proof.
  unfold rmtree; intros C A K.
  destruct (lookup t p) as [[m d|es]|]; try discriminate.
  destruct (erase p t) as [t1|] eqn:S; [|discriminate].
  injection C as <-; exact (kind_erase _ _ _ _ _ S A K).
Qed.

Lemma kind_os_remove (p q : path) (t t' : node) (k : bool) :
  os_remove p t = inr t' -> prefix p q = false ->
  kind_at t q = Some k -> kind_at t' q = Some k.
Proof.
  unfold os_remove; intros C A K.
  destruct (lookup t p) as [[m d|es]|]; try discriminate.
  destruct (erase p t) as [t1|] eqn:S; [|discriminate].
  injection C as <-; exact (kind_erase _ _ _ _ _ S A K).
Qed.

Lemma keeps_kind_same_fs (q : path) (k : bool) {A} (m : M A) :
  (forall s, fs (snd (m s)) = fs s) -> keeps_kind q k m.
Proof. intros H s K; rewrite H; exact K. Qed.

Lemma keeps_kind_bind (q : path) (k : bool) {A B} (m : M A) (f : A -> M B) :
  keeps_kind q k m -> (forall a, keeps_kind q k (f a)) ->
  keeps_kind q k (bind m f).
Proof.
  intros Hm Hf s K; unfold bind; specialize (Hm s K).
  destruct (m s) as [[a|e|] s1]; simpl in *; [apply Hf|..]; exact Hm.
Qed.

Lemma keeps_kind_foreach (q : path) (k : bool) {A} (xs : list A)
    (body : A -> M unit) :
  (forall x, In x xs -> keeps_kind q k (body x)) ->
  keeps_kind q k (foreach xs body).
Proof.
  induction xs as [|x xs IH]; intro Hb; simpl.
  - apply keeps_kind_same_fs; reflexivity.
  - apply keeps_kind_bind; [apply Hb; left; reflexivity|].
    intros _; apply IH; intros y Hy; apply Hb; right; exact Hy.
Qed.

Lemma keeps_kind_syscall (q : path) (k : bool) (f : node -> errno + node) :
  (forall t t', f t = inr t' -> kind_at t q = Some k ->
                kind_at t' q = Some k) ->
  keeps_kind q k (syscall f).
Proof.
  intros H s K; unfold syscall.
  destruct (f (fs s)) as [e|t] eqn:E; [exact K | exact (H _ _ E K)].
Qed.

Lemma keeps_kind_libcall (q : path) (k : bool) (f : node -> exn + node) :
  (forall t t', f t = inr t' -> kind_at t q = Some k ->
                kind_at t' q = Some k) ->
  keeps_kind q k (libcall f).
Proof.
  intros H s K; unfold libcall.
  destruct (f (fs s)) as [e|t] eqn:E; [exact K | exact (H _ _ E K)].
Qed.

Lemma add_suffix_child (p : path) (n suffix : string) :
  add_suffix (p ++ [n]) suffix = p ++ [(n ++ suffix)%string].
Proof. unfold add_suffix; rewrite parent_child, basename_child; reflexivity. Qed.

Lemma keeps_kind_copy_asset (cwd : path) (c : comparer) (src dest q : path)
    (k : bool) :
  prefix dest q = false ->
  prefix (add_suffix dest ".meta") q = false \/ q = add_suffix dest ".meta" ->
  keeps_kind q k (copy_asset cwd c src dest).
Proof.
  intros Hd Hm; unfold copy_asset.
  apply keeps_kind_bind; [apply keeps_kind_same_fs; reflexivity | intros _].
  destruct (preview c); [apply keeps_kind_same_fs; reflexivity|].
  apply keeps_kind_bind.
  - apply keeps_kind_bind; [apply keeps_kind_same_fs; reflexivity | intros d].
    destruct d; [apply keeps_kind_libcall | apply keeps_kind_syscall];
      intros t t' E K.
    + exact (kind_copytree _ _ _ _ _ _ E Hd K).
    + exact (kind_copy2 _ _ _ _ _ _ E (or_introl Hd) K).
  - intros _; cbv zeta.
    apply keeps_kind_bind; [apply keeps_kind_same_fs; reflexivity | intros f].
    destruct f; [|apply keeps_kind_same_fs; reflexivity].
    apply keeps_kind_syscall; intros t t' E K.
    exact (kind_copy2 _ _ _ _ _ _ E Hm K).
Qed.

Lemma keeps_kind_remove_asset (c : comparer) (p q : path) (k : bool) :
  prefix p q = false -> keeps_kind q k (remove_asset c p).
Proof.
  intros Hp; unfold remove_asset.
  apply keeps_kind_bind; [apply keeps_kind_same_fs; reflexivity | intros _].
  destruct (preview c); [apply keeps_kind_same_fs; reflexivity|].
  apply keeps_kind_bind; [apply keeps_kind_same_fs; reflexivity | intros d].
  destruct d; apply keeps_kind_syscall; intros t t' E K.
  - exact (kind_rmtree _ _ _ _ _ E Hp K).
  - exact (kind_os_remove _ _ _ _ _ E Hp K).
Qed.

Lemma beside_entry (l r : path) (m n : string) (x : path) :
  apart l r -> m <> n -> (x = l \/ x = r) -> beside l r m (x ++ [n]).
Proof.
  intros Hlr Hmn Hx root Hroot.
  assert (Same : forall a, prefix (x ++ [a]) (x ++ [n]) = String.eqb a n).
  { intro a; rewrite prefix_app_same; simpl; apply andb_true_r. }
  assert (Other : forall y a, apart y x -> prefix (y ++ [a]) (x ++ [n]) = false).
  { intros y a H; exact (proj1 (apart_below_both y x [a] [n] H)). }
  assert (Cases : root = x \/ apart root x).
  { destruct Hx as [-> | ->], Hroot as [-> | ->]; auto using apart_sym. }
  destruct Cases as [-> | Ha].
  - rewrite !Same; split; [apply eqb_neq_false, Hmn|].
    destruct (String.eqb (m ++ ".meta") n) eqn:E; [right | left; reflexivity].
    apply String.eqb_eq in E; subst n; reflexivity.
  - rewrite !(Other root) by exact Ha; auto.
Qed.

Lemma keeps_kind_one_sided (cwd : path) (c : comparer) (l r : path)
    (m : string) (q : path) (k : bool) :
  beside l r m q ->
  keeps_kind q k (left_only cwd c l r m) /\
  keeps_kind q k (right_only cwd c l r m).
Proof.
  intro H.
  destruct (H l (or_introl eq_refl)) as [Hl Hlm].
  destruct (H r (or_intror eq_refl)) as [Hr Hrm].
  rewrite <- add_suffix_child in Hlm, Hrm.
  destruct c as [|cl pv|cl pv]; unfold left_only, right_only; split;
    try (apply keeps_kind_same_fs; reflexivity);
    try (destruct cl; [|apply keeps_kind_same_fs; reflexivity]);
    first [ apply keeps_kind_copy_asset; assumption
          | apply keeps_kind_remove_asset; assumption ].
Qed.

(** ** A name that is a file on one side and a directory on the other *)

Lemma adds_refl (Q : event -> Prop) (s s' : state) :
  log s' = log s -> adds Q s s'.
Proof. intro H; exists []; rewrite app_nil_r; split; [exact H | constructor]. Qed.

Lemma adds_trans (Q : event -> Prop) (s1 s2 s3 : state) :
  adds Q s1 s2 -> adds Q s2 s3 -> adds Q s1 s3.
Proof.
  intros (n1 & E1 & F1) (n2 & E2 & F2); exists (n1 ++ n2); split.
  - rewrite E2, E1, app_assoc; reflexivity.
  - apply Forall_app; split; assumption.
Qed.

Lemma adds_emits (Q : event -> Prop) {A} (m : M A) (s : state) :
  emits Q m -> adds Q s (snd (m s)).
Proof. intro H; exact (H s). Qed.

Lemma adds_bind (Q : event -> Prop) {A B} (m : M A) (f : A -> M B)
    (s : state) :
  adds Q s (snd (m s)) ->
  (forall a s1, m s = (Ok a, s1) -> adds Q s1 (snd (f a s1))) ->
  adds Q s (snd (bind m f s)).
Proof.
  intros Hm Hf; unfold bind.
  destruct (m s) as [[a|e|] s1] eqn:E; simpl in *; try exact Hm.
  exact (adds_trans _ _ _ _ Hm (Hf a s1 eq_refl)).
Qed.

Lemma emits_below (cwd : path) (c : comparer) (fuel : nat) (l r : path) :
  emits (below l) (visit_dcmp cwd fuel c l r).
Proof.
  apply (emits_visit_dcmp cwd c (fun l _ => below l)).
  - intros; apply prefix_refl.
  - intros l0 r0 ll rl t; unfold phase1, phase2; apply prefix_refl.
  - intros l0 r0 n e H; exact (prefix_trans _ _ _ (prefix_app l0 [n]) H).
Qed.

Lemma quiet_about_call (l r : path) (n m : string) (h : handler) :
  m <> n -> quiet_about l n (Call h l r m).
Proof.
  intro H; split; [intros [_ E]; exact (H E) | apply prefix_longer].
Qed.

Lemma quiet_about_below (l : path) (n d : string) (e : event) :
  d <> n -> below (l ++ [d]) e -> quiet_about l n e.
Proof.
  intros Hdn B; unfold below in B.
  assert (P : prefix (l ++ [n]) (event_left e) = false).
  { destruct (prefix (l ++ [n]) (event_left e)) eqn:E; [|reflexivity].
    destruct (prefix_comparable _ _ _ E B) as [H|H];
      rewrite prefix_app_same in H; simpl in H;
      rewrite andb_true_r in H; apply String.eqb_eq in H; congruence. }
  split; [|exact P].
  destruct e as [h dir dir' name|d0]; [|exact I].
  intros [-> _]; simpl in B; rewrite prefix_longer in B; discriminate.
Qed.

Lemma phase0_inv (l r : path) (s s1 : state) (ll rl : list string) :
  phase0 l r s = (Ok (ll, rl), s1) ->
  s1 = s /\
  exists le re, lookup (fs s) l = Some (Dir le) /\
                lookup (fs s) r = Some (Dir re) /\
                ll = listing le /\ rl = listing re.
Proof.
  unfold phase0, bind, os_listdir, listdir, ret.
  destruct (lookup (fs s) l) as [[m d|le]|]; try discriminate.
  destruct (lookup (fs s) r) as [[m d|re]|]; try discriminate.
  intros [= <- <- <-]; split; [reflexivity|].
  exists le, re; repeat split.
Qed.

Lemma kind_at_child (t : node) (l : path) (n : string) (es : entries)
    (k : bool) :
  lookup t l = Some (Dir es) -> kind_at t (l ++ [n]) = Some k ->
  get_ent n es <> None.
Proof.
  intros H K; unfold kind_at in K; rewrite (lookup_child _ _ n _ H) in K.
  destruct (get_ent n es); [discriminate | discriminate].
Qed.

Lemma classify_mismatch (t : node) (l r : path) (n : string) (k : bool) :
  kind_at t (l ++ [n]) = Some k -> kind_at t (r ++ [n]) = Some (negb k) ->
  classify t l r n = CFunny.
Proof.
  unfold kind_at, classify.
  destruct (lookup t (l ++ [n])) as [[m d|es]|];
    destruct (lookup t (r ++ [n])) as [[m' d'|es']|];
    destruct k; simpl; congruence.
Qed.

Lemma mismatch_walk (cwd : path) (fuel : nat) (c : comparer) (l r : path)
    (n : string) (k : bool) (s : state) :
  apart l r ->
  kind_at (fs s) (l ++ [n]) = Some k ->
  kind_at (fs s) (r ++ [n]) = Some (negb k) ->
  adds (quiet_about l n) s (snd (visit_dcmp cwd fuel c l r s)).
Proof.
  intros Hlr Kl Kr; destruct fuel as [|fuel]; [apply adds_refl; reflexivity|].
  cbn [visit_dcmp].
  apply adds_bind; [apply adds_emits, emits_silent, silent_phase0|].
  intros [ll rl] s1 E0; apply phase0_inv in E0.
  destruct E0 as (-> & le & re & Hl & Hr & -> & ->); cbn [fst snd].
  pose proof (phase1_listing le re) as P1.
  destruct (phase1 (listing le) (listing re)) as [[common lo] ro].
  destruct P1 as (Hco & Hlo & Hro & _).
  pose proof (kind_at_child _ _ _ _ _ Hl Kl) as Gl.
  pose proof (kind_at_child _ _ _ _ _ Hr Kr) as Gr.
  assert (Nlo : forall m, In m lo -> m <> n)
    by (intros m Hm ->; apply Hlo in Hm; tauto).
  assert (Nro : forall m, In m ro -> m <> n)
    by (intros m Hm ->; apply Hro in Hm; tauto).
  set (one_sided := fun (h : handler) (f : string -> M unit) names =>
         foreach names (fun name => record (Call h l r name) ;; f name)).
  assert (Hev : forall h f names,
             (forall m, In m names -> m <> n) ->
             (forall m, silent (f m)) ->
             emits (quiet_about l n) (one_sided h f names)).
  { intros h f names Hn Hs; apply emits_foreach; intros m Hm.
    apply emits_bind; [apply emits_record, quiet_about_call, Hn, Hm|].
    intros _; apply emits_silent, Hs. }
  assert (Hkeep : forall h f names q k',
             (forall m, In m names -> keeps_kind q k' (f m)) ->
             keeps_kind q k' (one_sided h f names)).
  { intros h f names q k' Hf; apply keeps_kind_foreach; intros m Hm.
    apply keeps_kind_bind; [apply keeps_kind_same_fs; reflexivity|].
    intros _; apply Hf, Hm. }
  assert (Hside : forall m x, m <> n -> x = l \/ x = r ->
             forall k', keeps_kind (x ++ [n]) k' (left_only cwd c l r m) /\
                        keeps_kind (x ++ [n]) k' (right_only cwd c l r m)).
  { intros m x Hm Hx k'; apply keeps_kind_one_sided.
    apply beside_entry; assumption. }
  change (foreach lo _) with (one_sided HLeftOnly (left_only cwd c l r) lo).
  change (foreach ro _) with (one_sided HRightOnly (right_only cwd c l r) ro).
  apply adds_bind;
    [apply adds_emits, Hev; [exact Nlo | intro; apply silent_left_only]|].
  intros [] s1 E1.
  assert (Kl1 : kind_at (fs s1) (l ++ [n]) = Some k).
  { change s1 with (snd (Ok tt, s1)); rewrite <- E1.
    apply Hkeep; [|exact Kl].
    intros m Hm; apply (Hside m l); auto. }
  assert (Kr1 : kind_at (fs s1) (r ++ [n]) = Some (negb k)).
  { change s1 with (snd (Ok tt, s1)); rewrite <- E1.
    apply Hkeep; [|exact Kr].
    intros m Hm; apply (Hside m r); auto. }
  apply adds_bind;
    [apply adds_emits, Hev; [exact Nro | intro; apply silent_right_only]|].
  intros [] s2 E2.
  assert (Kl2 : kind_at (fs s2) (l ++ [n]) = Some k).
  { change s2 with (snd (Ok tt, s2)); rewrite <- E2.
    apply Hkeep; [|exact Kl1].
    intros m Hm; apply (Hside m l); auto. }
  assert (Kr2 : kind_at (fs s2) (r ++ [n]) = Some (negb k)).
  { change s2 with (snd (Ok tt, s2)); rewrite <- E2.
    apply Hkeep; [|exact Kr1].
    intros m Hm; apply (Hside m r); auto. }
  apply adds_bind; [apply adds_emits, emits_silent; auto with silent|].
  intros t s3 E3; injection E3 as <- <-.
  pose proof (classify_mismatch _ _ _ _ _ Kl2 Kr2) as Hfunny.
  unfold phase2.
  apply adds_emits.
  apply emits_bind; [|intros _; apply emits_bind].
  - apply Hev; [|intro; apply silent_diff].
    intros m Hm ->; unfold phase3 in Hm.
    apply filter_In in Hm; destruct Hm as [Hm _].
    apply filter_In in Hm; destruct Hm as [_ Hm].
    rewrite Hfunny in Hm; discriminate.
  - apply emits_record; split; [exact I | apply prefix_longer].
  - intros _; apply emits_foreach; intros d Hd.
    apply (emits_weaken (below (l ++ [d]))); [|apply emits_below].
    intro e; apply quiet_about_below; intros ->.
    apply filter_In in Hd; destruct Hd as [_ Hd].
    rewrite Hfunny in Hd; discriminate.
Qed.

(** C3, as the code has it.  Let the two roots of a walk lie apart and
    let [name] be a regular file under one of them and a directory under
    the other.  Then, whatever the policy, the walk calls no handler for
    [name] in this pair of directories ([diff] included), and nothing is
    compared or handled at or below [left/name]: [dircmp] files the name
    under [common_funny], which [visit_dcmp] does not read. *)
Theorem type_mismatch_reaches_no_handler
    (cwd : path) (fuel : nat) (comparer : comparer) (left right : path)
    (name : string) (s : state) :
  apart left right ->
  (isfile (fs s) (left ++ [name]) = true /\
   isdir (fs s) (right ++ [name]) = true) \/
  (isdir (fs s) (left ++ [name]) = true /\
   isfile (fs s) (right ++ [name]) = true) ->
  log s = [] ->
  let s' := snd (visit_dcmp cwd fuel comparer left right s) in
  (forall h, ~ In (Call h left right name) (log s')) /\
  (forall e, In e (log s') ->
             prefix (left ++ [name]) (event_left e) = false).
Proof.
  intros Hlr Hk Hlog s'.
  assert (K : exists k, kind_at (fs s) (left ++ [name]) = Some k /\
                        kind_at (fs s) (right ++ [name]) = Some (negb k)).
  { unfold isfile, isdir, kind_at in *.
    destruct (lookup (fs s) (left ++ [name])) as [[m d|es]|];
      destruct (lookup (fs s) (right ++ [name])) as [[m' d'|es']|];
      destruct Hk as [[H1 H2]|[H1 H2]]; try discriminate;
      [exists false | exists true]; split; reflexivity. }
  destruct K as (k & Kl & Kr).
  destruct (mismatch_walk cwd fuel comparer left right name k s Hlr Kl Kr)
    as (new & E & F).
  fold s' in E; rewrite Hlog in E; simpl in E.
  rewrite E; split.
  - intros h Hin.
    destruct (proj1 (Forall_forall _ _) F _ Hin) as [H _]; apply H; auto.
  - intros e Hin; exact (proj2 (proj1 (Forall_forall _ _) F _ Hin)).
Qed.

Lemma type_mismatch_witness :
  let s' := snd (visit_dcmp sample_cwd 3 (PullComparer true false)
                   origin_w local_w (start mismatch_tree)) in
  (forall h, ~ In (Call h origin_w local_w "x") (log s')) /\
  (forall e, In e (log s') ->
             prefix (origin_w ++ ["x"]) (event_left e) = false).
Proof.
  apply (type_mismatch_reaches_no_handler sample_cwd 3
           (PullComparer true false) origin_w local_w "x"
           (start mismatch_tree)).
  - split; reflexivity.
  - left; split; reflexivity.
  - reflexivity.
Defined.

(** ** Pulling twice *)

Lemma files_equal_refl (m : nat) (d : string) :
  files_equal (File m d) (File m d) = true.
Proof. simpl; rewrite !Nat.eqb_refl; reflexivity. Qed.

Lemma cmp_files (t : node) (f1 f2 : path) (a b : node) :
  lookup t f1 = Some a -> lookup t f2 = Some b ->
  cmp t f1 f2 = Some (files_equal a b).
Proof.
  intros H1 H2; unfold cmp, files_equal; rewrite H1, H2.
  destruct a as [m1 d1|ea], b as [m2 d2|eb]; try reflexivity.
  destruct (Nat.eqb (String.length d1) (String.length d2) && Nat.eqb m1 m2);
    [reflexivity|].
  destruct (negb (Nat.eqb (String.length d1) (String.length d2)));
    reflexivity.
Qed.

Lemma mirrors_refl_bounded (h : nat) :
  forall c, height c <= h -> mirrors c c.
Proof.
  induction h as [|h IH]; intros [m d|es] Hh.
  - apply mirrors_file, files_equal_refl.
  - simpl in Hh; lia.
  - apply mirrors_file, files_equal_refl.
  - apply mirrors_dir, mirrored_entries; intros n c _ Hc.
    exists c; split; [exact Hc|].
    apply IH; pose proof (height_get_ent _ _ _ Hc); lia.
Qed.

Lemma mirrors_refl (c : node) : mirrors c c.
Proof. exact (mirrors_refl_bounded (height c) c (le_n _)). Qed.

Lemma get_fold_pushed (se : entries) (n : string) (c : node)
    (names : list string) (es : entries) :
  In n names -> get_ent n se = Some c ->
  get_ent n (fold_left (fun es n => pushed se n es) names es) = Some c.
Proof.
  intros Hin Hc; revert es Hin; induction names as [|m names IH];
    intros es Hin; simpl.
  - contradiction.
  - destruct (in_dec string_dec n names) as [H|H]; [apply IH; exact H|].
    destruct Hin as [->|Hin]; [|contradiction].
    rewrite (get_fold_other (pushed se));
      [| intros; apply get_pushed_other; assumption | exact H].
    unfold pushed; rewrite Hc; apply get_set_same.
Qed.

Section PullLevel.

Variable cwd : path.
Variables l r : path.
Variable le : entries.
Variable s0 : state.

Hypothesis meta_outside : prefix r (relative cwd [".meta"]) = false.
Hypothesis roots_apart : apart l r.
Hypothesis origin_dir : lookup (fs s0) l = Some (Dir le).

Lemma origin_entry (n : string) (es : entries) (s : state) :
  at_level cwd r s0 es s -> lookup (fs s) (l ++ [n]) = get_ent n le.
Proof.
  intros (_ & Hf & _).
  rewrite Hf; [apply lookup_child; exact origin_dir|].
  apply apart_sym, apart_below, roots_apart.
Qed.

Lemma pull_copy_loop (h : handler) (names : list string) (es : entries)
    (s : state) :
  NoDup names -> (forall n, In n names -> pushable le n es) ->
  at_level cwd r s0 es s ->
  exists s',
    foreach names (fun name =>
      record (Call h l r name) ;;
      copy_asset cwd pull_plain (l ++ [name]) (r ++ [name])) s = (Ok tt, s') /\
    at_level cwd r s0 (fold_left (fun es n => pushed le n es) names es) s'.
Proof.
  apply (level_loop cwd r s0 _ (pushed le) (pushable le)).
  - intros n es' s' Hat (c & Hc & Hfree); step.
    unfold pushed; rewrite Hc.
    apply (copy_asset_at_level cwd r s0 meta_outside pull_plain);
      [reflexivity | exact Hat | | | exact Hfree].
    + rewrite <- Hc; apply (origin_entry n es'); exact Hat.
    + apply (apart_below_both l r [n] [n]), roots_apart.
  - intros n m es' Hnm (c & Hc & Hfree); exists c; split; [exact Hc|].
    rewrite get_pushed_other by congruence; exact Hfree.
Qed.

Lemma pull_skip_loop (names : list string) (es : entries) (s : state) :
  at_level cwd r s0 es s ->
  exists s',
    foreach names (fun name =>
      record (Call HRightOnly l r name) ;;
      right_only cwd pull_plain l r name) s = (Ok tt, s') /\
    at_level cwd r s0 es s'.
Proof.
  revert s; induction names as [|n names IH]; intros s Hat; simpl.
  - exists s; split; [reflexivity | exact Hat].
  - destruct (IH (mkState (fs s) (out s) (log s ++ [Call HRightOnly l r n])))
      as (s' & E & Hat'); [exact Hat|].
    exists s'; split; [|exact Hat'].
    erewrite bind_ok by reflexivity; exact E.
Qed.

End PullLevel.

Section PullWalk.

Variable cwd : path.

Lemma pull_subdirs_loop (fuel : nat) (l r : path) (le : entries) :
  pull_walk_spec cwd fuel ->
  apart l r ->
  prefix r (relative cwd [".meta"]) = false ->
  forall names s,
    NoDup names ->
    (forall d, In d names ->
       exists le' re', get_ent d le = Some (Dir le') /\
                       lookup (fs s) (r ++ [d]) = Some (Dir re') /\
                       height (Dir le') <= fuel) ->
    (forall d, In d names -> lookup (fs s) (l ++ [d]) = get_ent d le) ->
    isfile (fs s) (relative cwd [".meta"]) = false ->
    exists s',
      foreach names (fun name =>
        visit_dcmp cwd fuel pull_plain (l ++ [name]) (r ++ [name])) s
      = (Ok tt, s') /\
      (forall q, (forall d, In d names -> apart (r ++ [d]) q) ->
                 lookup (fs s') q = lookup (fs s) q) /\
      (forall d le', In d names -> get_ent d le = Some (Dir le') ->
          exists re'', lookup (fs s') (r ++ [d]) = Some (Dir re'') /\
                       mirrored le' re'') /\
      isfile (fs s') (relative cwd [".meta"]) = false.
Proof.
  intros IH Hlr Hmeta names; induction names as [|d names IHn];
    intros s Hnd Hdirs Hcur Hm; simpl.
  - exists s; repeat split; auto; contradiction.
  - inversion Hnd as [|? ? Hd Hnd']; subst.
    destruct (Hdirs d (or_introl eq_refl)) as (le' & re' & Gl & Cr & Hh).
    pose proof (Hcur d (or_introl eq_refl)) as Cl; rewrite Gl in Cl.
    destruct (IH (l ++ [d]) (r ++ [d]) le' re' s Cl Cr
                (apart_below_both l r [d] [d] Hlr) Hm
                (prefix_below r [d] _ Hmeta) Hh)
      as (s1 & re1 & E1 & F1 & R1 & Mi1 & M1).
    assert (Hsib : forall d' x, In d' names -> apart (r ++ [d]) (r ++ d' :: x)).
    { intros d' x Hd'; apply (apart_siblings r [] x d d').
      intros ->; contradiction. }
    destruct (IHn s1 Hnd') as (s2 & E2 & F2 & O2 & M2).
    + intros d' Hd'.
      destruct (Hdirs d' (or_intror Hd')) as (le2 & re2 & G2 & C2 & H2).
      exists le2, re2; repeat split; try assumption.
      rewrite F1; [exact C2 | apply (Hsib d' []); exact Hd'].
    + intros d' Hd'; rewrite F1; [apply Hcur; right; exact Hd'|].
      apply (apart_below_both r l [d] [d']), apart_sym, Hlr.
    + exact M1.
    + exists s2; split; [erewrite bind_ok by exact E1; exact E2|].
      split; [|split; [|exact M2]].
      * intros q Hq.
        rewrite F2 by (intros d' Hd'; apply Hq; right; exact Hd').
        apply F1, Hq; left; reflexivity.
      * intros d' le'' [<-|Hd'] Gl'.
        -- exists re1; rewrite F2.
           ++ rewrite Gl in Gl'; injection Gl' as <-; split; assumption.
           ++ intros d'' Hd''; apply (apart_siblings r [] [] d'' d).
              intros ->; contradiction.
        -- exact (O2 d' le'' Hd' Gl').
Qed.

Lemma lookup_parent_dir (t : node) (p : path) (n : string) (c : node) :
  lookup t (p ++ [n]) = Some c -> exists es, lookup t p = Some (Dir es).
Proof.
  rewrite lookup_app; destruct (lookup t p) as [[m d|es]|]; simpl;
    try discriminate.
  intros _; exists es; reflexivity.
Qed.

Lemma empty_or_In (names : list string) :
  (forall d, ~ In d names) \/ exists d, In d names.
Proof.
  destruct names as [|d names]; [left; intros d [] | right; exists d; left; reflexivity].
Qed.

Lemma pull_walk_holds : forall fuel, pull_walk_spec cwd fuel.
Proof.
  induction fuel as [|fuel IH]; intros l r le re s Hl Hr Hlr Hm Hmeta Hh.
  { simpl in Hh; lia. }
  cbn [visit_dcmp].
  erewrite bind_ok by (apply phase0_dirs; eassumption).
  cbn [fst snd].
  pose proof (phase1_listing le re) as P1.
  destruct (phase1 (listing le) (listing re)) as [[common lo] ro].
  destruct P1 as (Hco & Hlo & Hro & Nco & Nlo & Nro).
  assert (A0 : at_level cwd r s re s) by (repeat split; auto).
  (* the origin-only names are copied *)
  destruct (pull_copy_loop cwd l r le s Hmeta Hlr Hl HLeftOnly lo re s Nlo)
    as (s1 & E1 & A1); [| exact A0 |].
  { intros n Hn; apply Hlo in Hn; destruct Hn as (Hn1 & Hn2 & Hn3).
    destruct (get_ent n le) as [c|] eqn:Ec; [|congruence].
    exists c; split; [exact Ec|].
    destruct c; [intros es'; rewrite Hn2; discriminate | exact Hn2]. }
  erewrite bind_ok by exact E1.
  set (es1 := fold_left (fun es n => pushed le n es) lo re) in *.
  assert (G1 : forall n, ~ In n lo -> get_ent n es1 = get_ent n re).
  { intros n Hn; apply (get_fold_other (pushed le)); [|exact Hn].
    intros; apply get_pushed_other; assumption. }
  (* the local-only names stay *)
  destruct (pull_skip_loop cwd l r s ro es1 s1 A1) as (s2 & E2 & A2).
  erewrite bind_ok by exact E2.
  step.
  assert (L2 : forall n, ~ In n lo ->
               lookup (fs s2) (l ++ [n]) = get_ent n le /\
               lookup (fs s2) (r ++ [n]) = get_ent n re).
  { intros n Hn; split.
    - exact (origin_entry cwd l r le s Hlr Hl n es1 s2 A2).
    - rewrite (lookup_child _ _ n _ (proj1 A2)); apply G1, Hn. }
  assert (Nco_lo : forall n, In n common -> ~ In n lo).
  { intros n Hn H; apply Hco in Hn; apply Hlo in H; tauto. }
  unfold phase2.
  set (cd := filter (fun x => is_dir_class (classify (fs s2) l r x)) common).
  set (cf := filter (fun x => is_file_class (classify (fs s2) l r x)) common).
  set (df := phase3 (fs s2) l r cf).
  assert (Hdf : forall n, In n df ->
                In n common /\ is_file_class (classify (fs s2) l r n) = true).
  { intros n Hn; unfold df, phase3 in Hn.
    apply filter_In in Hn; destruct Hn as [Hn _].
    apply filter_In in Hn; exact Hn. }
  (* the differing files are copied *)
  destruct (pull_copy_loop cwd l r le s Hmeta Hlr Hl HDiff df es1 s2)
    as (s3 & E3 & A3); [| | exact A2 |].
  { apply NoDup_filter, NoDup_filter, Nco. }
  { intros n Hn; destruct (Hdf n Hn) as [Hc Hf].
    destruct (L2 n (Nco_lo n Hc)) as [Ll Lr].
    apply classify_file in Hf; destruct Hf as [(m & d & Fl) (m' & d' & Fr)].
    exists (File m d); split; [congruence|].
    intros es' H.
    rewrite (lookup_child _ _ n _ (proj1 A2)) in Fr; congruence. }
  erewrite bind_ok by exact E3.
  set (es3 := fold_left (fun es n => pushed le n es) df es1) in *.
  assert (G3 : forall n, ~ In n df -> get_ent n es3 = get_ent n es1).
  { intros n Hn; apply (get_fold_other (pushed le)); [|exact Hn].
    intros; apply get_pushed_other; assumption. }
  step.
  (* the common directories are walked *)
  assert (Hcd : forall d, In d cd ->
                In d common /\
                exists le' re', get_ent d le = Some (Dir le') /\
                                get_ent d re = Some (Dir re')).
  { intros d Hd; apply filter_In in Hd; destruct Hd as [Hc Hd].
    split; [exact Hc|].
    destruct (L2 d (Nco_lo d Hc)) as [Ll Lr].
    apply classify_dir in Hd; destruct Hd as [[le' Dl] [re' Dr]].
    exists le', re'; split; congruence. }
  assert (Ncd : forall d, In d cd -> ~ In d df).
  { intros d Hd Hd'; apply filter_In in Hd; destruct Hd as [_ Hd].
    destruct (Hdf d Hd') as [_ Hf].
    destruct (classify (fs s2) l r d); discriminate. }
  match goal with
  | |- context [foreach cd ?body ?s3'] =>
      destruct (pull_subdirs_loop fuel l r le IH Hlr Hmeta cd s3')
        as (s4 & E4 & F4 & O4 & M4)
  end.
  { apply NoDup_filter, Nco. }
  { intros d Hd; destruct (Hcd d Hd) as [Hc (le' & re' & Gl & Gr)].
    exists le', re'; repeat split; try assumption; cbn [fs].
    - rewrite (lookup_child _ _ d _ (proj1 A3)), G3, G1;
        [exact Gr | exact (Nco_lo d Hc) | exact (Ncd d Hd)].
    - pose proof (height_get_ent _ _ _ Gl); lia. }
  { intros d Hd; cbn [fs].
    exact (origin_entry cwd l r le s Hlr Hl d es3 s3 A3). }
  { exact (proj2 (proj2 A3)). }
  cbn [fs] in *.
  assert (R4 : exists re4, lookup (fs s4) r = Some (Dir re4)).
  { destruct (empty_or_In cd) as [He|[d0 Hd0]].
    - exists es3; rewrite F4; [exact (proj1 A3)|].
      intros d Hd; destruct (He d Hd).
    - destruct (Hcd d0 Hd0) as [_ (le' & re' & Gl & _)].
      destruct (O4 d0 le' Hd0 Gl) as (re'' & R & _).
      exact (lookup_parent_dir _ _ _ _ R). }
  destruct R4 as [re4 R4].
  exists s4, re4; split; [exact E4|].
  split; [|split; [exact R4 | split; [|exact M4]]].
  - intros q Hq; rewrite F4 by (intros; apply apart_below; exact Hq).
    exact (proj1 (proj2 A3) q Hq).
  - apply mirrored_entries; intros n c Hign Hc.
    rewrite <- (lookup_child _ _ n _ R4).
    destruct (in_dec string_dec n cd) as [Hd|Hd].
    { destruct (Hcd n Hd) as [_ (le' & re' & Gl & _)].
      destruct (O4 n le' Hd Gl) as (re'' & R & Mi).
      exists (Dir re''); split; [exact R|].
      rewrite Hc in Gl; injection Gl as ->; apply mirrors_dir, Mi. }
    rewrite F4
      by (intros d Hd'; apply (apart_siblings r [] [] d n); intros ->;
          contradiction).
    rewrite (lookup_child _ _ n _ (proj1 A3)).
    destruct (in_dec string_dec n df) as [Hf|Hf].
    { exists c; split; [|apply mirrors_refl].
      apply get_fold_pushed; assumption. }
    rewrite G3 by exact Hf.
    destruct (in_dec string_dec n lo) as [Ho|Ho].
    { exists c; split; [|apply mirrors_refl].
      apply get_fold_pushed; assumption. }
    rewrite G1 by exact Ho.
    destruct (get_ent n re) as [c'|] eqn:Ec'.
    2:{ exfalso; apply Ho, Hlo; rewrite Hc; repeat split;
          [discriminate | assumption | assumption]. }
    exists c'; split; [reflexivity|].
    assert (Hcm : In n common).
    { apply Hco; rewrite Hc, Ec'; repeat split; try discriminate; assumption. }
    destruct (L2 n Ho) as [Ll Lr]; rewrite Hc in Ll; rewrite Ec' in Lr.
    destruct c as [m d|a], c' as [m' d'|b].
    + apply mirrors_file.
      destruct (files_equal (File m d) (File m' d')) eqn:Ef; [reflexivity|].
      exfalso; apply Hf; unfold df, phase3.
      apply filter_In; split.
      * apply filter_In; split; [exact Hcm|].
        unfold classify; rewrite Ll, Lr; reflexivity.
      * rewrite (cmp_files _ _ _ _ _ Ll Lr), Ef; reflexivity.
    + apply mirrors_file_dir.
    + apply mirrors_dir_file.
    + exfalso; apply Hd, filter_In; split; [exact Hcm|].
      unfold classify; rewrite Ll, Lr; reflexivity.
Qed.

End PullWalk.

Lemma still_bind (t0 : node) (Q : event -> Prop) {A B} (m : M A)
    (f : A -> M B) :
  still t0 Q m ->
  (forall a, (exists s s', fs s = t0 /\ m s = (Ok a, s')) ->
             still t0 Q (f a)) ->
  still t0 Q (bind m f).
Proof.
  intros Hm Hf s Hs; destruct (Hm s Hs) as [H1 H2].
  split.
  - unfold bind; destruct (m s) as [[a|e|] s1] eqn:E; simpl in *;
      try exact H1.
    apply (Hf a); [exists s, s1; auto | exact H1].
  - apply adds_bind; [exact H2|].
    intros a s1 E; rewrite E in H1.
    apply (Hf a); [exists s, s1; auto | exact H1].
Qed.

Lemma still_same (t0 : node) (Q : event -> Prop) {A} (m : M A) :
  (forall s, fs (snd (m s)) = fs s) -> silent m -> still t0 Q m.
Proof.
  intros Hfs Hsil s Hs; split; [rewrite Hfs; exact Hs|].
  apply adds_refl, silent_log, Hsil.
Qed.

Lemma still_record (t0 : node) (Q : event -> Prop) (e : event) :
  Q e -> still t0 Q (record e).
Proof.
  intros H s Hs; split; [exact Hs|].
  exists [e]; split; [reflexivity | repeat constructor; exact H].
Qed.

Lemma still_foreach (t0 : node) (Q : event -> Prop) {A} (xs : list A)
    (body : A -> M unit) :
  (forall x, In x xs -> still t0 Q (body x)) -> still t0 Q (foreach xs body).
Proof.
  induction xs as [|x xs IH]; intro Hb; simpl.
  - apply still_same; [reflexivity | apply silent_ret].
  - apply still_bind; [apply Hb; left; reflexivity|].
    intros _ _; apply IH; intros y Hy; apply Hb; right; exact Hy.
Qed.

(** Over a local directory that mirrors the origin, [pull] changes
    nothing and calls neither [left_only] nor [diff]. *)
Lemma mirrored_walk (cwd : path) (t0 : node) (fuel : nat) :
  forall l r le re,
    lookup t0 l = Some (Dir le) -> lookup t0 r = Some (Dir re) ->
    mirrored le re ->
    still t0 no_residue (visit_dcmp cwd fuel pull_plain l r).
Proof.
  induction fuel as [|fuel IH]; intros l r le re Hl Hr Hmi.
  { intros s Hs; split; [exact Hs | apply adds_refl; reflexivity]. }
  inversion Hmi as [? ? Hall]; subst.
  cbn [visit_dcmp].
  apply still_bind.
  { apply still_same; [apply plain_phase0 | apply silent_phase0]. }
  intros [ll rl] (s & s' & Hs & E0); apply phase0_inv in E0.
  destruct E0 as (_ & le' & re' & Hl' & Hr' & -> & ->).
  rewrite Hs, Hl in Hl'; rewrite Hs, Hr in Hr'.
  injection Hl' as <-; injection Hr' as <-; cbn [fst snd].
  pose proof (phase1_listing le re) as P1.
  destruct (phase1 (listing le) (listing re)) as [[common lo] ro].
  destruct P1 as (Hco & Hlo & Hro & _).
  apply still_bind.
  { apply still_foreach; intros n Hn; exfalso.
    apply Hlo in Hn; destruct Hn as (H1 & H2 & H3).
    destruct (get_ent n le) as [c|] eqn:Ec; [|congruence].
    destruct (Hall n c H3 Ec) as (c' & Hc' & _); congruence. }
  intros _ _; apply still_bind.
  { apply still_foreach; intros n _.
    apply still_bind; [apply still_record; exact I | intros _ _].
    apply still_same; [reflexivity | apply silent_ret]. }
  intros _ _; apply still_bind.
  { apply still_same; [reflexivity | apply silent_query]. }
  intros t (s1 & s1' & Hs1 & Eq); injection Eq as <- _; rewrite Hs1.
  unfold phase2.
  assert (L : forall n, lookup t0 (l ++ [n]) = get_ent n le /\
                        lookup t0 (r ++ [n]) = get_ent n re).
  { intro n; split; apply lookup_child; assumption. }
  apply still_bind.
  { apply still_foreach; intros n Hn; exfalso.
    unfold phase3 in Hn; apply filter_In in Hn; destruct Hn as [Hn Hcmp].
    apply filter_In in Hn; destruct Hn as [Hc Hf].
    apply Hco in Hc; destruct Hc as (_ & _ & Hign).
    apply classify_file in Hf; destruct Hf as [(m & d & Fl) (m' & d' & Fr)].
    rewrite (cmp_files _ _ _ _ _ Fl Fr) in Hcmp.
    destruct (L n) as [Ll Lr]; rewrite Fl in Ll; rewrite Fr in Lr.
    destruct (Hall n (File m d) Hign (eq_sym Ll)) as (c' & Hc' & Hm).
    rewrite <- Lr in Hc'; injection Hc' as <-.
    inversion Hm as [? ? ? ? He| | |]; subst.
    rewrite He in Hcmp; discriminate. }
  intros _ _; apply still_bind; [apply still_record; exact I|].
  intros _ _; apply still_foreach; intros d Hd.
  apply filter_In in Hd; destruct Hd as [Hc Hd].
  apply Hco in Hc; destruct Hc as (_ & _ & Hign).
  apply classify_dir in Hd; destruct Hd as [[a Da] [b Db]].
  destruct (L d) as [Ll Lr]; rewrite Da in Ll; rewrite Db in Lr.
  destruct (Hall d (Dir a) Hign (eq_sym Ll)) as (c' & Hc' & Hm).
  rewrite <- Lr in Hc'; injection Hc' as <-.
  inversion Hm as [|? ? Hab| |]; subst.
  exact (IH (l ++ [d]) (r ++ [d]) a b Da Db Hab).
Qed.

(** X1.  The idempotence of [pull] (C8) where the sidecar copy has nothing to
    copy.  Take an asset pair whose origin and local folders are
    directories that lie apart, a working directory that is not the
    local folder or below it and holds no file [.meta], and fuel that
    covers the height of the origin folder.  A [pull] step for the pair
    (no clean, no preview) ends normally; a second step on the file
    system it leaves calls neither [left_only] nor [diff] at any level
    and changes nothing. *)
Theorem pull_twice_leaves_no_residue
    (cwd : path) (fuel fuel' : nat) (origin local : path) (le re : entries)
    (s : state) :
  lookup (fs s) origin = Some (Dir le) ->
  lookup (fs s) local = Some (Dir re) ->
  apart origin local ->
  isfile (fs s) (cwd ++ [".meta"]) = false ->
  prefix local (cwd ++ [".meta"]) = false ->
  height (Dir le) <= fuel ->
  let comparer := PullComparer false false in
  let run := fun f =>
    ok <- validate cwd comparer origin local ;;
    if negb ok then ret tt
    else visit_dcmp cwd f comparer origin local in
  let s1 := snd (run fuel s) in
  let s2 := snd (run fuel' (start (fs s1))) in
  fst (run fuel s) = Ok tt /\
  (forall e, In e (log s2) -> no_residue e) /\
  fs s2 = fs s1.
Proof.
  intros Hl Hr Hlr Hm Hmeta Hh comparer run s1 s2; subst comparer.
  assert (V : forall f t o g es es',
             lookup t origin = Some (Dir es) ->
             lookup t local = Some (Dir es') ->
             run f (mkState t o g) =
             visit_dcmp cwd f (PullComparer false false) origin local
               (mkState t o g)).
  { intros f t o g es es' H1 H2; unfold run.
    assert (Vt : validate cwd (PullComparer false false) origin local
                   (mkState t o g) = (Ok true, mkState t o g)).
    { unfold validate; step; unfold isdir; rewrite H2; cbn [negb].
      step; rewrite H1; reflexivity. }
    erewrite bind_ok by exact Vt; reflexivity. }
  destruct (pull_walk_holds cwd fuel origin local le re s Hl Hr Hlr Hm Hmeta Hh)
    as (s' & re' & E & F & R & Mi & _).
  assert (E1 : run fuel s = (Ok tt, s')).
  { destruct s as [t o g]; rewrite (V fuel t o g le re Hl Hr); exact E. }
  assert (Hl1 : lookup (fs s') origin = Some (Dir le))
    by (rewrite F; [exact Hl | apply apart_sym, Hlr]).
  subst s2 s1; rewrite E1; cbn [fst snd]; split; [reflexivity|].
  unfold start; rewrite (V fuel' (fs s') [] [] le re' Hl1 R).
  destruct (mirrored_walk cwd (fs s') fuel' origin local le re' Hl1 R Mi
              (mkState (fs s') [] []) eq_refl) as [Hfs (new & En & Fn)].
  split; [|exact Hfs].
  intros e He; unfold pull_plain in En; rewrite En in He; simpl in He.
  exact (proj1 (Forall_forall _ _) Fn e He).
Qed.

Lemma pull_twice_witness :
  let comparer := PullComparer false false in
  let run := fun f =>
    ok <- validate sample_cwd comparer origin_w local_w ;;
    if negb ok then ret tt
    else visit_dcmp sample_cwd f comparer origin_w local_w in
  let s1 := snd (run 3 (start mixed_tree)) in
  fs (snd (run 3 (start (fs s1)))) = fs s1.
Proof.
  refine (proj2 (proj2
    (pull_twice_leaves_no_residue sample_cwd 3 3 origin_w local_w
       [("a", File 1 "x"); ("sub", Dir [("c", File 1 "y")])]
       [("b", File 1 "z"); ("sub", Dir [])] (start mixed_tree)
       _ _ _ _ _ _))).
  - reflexivity.
  - reflexivity.
  - split; reflexivity.
  - reflexivity.
  - reflexivity.
  - simpl; lia.
Defined.

(** ** [store] in general *)

Lemma lookup_chain (p : path) (v : node) : lookup (chain p v) p = Some v.
Proof.
  induction p as [|n p IH]; simpl; [reflexivity|].
  rewrite String.eqb_refl; exact IH.
Qed.

Lemma lookup_chain_apart (p q : path) (v : node) :
  apart p q -> lookup (chain p v) q = None.
Proof.
  revert q; induction p as [|n p IH]; intros q [A1 A2]; [discriminate|].
  destruct q as [|a q]; [discriminate|]; simpl in *.
  destruct (String.eqb a n) eqn:E; [|reflexivity].
  apply String.eqb_eq in E; subst a.
  rewrite ?String.eqb_refl in A1; rewrite ?String.eqb_refl in A2.
  apply IH; split; assumption.
Qed.

Lemma lookup_store_same (p : path) (v : node) (t t' : node) :
  store p v t = Some t' -> lookup t' p = Some v.
Proof.
  revert t t'; induction p as [|n p IH]; intros t t' S; simpl in *.
  - congruence.
  - destruct t as [m d|es]; [discriminate|].
    destruct (get_ent n es) as [c|].
    + destruct (store p v c) as [c'|] eqn:E; [|discriminate].
      injection S as <-; simpl; rewrite get_set_same; exact (IH _ _ E).
    + injection S as <-; simpl; rewrite get_set_same; apply lookup_chain.
Qed.

Lemma lookup_store_apart (p q : path) (v : node) (t t' : node) :
  store p v t = Some t' -> apart p q -> lookup t' q = lookup t q.
Proof.
  revert q t t'; induction p as [|n p IH]; intros q t t' S [A1 A2].
  - discriminate.
  - simpl in S; destruct t as [m d|es]; [discriminate|].
    destruct q as [|a q]; [discriminate|]; simpl in A1, A2.
    destruct (String.eqb n a) eqn:E.
    + apply String.eqb_eq in E; subst a.
      rewrite ?String.eqb_refl in A2; simpl in A1, A2.
      destruct (get_ent n es) as [c|] eqn:G.
      * destruct (store p v c) as [c'|] eqn:Sc; [|discriminate].
        injection S as <-; simpl; rewrite get_set_same, G.
        apply (IH q c c' Sc); split; assumption.
      * injection S as <-; simpl; rewrite get_set_same, G.
        apply lookup_chain_apart; split; assumption.
    + assert (Hna : n <> a)
        by (intros ->; rewrite String.eqb_refl in E; discriminate).
      destruct (get_ent n es) as [c|]; [destruct (store p v c)|];
        try discriminate; injection S as <-; simpl;
        rewrite get_set_other by exact Hna; reflexivity.
Qed.

Lemma isfile_chain (p q : path) (v : node) :
  prefix p q = false -> isfile (chain p v) q = false.
Proof.
  revert q; induction p as [|n p IH]; intros q A; [discriminate|].
  destruct q as [|a q]; [reflexivity|].
  unfold isfile; simpl in *.
  destruct (String.eqb a n) eqn:E; [|reflexivity].
  apply String.eqb_eq in E; subst a; rewrite String.eqb_refl in A.
  exact (IH q A).
Qed.

(** [store] makes no regular file outside the stored path, and keeps
    the ones that are there. *)
Lemma isfile_store (p q : path) (v : node) (t t' : node) :
  store p v t = Some t' -> prefix p q = false -> isfile t' q = isfile t q.
Proof.
  revert q t t'; induction p as [|n p IH]; intros q t t' S A.
  - discriminate.
  - simpl in S; destruct t as [m d|es]; [discriminate|].
    destruct q as [|a q].
    + destruct (get_ent n es) as [c|]; [destruct (store p v c)|];
        try discriminate; injection S as <-; reflexivity.
    + simpl in A; unfold isfile; simpl.
      destruct (String.eqb n a) eqn:E.
      * apply String.eqb_eq in E; subst a; simpl in A.
        destruct (get_ent n es) as [c|] eqn:G.
        -- destruct (store p v c) as [c'|] eqn:Sc; [|discriminate].
           injection S as <-; simpl; rewrite get_set_same.
           exact (IH q c c' Sc A).
        -- injection S as <-; simpl; rewrite get_set_same.
           exact (isfile_chain p q v A).
      * assert (Hna : n <> a)
          by (intros ->; rewrite String.eqb_refl in E; discriminate).
        destruct (get_ent n es) as [c|]; [destruct (store p v c)|];
          try discriminate; injection S as <-; simpl;
          rewrite get_set_other by exact Hna; reflexivity.
Qed.

(** [store] succeeds on a free path that meets no regular file. *)
Lemma store_free (p : path) (v : node) (t : node) :
  lookup t p = None -> missing_errno t p = ENOENT ->
  exists t', store p v t = Some t'.
Proof.
  revert t; induction p as [|n p IH]; intros t L E; simpl in *.
  - discriminate.
  - destruct t as [m d|es]; [discriminate|].
    destruct (get_ent n es) as [c|]; [|eexists; reflexivity].
    destruct (IH c L E) as [c' ->]; eexists; reflexivity.
Qed.

Lemma store_in_dir (p : path) (v : node) (t : node) (es : entries) :
  p <> [] -> lookup t (parent p) = Some (Dir es) ->
  exists t', store p v t = Some t'.
Proof.
  intros Hp L.
  destruct (exists_last Hp) as (l & n & ->).
  rewrite parent_child in L; rewrite (store_child _ _ _ _ _ L).
  exact (store_replace _ _ _ _ L).
Qed.

(** ** Finding and loading the manifest *)

Lemma prefix_snoc (a l : path) (x : string) :
  prefix a (l ++ [x]) = true -> a = l ++ [x] \/ prefix a l = true.
Proof.
  intro H; apply prefix_spec in H; destruct H as [y H].
  destruct (list_eq_dec string_dec y []) as [-> | Hy];
    [| destruct (exists_last Hy) as (y' & z & ->)].
  - left; rewrite app_nil_r in H; auto.
  - right; rewrite app_assoc in H; apply app_inj_tail in H.
    destruct H as [-> _]; apply prefix_app.
Qed.

Lemma prefix_nil_r (a : path) : prefix a [] = true -> a = [].
Proof. destruct a; [reflexivity | discriminate]. Qed.

(** The loop of [local_root] stops at the nearest directory, from
    [curdir] upwards, that holds the file. *)
Lemma local_root_from_spec (t : node) (d : string) (curdir : list string) :
  match local_root_from t curdir d with
  | Some root =>
      prefix root (rev curdir) = true /\
      isfile t (resolve root d) = true /\
      (forall dir, prefix dir (rev curdir) = true ->
         isfile t (resolve dir d) = true -> prefix dir root = true)
  | None =>
      forall dir, prefix dir (rev curdir) = true ->
        isfile t (resolve dir d) = false
  end.
Proof.
  induction curdir as [|x up IH]; cbn [local_root_from rev].
  - destruct (isfile t (resolve [] d)) eqn:E.
    + repeat split; auto.
    + intros dir Hd; apply prefix_nil_r in Hd; subst; exact E.
  - destruct (isfile t (resolve (rev up ++ [x]) d)) eqn:E.
    + repeat split; auto using prefix_refl.
    + destruct (local_root_from t up d) as [root|].
      * destruct IH as (P & F & N); repeat split; auto.
        -- apply prefix_spec in P; destruct P as [y ->].
           rewrite <- app_assoc; apply prefix_app.
        -- intros dir Hd Hf; apply prefix_snoc in Hd.
           destruct Hd as [-> | Hd]; [congruence | auto].
      * intros dir Hd; apply prefix_snoc in Hd.
        destruct Hd as [-> | Hd]; auto.
Qed.

(** X2.  [local_root] reads the file system and changes nothing.  It
    returns the nearest directory, from the working directory upwards,
    that holds a regular file under the name of the depend file: every
    other such directory on the way to the root lies above the one
    returned.  It returns [None] exactly when no directory on that way
    holds such a file. *)
Theorem local_root_finds_nearest (cwd : path) (dependfile : string)
    (s : state) :
  exists found,
    local_root cwd dependfile s = (Ok found, s) /\
    match found with
    | Some root =>
        prefix root cwd = true /\
        isfile (fs s) (resolve root dependfile) = true /\
        (forall dir, prefix dir cwd = true ->
           isfile (fs s) (resolve dir dependfile) = true ->
           prefix dir root = true)
    | None =>
        forall dir, prefix dir cwd = true ->
          isfile (fs s) (resolve dir dependfile) = false
    end.
Proof.
  exists (local_root_from (fs s) (rev cwd) dependfile); split; [reflexivity|].
  generalize (local_root_from_spec (fs s) dependfile (rev cwd)).
  rewrite rev_involutive; auto.
Qed.

Lemma read_file_isfile (p : path) (s : state) :
  isfile (fs s) p = true ->
  exists m data, lookup (fs s) p = Some (File m data) /\
                 read_file p s = (Ok data, s).
Proof.
  unfold isfile, read_file; destruct (lookup (fs s) p) as [[m data|]|];
    try discriminate; intros _; eauto.
Qed.

(** [load_conf] in terms of the directory that [local_root] finds. *)
Lemma load_conf_found (cwd : path) (json_load : string -> option json)
    (d : string) (s : state) (root : path) (m : nat) (data : string) :
  local_root_from (fs s) (rev cwd) d = Some root ->
  lookup (fs s) (resolve root d) = Some (File m data) ->
  load_conf cwd json_load d s =
  match json_load data with
  | Some conf => (Ok (Some conf), s)
  | None => (Raise JSONDecodeError, s)
  end.
Proof.
  intros R L; unfold load_conf, local_root.
  erewrite bind_ok by (unfold query; rewrite R; reflexivity).
  cbv beta iota.
  assert (Rd : read_file (resolve root d) s = (Ok data, s))
    by (unfold read_file; rewrite L; reflexivity).
  erewrite bind_ok by exact Rd.
  destruct (json_load data); reflexivity.
Qed.

(** X3.  [load_conf] never fails on the file system: the file it opens
    is the one that [local_root] has just seen.  It returns [None] when
    no directory from the working directory upwards holds the depend
    file; otherwise it returns what [json.load] makes of the bytes of
    the nearest one, or raises the decoding error.  The state is left as
    it was in every case. *)
Theorem load_conf_outcomes (cwd : path) (json_load : string -> option json)
    (dependfile : string) (s : state) :
  (load_conf cwd json_load dependfile s = (Ok None, s) /\
   forall dir, prefix dir cwd = true ->
     isfile (fs s) (resolve dir dependfile) = false) \/
  (exists root m data,
     prefix root cwd = true /\
     lookup (fs s) (resolve root dependfile) = Some (File m data) /\
     (forall dir, prefix dir cwd = true ->
        isfile (fs s) (resolve dir dependfile) = true ->
        prefix dir root = true) /\
     load_conf cwd json_load dependfile s =
     match json_load data with
     | Some conf => (Ok (Some conf), s)
     | None => (Raise JSONDecodeError, s)
     end).
Proof.
  generalize (local_root_from_spec (fs s) dependfile (rev cwd)).
  rewrite rev_involutive.
  destruct (local_root_from (fs s) (rev cwd) dependfile) as [root|] eqn:R.
  - intros (P & F & N); right.
    destruct (read_file_isfile _ _ F) as (m & data & L & _).
    exists root, m, data; repeat split; auto.
    exact (load_conf_found _ _ _ _ _ _ _ R L).
  - intro N; left; split; [|exact N].
    apply load_conf_none; exact N.
Qed.

Lemma local_root_inv (cwd : path) (d : string) (s : state) (root : path) :
  local_root cwd d s = (Ok (Some root), s) ->
  local_root_from (fs s) (rev cwd) d = Some root.
Proof. unfold local_root, query; intro H; injection H; auto. Qed.

(** X4.  A manifest that is found and decoded, but to a value that
    Python takes for false (the empty object [{}], an empty list,
    [null], ...), sends [compare_projects] down the branch for a missing
    manifest: it raises [NameError] with nothing printed and nothing
    changed, although the depend file exists. *)
Theorem falsy_manifest_raises_name_error
    (cwd : path) (json_load : string -> option json) (fuel : nat)
    (args : Args) (comparer : comparer) (s : state)
    (root : path) (m : nat) (data : string) (conf : json) :
  local_root cwd (dependfile args) s = (Ok (Some root), s) ->
  lookup (fs s) (resolve root (dependfile args)) = Some (File m data) ->
  json_load data = Some conf ->
  truthy (Some conf) = false ->
  compare_projects cwd json_load fuel args comparer s = (Raise NameError, s).
Proof.
  intros R L J T; apply local_root_inv in R.
  unfold compare_projects.
  erewrite bind_ok
    by (rewrite (load_conf_found _ _ _ _ _ _ _ R L), J; reflexivity).
  rewrite T; reflexivity.
Qed.

Lemma falsy_manifest_witness :
  compare_projects sample_cwd empty_json_load 3 (sample_args false false)
    (PullComparer false false) (start empty_manifest_tree)
  = (Raise NameError, start empty_manifest_tree).
Proof.
  apply (falsy_manifest_raises_name_error sample_cwd empty_json_load 3
           (sample_args false false) (PullComparer false false)
           (start empty_manifest_tree) ["l"] 1 "{}" (JObj []));
    reflexivity.
Defined.

(** X5.  A manifest that decodes to a value without the member
    [projects] stops [compare_projects] at [conf['projects']]: with
    [KeyError] when the value is an object, with [TypeError] when it is
    anything else (a list of projects, a string, a number).  Nothing has
    been printed and nothing changed by then. *)
Theorem manifest_without_projects_raises
    (cwd : path) (json_load : string -> option json) (fuel : nat)
    (args : Args) (comparer : comparer) (s : state)
    (root : path) (m : nat) (data : string) (conf : json) :
  local_root cwd (dependfile args) s = (Ok (Some root), s) ->
  lookup (fs s) (resolve root (dependfile args)) = Some (File m data) ->
  json_load data = Some conf ->
  truthy (Some conf) = true ->
  (forall members, conf = JObj members -> assoc "projects" members = None) ->
  compare_projects cwd json_load fuel args comparer s =
  (Raise (match conf with JObj _ => KeyError | _ => TypeError end), s).
Proof.
  intros R L J T N; pose proof (local_root_inv _ _ _ _ R) as R'.
  unfold compare_projects.
  erewrite bind_ok
    by (rewrite (load_conf_found _ _ _ _ _ _ _ R' L), J; reflexivity).
  rewrite T; cbn [negb].
  erewrite bind_ok by exact R.
  erewrite bind_ok by reflexivity.
  destruct conf as [ |b|z|str|items|members]; try reflexivity.
  apply bind_raise; unfold subscript; rewrite (N members eq_refl); reflexivity.
Qed.

Lemma manifest_without_projects_witness :
  compare_projects sample_cwd list_json_load 3 (sample_args false false)
    (PullComparer false false) (start empty_manifest_tree)
  = (Raise TypeError, start empty_manifest_tree).
Proof.
  apply (manifest_without_projects_raises sample_cwd list_json_load 3
           (sample_args false false) (PullComparer false false)
           (start empty_manifest_tree) ["l"] 1 "{}"
           (JArr [JObj [("path", JStr "/o"); ("assets", JArr [JStr "w"])]]));
    try reflexivity.
  intros members H; discriminate H.
Defined.

(** ** Relations between the file system before and after *)

Section Preserves.

Variable R : node -> node -> Prop.
Hypothesis R_refl : forall t, R t t.
Hypothesis R_trans : forall t1 t2 t3, R t1 t2 -> R t2 t3 -> R t1 t3.

Lemma preserves_same_fs {A} (m : M A) :
  (forall s, fs (snd (m s)) = fs s) -> preserves R m.
Proof. intros H s; rewrite H; apply R_refl. Qed.

Lemma preserves_plain {A} (m : M A) : plain m -> preserves R m.
Proof. intros H; apply preserves_same_fs; intro s; apply H. Qed.

Lemma preserves_bind {A B} (m : M A) (f : A -> M B) :
  preserves R m -> (forall a, preserves R (f a)) -> preserves R (bind m f).
Proof.
  intros Hm Hf s; unfold bind; specialize (Hm s).
  destruct (m s) as [[a|e|] s1]; simpl in *; try exact Hm.
  exact (R_trans _ _ _ Hm (Hf a s1)).
Qed.

Lemma preserves_bind_ok {A B} (m : M A) (f : A -> M B) :
  preserves R m ->
  (forall a, (exists s s', m s = (Ok a, s')) -> preserves R (f a)) ->
  preserves R (bind m f).
Proof.
  intros Hm Hf s; unfold bind; specialize (Hm s).
  destruct (m s) as [[a|e|] s1] eqn:E; simpl in *; try exact Hm.
  exact (R_trans _ _ _ Hm (Hf a (ex_intro _ s (ex_intro _ s1 E)) s1)).
Qed.

Lemma preserves_foreach {A} (xs : list A) (body : A -> M unit) :
  (forall x, In x xs -> preserves R (body x)) -> preserves R (foreach xs body).
Proof.
  induction xs as [|x xs IH]; intro Hb; simpl.
  - apply preserves_same_fs; reflexivity.
  - apply preserves_bind; [apply Hb; left; reflexivity|].
    intros _; apply IH; intros y Hy; apply Hb; right; exact Hy.
Qed.

Lemma preserves_syscall (f : node -> errno + node) :
  (forall t t', f t = inr t' -> R t t') -> preserves R (syscall f).
Proof.
  intros H s; unfold syscall.
  destruct (f (fs s)) as [e|t] eqn:E; [apply R_refl | exact (H _ _ E)].
Qed.

Lemma preserves_libcall (f : node -> exn + node) :
  (forall t t', f t = inr t' -> R t t') -> preserves R (libcall f).
Proof.
  intros H s; unfold libcall.
  destruct (f (fs s)) as [e|t] eqn:E; [apply R_refl | exact (H _ _ E)].
Qed.

(** [copy_asset] is two calls of [copytree] or [copy2]. *)
Lemma preserves_copy_asset (cwd : path) (c : comparer) (src dest : path) :
  (preview c = false ->
   forall t t', copytree src dest t = inr t' -> R t t') ->
  (preview c = false ->
   forall t t', copy2 src dest t = inr t' -> R t t') ->
  (preview c = false ->
   forall t t', copy2 (relative cwd [".meta"]) (add_suffix dest ".meta") t
                = inr t' -> R t t') ->
  preserves R (copy_asset cwd c src dest).
Proof.
  intros Ht Hc Hm; unfold copy_asset.
  apply preserves_bind; [apply preserves_same_fs; reflexivity | intros _].
  destruct (preview c); [apply preserves_same_fs; reflexivity|].
  apply preserves_bind.
  - apply preserves_bind; [apply preserves_same_fs; reflexivity | intros d].
    destruct d; [apply preserves_libcall | apply preserves_syscall]; auto.
  - intros _; cbv zeta.
    apply preserves_bind; [apply preserves_same_fs; reflexivity | intros f].
    destruct f; [|apply preserves_same_fs; reflexivity].
    apply preserves_syscall; auto.
Qed.

(** [remove_asset] is one call of [rmtree] or [os.remove]. *)
Lemma preserves_remove_asset (c : comparer) (p : path) :
  (preview c = false -> forall t t', rmtree p t = inr t' -> R t t') ->
  (preview c = false -> forall t t', os_remove p t = inr t' -> R t t') ->
  preserves R (remove_asset c p).
Proof.
  intros Ht Hr; unfold remove_asset.
  apply preserves_bind; [apply preserves_same_fs; reflexivity | intros _].
  destruct (preview c); [apply preserves_same_fs; reflexivity|].
  apply preserves_bind; [apply preserves_same_fs; reflexivity | intros d].
  destruct d; apply preserves_syscall; auto.
Qed.

(** A run of [compare_projects] is a sequence of [validate] and
    [visit_dcmp] steps. *)
Lemma preserves_compare_projects (cwd : path)
    (json_load : string -> option json) (fuel : nat) (args : Args)
    (c : comparer) :
  (forall origin local, preserves R (validate cwd c origin local)) ->
  (forall l r, preserves R (visit_dcmp cwd fuel c l r)) ->
  preserves R (compare_projects cwd json_load fuel args c).
Proof.
  intros Hval Hv.
  assert (S : forall A (m : M A), plain m -> preserves R m)
    by (intros; apply preserves_plain; assumption).
  unfold compare_projects.
  apply preserves_bind; [apply S, plain_load_conf | intro conf].
  destruct (negb (truthy conf)).
  { apply S; unfold unbound_name; repeat plain_step. }
  apply preserves_bind; [apply S; unfold local_root; auto with plain | intro root].
  apply preserves_bind; [apply S; destruct root; auto with plain | intro la].
  apply preserves_bind;
    [apply S; destruct conf; auto using plain_subscript with plain | intro ps].
  apply preserves_bind; [apply S, plain_iterate | intro prs].
  apply preserves_bind; [| intros _; apply S; auto with plain].
  apply preserves_foreach; intros proj _.
  apply preserves_bind; [apply S, plain_subscript | intro pp].
  apply preserves_bind; [apply S; auto with plain | intros _].
  apply preserves_bind; [apply S, plain_os_path_join | intro oa].
  apply preserves_bind; [apply S, plain_subscript | intro a].
  apply preserves_bind; [apply S, plain_iterate | intro as_].
  apply preserves_foreach; intros asset _.
  apply preserves_bind; [apply S, plain_os_path_join | intro op].
  apply preserves_bind; [apply S, plain_os_path_join | intro lp].
  apply preserves_bind; [apply Hval | intro ok].
  destruct (negb ok); [apply S; auto with plain | apply Hv].
Qed.

End Preserves.

(** A walk relates the file systems by [R l r] when the handlers of
    every level do, for the names that [dircmp] lists, and the relation
    of a subdirectory pair implies the one of its parents. *)
Lemma preserves_visit_dcmp (cwd : path) (c : comparer)
    (R : path -> path -> node -> node -> Prop) :
  (forall l r t, R l r t t) ->
  (forall l r t1 t2 t3, R l r t1 t2 -> R l r t2 t3 -> R l r t1 t3) ->
  (forall l r n t t', ignored n = false ->
      R (l ++ [n]) (r ++ [n]) t t' -> R l r t t') ->
  (forall l r n, ignored n = false ->
      preserves (R l r) (left_only cwd c l r n) /\
      preserves (R l r) (right_only cwd c l r n) /\
      preserves (R l r) (diff cwd c l r n)) ->
  forall fuel l r, preserves (R l r) (visit_dcmp cwd fuel c l r).
Proof.
  intros Hrefl Htrans Hsub Hh fuel; induction fuel as [|fuel IH]; intros l r.
  - intro s; apply Hrefl.
  - assert (S : forall A (m : M A),
               (forall s, fs (snd (m s)) = fs s) -> preserves (R l r) m)
      by (intros A m H; apply preserves_same_fs; auto).
    assert (B : forall A B (m : M A) (f : A -> M B),
               preserves (R l r) m -> (forall a, preserves (R l r) (f a)) ->
               preserves (R l r) (bind m f))
      by (intros; apply preserves_bind; auto; apply Htrans).
    assert (F : forall (xs : list string) (body : string -> M unit),
               (forall x, In x xs -> preserves (R l r) (body x)) ->
               preserves (R l r) (foreach xs body))
      by (intros; apply preserves_foreach; auto; apply Htrans).
    simpl.
    apply preserves_bind_ok;
      [apply Htrans | apply preserves_plain; [apply Hrefl | apply plain_phase0] |].
    intros [ll rl] (s0 & s1 & E).
    apply phase0_inv in E; destruct E as (_ & le & re & _ & _ & -> & ->).
    assert (Il : forall n, In n (listing le) -> ignored n = false)
      by (intros n Hn; apply In_listing in Hn; tauto).
    assert (Ir : forall n, In n (listing re) -> ignored n = false)
      by (intros n Hn; apply In_listing in Hn; tauto).
    unfold phase1; cbn [fst snd].
    apply B.
    { apply F; intros n Hn; apply B; [apply S; reflexivity | intros _].
      apply filter_In in Hn; apply Hh, Il, Hn. }
    intros _; apply B.
    { apply F; intros n Hn; apply B; [apply S; reflexivity | intros _].
      apply filter_In in Hn; apply Hh, Ir, Hn. }
    intros _; apply B; [apply S; reflexivity | intro t].
    unfold phase2.
    apply B.
    { apply F; intros n Hn; apply B; [apply S; reflexivity | intros _].
      unfold phase3 in Hn; apply filter_In in Hn; destruct Hn as [Hn _].
      apply filter_In in Hn; destruct Hn as [Hn _].
      apply filter_In in Hn; apply Hh, Il, Hn. }
    intros _; apply B; [apply S; reflexivity | intros _].
    apply F; intros n Hn s.
    apply filter_In in Hn; destruct Hn as [Hn _].
    apply filter_In in Hn; apply (Hsub l r n); [apply Il, Hn | apply IH].
Qed.

(** ** Runs that remove nothing *)

Lemma lookup_none_below (t : node) (p x : path) :
  lookup t p = None -> lookup t (p ++ x) = None.
Proof. intro H; rewrite lookup_app, H; reflexivity. Qed.

Lemma lookup_file_below (t : node) (p x : path) (m : nat) (d : string) :
  lookup t p = Some (File m d) -> x <> [] -> lookup t (p ++ x) = None.
Proof.
  intros H Hx; rewrite lookup_app, H; destruct x; [congruence | reflexivity].
Qed.

Lemma keeps_entries_refl (t : node) : keeps_entries t t.
Proof. intros q k H; exact H. Qed.

Lemma keeps_entries_trans (t1 t2 t3 : node) :
  keeps_entries t1 t2 -> keeps_entries t2 t3 -> keeps_entries t1 t3.
Proof. intros H1 H2 q k H; apply H2, H1, H. Qed.

(** Storing a node where there is no directory. *)
Lemma keeps_entries_store (p : path) (v : node) (t t' : node) :
  store p v t = Some t' ->
  match lookup t p with
  | None => True
  | Some (File _ _) => match v with File _ _ => True | Dir _ => False end
  | Some (Dir _) => False
  end ->
  keeps_entries t t'.
Proof.
  intros S L q k K.
  destruct (prefix p q) eqn:P; [|exact (kind_store _ _ _ _ _ _ S P K)].
  apply prefix_spec in P; destruct P as [x ->].
  unfold kind_at in K.
  destruct (lookup t p) as [[m d|es]|] eqn:E; try contradiction.
  - destruct x as [|a x].
    + rewrite app_nil_r in *; rewrite E in K; injection K as <-.
      unfold kind_at; rewrite (lookup_store_same _ _ _ _ S).
      destruct v; [reflexivity | contradiction].
    + rewrite (lookup_file_below _ _ (a :: x) _ _ E) in K by discriminate.
      discriminate.
  - rewrite (lookup_none_below _ _ x E) in K; discriminate.
Qed.

Lemma keeps_entries_copytree (src dst : path) (t t' : node) :
  copytree src dst t = inr t' -> keeps_entries t t'.
Proof.
  unfold copytree, exists_; intros C.
  destruct (lookup t src) as [[m d|es]|]; try discriminate.
  destruct (lookup t dst) eqn:E; [discriminate|].
  destruct (store dst (Dir es) t) as [t1|] eqn:S; [|discriminate].
  destruct (copies_into_itself t src dst); [discriminate|].
  injection C as <-; apply (keeps_entries_store _ _ _ _ S); rewrite E; exact I.
Qed.

Lemma keeps_entries_copy2 (src dst : path) (t t' : node) :
  copy2 src dst t = inr t' -> keeps_entries t t'.
Proof.
  unfold copy2; cbv zeta.
  generalize (if isdir t dst then dst ++ [basename src] else dst).
  intros dst' C.
  destruct (exists_ t src && path_eqb src dst'); [discriminate|].
  destruct (lookup t src) as [[m d|es]|]; try discriminate.
  destruct (lookup t dst') as [[m' d'|es']|] eqn:L;
    try discriminate;
    destruct (lookup t (parent dst')) as [[m'' d''|es'']|]; try discriminate;
    destruct (store dst' _ t) as [t1|] eqn:S; try discriminate;
    injection C as <-; apply (keeps_entries_store _ _ _ _ S); rewrite L;
    exact I.
Qed.

Lemma keeps_entries_copy_asset (cwd : path) (c : comparer) (src dest : path) :
  preserves keeps_entries (copy_asset cwd c src dest).
Proof.
  apply preserves_copy_asset;
    eauto using keeps_entries_refl, keeps_entries_trans,
                keeps_entries_copytree, keeps_entries_copy2.
Qed.

Lemma removes_remove_asset (c : comparer) (p : path) :
  preview c = true -> preserves keeps_entries (remove_asset c p).
Proof.
  intro H; apply preserves_plain;
    [apply keeps_entries_refl | apply plain_remove_asset, H].
Qed.

Lemma keeps_entries_handlers (cwd : path) (c : comparer) (l r : path)
    (n : string) :
  removes c = false ->
  preserves keeps_entries (left_only cwd c l r n) /\
  preserves keeps_entries (right_only cwd c l r n) /\
  preserves keeps_entries (diff cwd c l r n).
Proof.
  intro H.
  assert (S : forall A (m : M A),
             (forall s, fs (snd (m s)) = fs s) -> preserves keeps_entries m)
    by (intros A m Hm; apply preserves_same_fs; auto using keeps_entries_refl).
  destruct c as [|cl pv|cl pv]; unfold left_only, right_only, diff;
    repeat split;
    try (apply S; reflexivity);
    try apply keeps_entries_copy_asset;
    (destruct cl; [|apply S; reflexivity]);
    apply removes_remove_asset; simpl in H |- *; destruct pv;
    [reflexivity | discriminate | reflexivity | discriminate].
Qed.

Lemma keeps_entries_validate (cwd : path) (c : comparer)
    (origin local : path) :
  preserves keeps_entries (validate cwd c origin local).
Proof.
  assert (S : forall A (m : M A),
             (forall s, fs (snd (m s)) = fs s) -> preserves keeps_entries m)
    by (intros A m Hm; apply preserves_same_fs; auto using keeps_entries_refl).
  assert (B : forall A B (m : M A) (f : A -> M B),
             preserves keeps_entries m ->
             (forall a, preserves keeps_entries (f a)) ->
             preserves keeps_entries (bind m f))
    by (intros; apply preserves_bind; auto; apply keeps_entries_trans).
  destruct c as [|cl pv|cl pv]; unfold validate;
    (apply B; [apply S; reflexivity | intros d]);
    destruct (negb d);
    try (apply S; reflexivity);
    try (apply B; [apply keeps_entries_copy_asset | intros _; apply S; reflexivity]);
    try (apply B; [apply S; reflexivity | intros d']; destruct (negb d'));
    try (apply S; reflexivity);
    try (apply B; [apply S; reflexivity | intros _; apply S; reflexivity]);
    try (apply B; [apply keeps_entries_copy_asset | intros _; apply S; reflexivity]).
Qed.

(** X6.  Without [--clean], or with [--preview], a run of
    [compare_projects] removes nothing: every path that holds a
    directory or a regular file when the run starts holds a directory,
    respectively a regular file, when the run is over, whatever the
    manifest, the trees and the outcome (the state at an exception
    included).  Files are overwritten, never unlinked or replaced by
    directories. *)
Theorem run_without_clean_keeps_entries
    (cwd : path) (json_load : string -> option json) (fuel : nat)
    (args : Args) (comparer : comparer) (s : state) (q : path) (k : bool) :
  removes comparer = false ->
  kind_at (fs s) q = Some k ->
  kind_at (fs (snd (compare_projects cwd json_load fuel args comparer s))) q
  = Some k.
Proof.
  intros H; revert q k.
  apply (preserves_compare_projects keeps_entries keeps_entries_refl
           keeps_entries_trans).
  - intros; apply keeps_entries_validate.
  - intros l r.
    apply (preserves_visit_dcmp cwd comparer (fun _ _ => keeps_entries));
      auto using keeps_entries_refl.
    + intros _ _; apply keeps_entries_trans.
    + intros; apply keeps_entries_handlers, H.
Qed.

Lemma run_without_clean_witness :
  kind_at (fs (snd (compare_projects sample_cwd sample_json_load 3
                      (sample_args false false) (PullComparer false false)
                      (start mixed_tree)))) (local_w ++ ["b"])
  = Some false.
Proof.
  apply (run_without_clean_keeps_entries sample_cwd sample_json_load 3
           (sample_args false false) (PullComparer false false)
           (start mixed_tree) (local_w ++ ["b"]) false);
    reflexivity.
Defined.

(** ** Where a run writes *)

Lemma has_suffix_app (suffix s : string) :
  has_suffix suffix (s ++ suffix)%string = true.
Proof.
  induction s as [|a s IH].
  - change (has_suffix suffix suffix = true).
    destruct suffix; cbn [has_suffix]; rewrite String.eqb_refl; reflexivity.
  - change (has_suffix suffix (String a (s ++ suffix)) = true).
    cbn [has_suffix]; rewrite IH; apply orb_true_r.
Qed.

(** The sidecar name of an asset is no name that [dircmp] ignores. *)
Lemma meta_not_ignored (m : string) : ignored (m ++ ".meta")%string = false.
Proof.
  destruct (ignored (m ++ ".meta")%string) eqn:E; [|reflexivity].
  pose proof (has_suffix_app ".meta" m) as S.
  unfold ignored in E; apply mem_In in E; simpl in E.
  repeat (destruct E as [E|E]; [rewrite <- E in S; discriminate S|]).
  contradiction.
Qed.

Lemma lookup_erase_apart (p q : path) (t t' : node) :
  erase p t = Some t' -> apart p q -> lookup t' q = lookup t q.
Proof.
  revert q t t'; induction p as [|n p IH]; intros q t t' S [A1 A2].
  - discriminate.
  - simpl in S; destruct t as [m d|es]; [discriminate|].
    destruct q as [|a q]; [discriminate|]; simpl in A1, A2.
    destruct (String.eqb n a) eqn:E.
    + apply String.eqb_eq in E; subst a.
      rewrite ?String.eqb_refl in A2; simpl in A1, A2.
      destruct p as [|b p]; [discriminate|].
      destruct (get_ent n es) as [c|] eqn:G; [|discriminate].
      destruct (erase (b :: p) c) as [c'|] eqn:Sc; [|discriminate].
      injection S as <-; simpl; rewrite get_set_same, G.
      apply (IH q c c' Sc); split; assumption.
    + assert (Hna : n <> a)
        by (intros ->; rewrite String.eqb_refl in E; discriminate).
      destruct p as [|b p].
      * injection S as <-; simpl; rewrite get_del_other by exact Hna.
        reflexivity.
      * destruct (get_ent n es) as [c|]; [destruct (erase (b :: p) c)|];
          try discriminate; injection S as <-; simpl;
          rewrite get_set_other by exact Hna; reflexivity.
Qed.

Lemma frame_copytree (src dst q : path) (t t' : node) :
  copytree src dst t = inr t' -> apart dst q -> lookup t' q = lookup t q.
Proof.
  unfold copytree; intros C A.
  destruct (lookup t src) as [[m d|es]|]; try discriminate.
  destruct (exists_ t dst); [discriminate|].
  destruct (store dst (Dir es) t) as [t1|] eqn:S; [|discriminate].
  destruct (copies_into_itself t src dst); [discriminate|].
  injection C as <-; exact (lookup_store_apart _ _ _ _ _ S A).
Qed.

Lemma frame_copy2 (src dst q : path) (t t' : node) :
  copy2 src dst t = inr t' -> apart dst q -> lookup t' q = lookup t q.
Proof.
  unfold copy2; cbv zeta; intros C A.
  destruct (isdir t dst);
    [apply (apart_below _ _ [basename src]) in A|];
    (destruct (exists_ t src && path_eqb src _); [discriminate|]);
    (destruct (lookup t src) as [[m d|es]|]; try discriminate);
    (destruct (lookup t _) as [[m' d'|es']|] in C; try discriminate);
    (destruct (lookup t (parent _)) as [[m'' d''|es'']|] in C;
     try discriminate);
    (destruct (store _ _ t) as [t1|] eqn:S in C; try discriminate);
    injection C as <-; exact (lookup_store_apart _ _ _ _ _ S A).
Qed.

Lemma frame_rmtree (p q : path) (t t' : node) :
  rmtree p t = inr t' -> apart p q -> lookup t' q = lookup t q.
Proof.
  unfold rmtree; intros C A.
  destruct (lookup t p) as [[m d|es]|]; try discriminate.
  destruct (erase p t) as [t1|] eqn:S; [|discriminate].
  injection C as <-; exact (lookup_erase_apart _ _ _ _ S A).
Qed.

Lemma frame_os_remove (p q : path) (t t' : node) :
  os_remove p t = inr t' -> apart p q -> lookup t' q = lookup t q.
Proof.
  unfold os_remove; intros C A.
  destruct (lookup t p) as [[m d|es]|]; try discriminate.
  destruct (erase p t) as [t1|] eqn:S; [|discriminate].
  injection C as <-; exact (lookup_erase_apart _ _ _ _ S A).
Qed.

Lemma unchanged_at_refl (P : path -> Prop) (t : node) : unchanged_at P t t.
Proof. intros q _; reflexivity. Qed.

Lemma unchanged_at_trans (P : path -> Prop) (t1 t2 t3 : node) :
  unchanged_at P t1 t2 -> unchanged_at P t2 t3 -> unchanged_at P t1 t3.
Proof. intros H1 H2 q Hq; rewrite (H2 q Hq); exact (H1 q Hq). Qed.

(** [copy_asset] writes at the destination and at its sidecar path. *)
Lemma frame_copy_asset (cwd : path) (c : comparer) (src dest : path)
    (P : path -> Prop) :
  (forall q, P q -> apart dest q /\ apart (add_suffix dest ".meta") q) ->
  preserves (unchanged_at P) (copy_asset cwd c src dest).
Proof.
  intro H.
  apply preserves_copy_asset;
    [apply unchanged_at_refl | apply unchanged_at_trans | ..];
    intros _ t t' E q Hq; destruct (H q Hq) as [Hd Hm].
  - exact (frame_copytree _ _ _ _ _ E Hd).
  - exact (frame_copy2 _ _ _ _ _ E Hd).
  - exact (frame_copy2 _ _ _ _ _ E Hm).
Qed.

(** [remove_asset] writes at the removed path. *)
Lemma frame_remove_asset (c : comparer) (p : path) (P : path -> Prop) :
  (forall q, P q -> apart p q) ->
  preserves (unchanged_at P) (remove_asset c p).
Proof.
  intro H.
  apply preserves_remove_asset;
    [apply unchanged_at_refl | apply unchanged_at_trans | ..];
    intros _ t t' E q Hq; pose proof (H q Hq) as Hp.
  - exact (frame_rmtree _ _ _ _ E Hp).
  - exact (frame_os_remove _ _ _ _ E Hp).
Qed.

Lemma outside_entry (c : comparer) (l r root : path) (n : string) (q : path) :
  In root (dest_roots c l r) -> ignored n = false -> outside c l r q ->
  apart (root ++ [n]) q /\ apart (add_suffix (root ++ [n]) ".meta") q.
Proof.
  intros Hr Hn Ho; split; [exact (Ho root n Hr Hn)|].
  rewrite add_suffix_child; exact (Ho root _ Hr (meta_not_ignored n)).
Qed.

Lemma frame_copy_to (cwd : path) (c : comparer) (l r src root : path)
    (n : string) :
  (preview c = false -> In root (dest_roots c l r)) -> ignored n = false ->
  preserves (unchanged_at (outside c l r)) (copy_asset cwd c src (root ++ [n])).
Proof.
  intros Hr Hn; destruct (preview c) eqn:P.
  - apply preserves_plain; [apply unchanged_at_refl|].
    apply plain_copy_asset, P.
  - apply frame_copy_asset; intros q Hq.
    exact (outside_entry c l r root n q (Hr eq_refl) Hn Hq).
Qed.

Lemma frame_remove_at (c : comparer) (l r root : path) (n : string) :
  (preview c = false -> In root (dest_roots c l r)) -> ignored n = false ->
  preserves (unchanged_at (outside c l r)) (remove_asset c (root ++ [n])).
Proof.
  intros Hr Hn; destruct (preview c) eqn:P.
  - apply preserves_plain; [apply unchanged_at_refl|].
    apply plain_remove_asset, P.
  - apply frame_remove_asset; intros q Hq.
    exact (proj1 (outside_entry c l r root n q (Hr eq_refl) Hn Hq)).
Qed.

Lemma frame_handlers (cwd : path) (c : comparer) (l r : path) (n : string) :
  ignored n = false ->
  preserves (unchanged_at (outside c l r)) (left_only cwd c l r n) /\
  preserves (unchanged_at (outside c l r)) (right_only cwd c l r n) /\
  preserves (unchanged_at (outside c l r)) (diff cwd c l r n).
Proof.
  intro Hn.
  assert (S : forall A (m : M A), plain m ->
             preserves (unchanged_at (outside c l r)) m)
    by (intros A m Hm; apply preserves_plain; auto using unchanged_at_refl).
  assert (Dl : forall cl pv, preview (PushComparer cl pv) = false ->
                 In l (dest_roots (PushComparer cl pv) l r))
    by (simpl; intros cl pv ->; left; reflexivity).
  assert (Dr : forall cl pv, preview (PullComparer cl pv) = false ->
                 In r (dest_roots (PullComparer cl pv) l r))
    by (simpl; intros cl pv ->; left; reflexivity).
  destruct c as [|cl pv|cl pv]; unfold left_only, right_only, diff.
  - repeat split; apply S; auto with plain.
  - repeat split; [| destruct cl; [|apply S; auto with plain] |].
    + apply frame_copy_to; auto.
    + apply frame_remove_at; auto.
    + apply frame_copy_to; auto.
  - repeat split; [destruct cl; [|apply S; auto with plain] | |].
    + apply frame_remove_at; auto.
    + apply frame_copy_to; auto.
    + apply frame_copy_to; auto.
Qed.

Lemma outside_sub (c : comparer) (l r : path) (n : string) (q : path) :
  ignored n = false ->
  outside c l r q -> outside c (l ++ [n]) (r ++ [n]) q.
Proof.
  intros Hn H root m Hr Hm.
  assert (exists root', root = root' ++ [n] /\ In root' (dest_roots c l r))
    as (root' & -> & Hr').
  { destruct c as [|cl [|]|cl [|]]; simpl in Hr |- *; try contradiction;
      destruct Hr as [<-|[]]; eauto. }
  apply apart_below; exact (H root' n Hr' Hn).
Qed.

(** A walk changes nothing outside the entries it handles. *)
Lemma frame_visit_dcmp (cwd : path) (c : comparer) (fuel : nat) (l r : path) :
  preserves (unchanged_at (outside c l r)) (visit_dcmp cwd fuel c l r).
Proof.
  apply (preserves_visit_dcmp cwd c
           (fun l r => unchanged_at (outside c l r))).
  - intros; apply unchanged_at_refl.
  - intros l0 r0 t1 t2 t3; apply unchanged_at_trans.
  - intros l0 r0 n t t' Hn H q Hq; apply H, outside_sub; assumption.
  - intros; apply frame_handlers; assumption.
Qed.

Lemma unchanged_at_weaken (P P' : path -> Prop) {A} (m : M A) :
  (forall q, P q -> P' q) ->
  preserves (unchanged_at P') m -> preserves (unchanged_at P) m.
Proof. intros H Hm s q Hq; apply Hm, H, Hq. Qed.

(** A step for an asset pair under a policy that copies to [dest]
    writes at or below [dest] and its sidecar path. *)
Lemma frame_sync_step (cwd : path) (fuel : nat) (c : comparer)
    (origin local dest : path) :
  match c with
  | DiffComparer => True
  | PullComparer _ _ => dest = local
  | PushComparer _ _ => dest = origin
  end ->
  preserves
    (unchanged_at (fun q => apart dest q /\ apart (add_suffix dest ".meta") q))
    (sync_step cwd fuel c origin local).
Proof.
  intro Hd.
  set (P := fun q => apart dest q /\ apart (add_suffix dest ".meta") q).
  assert (S : forall A (m : M A), plain m -> preserves (unchanged_at P) m)
    by (intros A m Hm; apply preserves_plain; auto using unchanged_at_refl).
  assert (B : forall A B (m : M A) (f : A -> M B),
             preserves (unchanged_at P) m ->
             (forall a, preserves (unchanged_at P) (f a)) ->
             preserves (unchanged_at P) (bind m f))
    by (intros; apply preserves_bind; auto; apply unchanged_at_trans).
  unfold sync_step; apply B.
  - destruct c as [|cl pv|cl pv]; [|unfold validate..].
    + apply S, plain_validate; reflexivity.
    + subst dest; apply B; [apply S; auto with plain | intros d].
      destruct (negb d).
      * apply B; [|intros _; apply S; auto with plain].
        apply frame_copy_asset; auto.
      * apply S; repeat plain_step.
    + subst dest; apply B; [apply S; auto with plain | intros d].
      destruct (negb d); [apply S; auto with plain|].
      apply B; [apply S; auto with plain | intros d'].
      destruct (negb d'); [|apply S; auto with plain].
      apply B; [|intros _; apply S; auto with plain].
      apply frame_copy_asset; auto.
  - intros ok; destruct (negb ok); [apply S; auto with plain|].
    apply (unchanged_at_weaken P (outside c origin local));
      [|apply frame_visit_dcmp].
    intros q [Hq _] root m Hr _; apply apart_below.
    destruct c as [|cl [|]|cl [|]]; simpl in Hr; try contradiction;
      destruct Hr as [<-|[]]; subst dest; exact Hq.
Qed.

(** X7.  A [pull] step for an asset pair writes only to the local side,
    whatever the flags, the trees and the outcome: a path that lies
    apart from the local folder and from its sidecar path
    [local + '.meta'] holds after the step what it held before.  When
    the origin folder lies apart from both, nothing at or below it
    changes. *)
Theorem pull_writes_only_local
    (cwd : path) (fuel : nat) (clean dry : bool) (origin local : path)
    (s : state) (q : path) :
  apart local q ->
  apart (add_suffix local ".meta") q ->
  lookup (fs (snd (sync_step cwd fuel (PullComparer clean dry) origin local s)))
         q
  = lookup (fs s) q.
Proof.
  intros H1 H2.
  apply (frame_sync_step cwd fuel (PullComparer clean dry) origin local local
           eq_refl s q); split; assumption.
Qed.

Lemma pull_writes_only_local_witness :
  lookup (fs (snd (sync_step sample_cwd 3 (PullComparer true false)
                     origin_w local_w (start mixed_tree)))) (origin_w ++ ["a"])
  = Some (File 1 "x").
Proof.
  rewrite (pull_writes_only_local sample_cwd 3 true false origin_w local_w
             (start mixed_tree) (origin_w ++ ["a"]));
    [reflexivity | split; reflexivity | split; reflexivity].
Defined.

(** X8.  A [push] step for an asset pair writes only to the origin
    side, whatever the flags, the trees and the outcome: a path that
    lies apart from the origin folder and from its sidecar path
    [origin + '.meta'] holds after the step what it held before. *)
Theorem push_writes_only_origin
    (cwd : path) (fuel : nat) (clean dry : bool) (origin local : path)
    (s : state) (q : path) :
  apart origin q ->
  apart (add_suffix origin ".meta") q ->
  lookup (fs (snd (sync_step cwd fuel (PushComparer clean dry) origin local s)))
         q
  = lookup (fs s) q.
Proof.
  intros H1 H2.
  apply (frame_sync_step cwd fuel (PushComparer clean dry) origin local origin
           eq_refl s q); split; assumption.
Qed.

Lemma push_writes_only_origin_witness :
  lookup (fs (snd (sync_step sample_cwd 3 (PushComparer true false)
                     origin_w local_w (start mixed_tree)))) (local_w ++ ["b"])
  = Some (File 1 "z").
Proof.
  rewrite (push_writes_only_origin sample_cwd 3 true false origin_w local_w
             (start mixed_tree) (local_w ++ ["b"]));
    [reflexivity | split; reflexivity | split; reflexivity].
Defined.

Lemma ignored_neq (n m : string) :
  ignored n = true -> ignored m = false -> m <> n.
Proof. intros Hn Hm ->; congruence. Qed.

(** X9.  The entries that [dircmp] ignores ([.git], [.hg], [CVS],
    [tags], [__pycache__], ...) are left alone by a walk under every
    policy: in the two directories of a walk that lie apart, an entry
    under an ignored name holds after the walk what it held before, at
    the entry and below it, [--clean] or not. *)
Theorem walk_leaves_ignored_entries
    (cwd : path) (fuel : nat) (comparer : comparer) (left right : path)
    (name : string) (x : path) (s : state) :
  apart left right ->
  ignored name = true ->
  let s' := snd (visit_dcmp cwd fuel comparer left right s) in
  lookup (fs s') (left ++ name :: x) = lookup (fs s) (left ++ name :: x) /\
  lookup (fs s') (right ++ name :: x) = lookup (fs s) (right ++ name :: x).
Proof.
  intros Ha Hn s'.
  assert (O : forall root, root = left \/ root = right ->
                outside comparer left right (root ++ name :: x)).
  { intros root Hroot root' m Hr' Hm.
    assert (Hroot' : root' = left \/ root' = right)
      by (destruct comparer as [|cl [|]|cl [|]]; simpl in Hr';
          try contradiction; destruct Hr' as [<-|[]]; auto).
    assert (Cases : root' = root \/ apart root' root).
    { destruct Hroot as [-> | ->], Hroot' as [-> | ->];
        auto using apart_sym. }
    destruct Cases as [-> | Hap].
    - apply (apart_siblings root [] x m name), (ignored_neq _ _ Hn Hm).
    - exact (apart_below_both root' root [m] (name :: x) Hap). }
  split; apply (frame_visit_dcmp cwd comparer fuel left right s); apply O; auto.
Qed.

Lemma walk_leaves_ignored_witness :
  lookup (fs (snd (visit_dcmp sample_cwd 3 (PushComparer true false)
                     origin_w local_w (start tags_tree))))
         (origin_w ++ ["tags"])
  = Some (File 1 "t").
Proof.
  rewrite (proj1 (walk_leaves_ignored_entries sample_cwd 3
                    (PushComparer true false) origin_w local_w "tags" []
                    (start tags_tree)
                    (conj eq_refl eq_refl) eq_refl));
    reflexivity.
Defined.

(** ** Walks that find nothing to do *)

Lemma no_member_nil {A} (l : list A) : (forall x, ~ In x l) -> l = [].
Proof.
  destruct l as [|a l]; [reflexivity|].
  intro H; exfalso; apply (H a); left; reflexivity.
Qed.

Lemma idle_foreach (Q : event -> Prop) (t0 : node) {A} (xs : list A)
    (body : A -> M unit) :
  (forall x, In x xs -> idle Q t0 (body x)) -> idle Q t0 (foreach xs body).
Proof.
  induction xs as [|x xs IH]; intros Hb s Hs; cbn [foreach].
  - exists []; rewrite app_nil_r; split; [|constructor].
    unfold ret; destruct s; simpl in *; subst; reflexivity.
  - destruct (Hb x (or_introl eq_refl) s Hs) as (n1 & E1 & Q1).
    erewrite bind_ok by exact E1.
    destruct (IH (fun y Hy => Hb y (or_intror Hy))
                (mkState t0 (out s) (log s ++ n1)) eq_refl)
      as (n2 & E2 & Q2).
    cbn [fs out log] in E2.
    exists (n1 ++ n2); rewrite app_assoc; split; [exact E2|].
    apply Forall_app; split; assumption.
Qed.

Lemma mirrored_refl (es : entries) : mirrored es es.
Proof.
  pose proof (mirrors_refl (Dir es)) as H.
  inversion H; assumption.
Qed.

Lemma height_dir_pos (es : entries) : 1 <= height (Dir es).
Proof. simpl; lia. Qed.

(** Over two directories that mirror one another, a walk calls no
    handler, whatever the policy. *)
Lemma in_sync_walk (cwd : path) (c : comparer) (t0 : node) (fuel : nat) :
  forall l r le re,
    lookup t0 l = Some (Dir le) -> lookup t0 r = Some (Dir re) ->
    mirrored le re -> mirrored re le ->
    height (Dir le) <= fuel ->
    idle nothing_to_do t0 (visit_dcmp cwd fuel c l r).
Proof.
  induction fuel as [|fuel IH]; intros l r le re Hl Hr Hlr Hrl Hh.
  { pose proof (height_dir_pos le); lia. }
  intros s Hs; subst t0.
  inversion Hlr as [? ? Al]; subst.
  inversion Hrl as [? ? Ar]; subst.
  cbn [visit_dcmp].
  erewrite bind_ok by (apply phase0_dirs; eassumption).
  cbn [fst snd].
  pose proof (phase1_listing le re) as P1.
  destruct (phase1 (listing le) (listing re)) as [[common lo] ro].
  destruct P1 as (Hco & Hlo & Hro & _).
  assert (lo = []) as ->.
  { apply no_member_nil; intros n Hn.
    apply Hlo in Hn; destruct Hn as (H1 & H2 & H3).
    destruct (get_ent n le) as [x|] eqn:Ec; [|congruence].
    destruct (Al n x H3 Ec) as (x' & Hx' & _); congruence. }
  assert (ro = []) as ->.
  { apply no_member_nil; intros n Hn.
    apply Hro in Hn; destruct Hn as (H1 & H2 & H3).
    destruct (get_ent n re) as [x|] eqn:Ec; [|congruence].
    destruct (Ar n x H3 Ec) as (x' & Hx' & _); congruence. }
  cbn [foreach]; do 3 step.
  assert (L : forall n, lookup (fs s) (l ++ [n]) = get_ent n le /\
                        lookup (fs s) (r ++ [n]) = get_ent n re).
  { intro n; split; apply lookup_child; assumption. }
  unfold phase2.
  assert (phase3 (fs s) l r
            (filter (fun x => is_file_class (classify (fs s) l r x)) common)
          = []) as ->.
  { apply no_member_nil; intros n Hn.
    unfold phase3 in Hn; apply filter_In in Hn; destruct Hn as [Hn Hcmp].
    apply filter_In in Hn; destruct Hn as [Hc Hf].
    apply Hco in Hc; destruct Hc as (_ & _ & Hign).
    apply classify_file in Hf; destruct Hf as [(m & d & Fl) (m' & d' & Fr)].
    rewrite (cmp_files _ _ _ _ _ Fl Fr) in Hcmp.
    destruct (L n) as [Ll Lr]; rewrite Fl in Ll; rewrite Fr in Lr.
    destruct (Al n (File m d) Hign (eq_sym Ll)) as (x' & Hx' & Hm).
    rewrite <- Lr in Hx'; injection Hx' as <-.
    inversion Hm as [? ? ? ? He| | |]; subst.
    rewrite He in Hcmp; discriminate. }
  cbn [foreach]; do 2 step.
  match goal with
  | |- context [foreach ?ds ?body ?s1] =>
      destruct (idle_foreach nothing_to_do (fs s) ds body) with (s := s1)
        as (new & E & Q); [| reflexivity |]
  end.
  - intros d Hd.
    apply filter_In in Hd; destruct Hd as [Hc Hd].
    apply Hco in Hc; destruct Hc as (_ & _ & Hign).
    apply classify_dir in Hd; destruct Hd as [[a Da] [b Db]].
    destruct (L d) as [Ll Lr]; rewrite Da in Ll; rewrite Db in Lr.
    destruct (Al d (Dir a) Hign (eq_sym Ll)) as (x' & Hx' & Hm).
    rewrite <- Lr in Hx'; injection Hx' as <-.
    destruct (Ar d (Dir b) Hign (eq_sym Lr)) as (y' & Hy' & Hm').
    rewrite <- Ll in Hy'; injection Hy' as <-.
    inversion Hm as [|? ? Hab| |]; subst.
    inversion Hm' as [|? ? Hba| |]; subst.
    apply (IH (l ++ [d]) (r ++ [d]) a b Da Db Hab Hba).
    pose proof (height_child _ _ _ _ _ Hl Da); lia.
  - cbn [fs out log] in E.
    eexists; rewrite E, <- app_assoc; split; [reflexivity|].
    constructor; [simpl; auto | exact Q].
Qed.

(** X10.  Two directories that mirror one another (the same names
    outside [dircmp]'s ignore list on both sides, no two regular files
    under a common name that [filecmp.cmp] tells apart, the directories
    under a common name mirrors in turn; a name that is a regular file
    on one side and a directory on the other is not looked into) leave a
    walk nothing to do, whatever the policy: with fuel for the height of the left directory the walk
    returns, prints nothing, changes nothing, calls no handler, and
    every comparison it makes has empty [left_only], [right_only] and
    [diff_files]. *)
Theorem walk_in_sync_does_nothing
    (cwd : path) (fuel : nat) (comparer : comparer) (left right : path)
    (le re : entries) (s : state) :
  lookup (fs s) left = Some (Dir le) ->
  lookup (fs s) right = Some (Dir re) ->
  mirrored le re -> mirrored re le ->
  height (Dir le) <= fuel ->
  exists new,
    visit_dcmp cwd fuel comparer left right s =
      (Ok tt, mkState (fs s) (out s) (log s ++ new)) /\
    Forall nothing_to_do new.
Proof.
  intros Hl Hr Hlr Hrl Hh.
  exact (in_sync_walk cwd comparer (fs s) fuel left right le re
           Hl Hr Hlr Hrl Hh s eq_refl).
Qed.

Lemma walk_in_sync_witness :
  exists new,
    visit_dcmp sample_cwd 3 (PushComparer true false) origin_w local_w
      (start synced_tree)
    = (Ok tt, mkState synced_tree [] ([] ++ new)) /\
    Forall nothing_to_do new.
Proof.
  apply (walk_in_sync_does_nothing sample_cwd 3 (PushComparer true false)
           origin_w local_w synced_entries synced_entries (start synced_tree));
    [reflexivity | reflexivity | apply mirrored_refl | apply mirrored_refl |].
  vm_compute; lia.
Defined.

(** ** Copying and removing one asset *)

(** With preview off and no file [.meta] in the working directory,
    [copy_asset] stores the source node at the destination. *)
Lemma copy_asset_to (cwd : path) (self : comparer) (src dest : path)
    (c : node) (s : state) :
  preview self = false ->
  lookup (fs s) src = Some c ->
  receives (fs s) dest c ->
  prefix src dest = false ->
  isfile (fs s) (relative cwd [".meta"]) = false ->
  prefix dest (relative cwd [".meta"]) = false ->
  exists t',
    store dest c (fs s) = Some t' /\
    copy_asset cwd self src dest s =
    (Ok tt, mkState t' (out s ++ [MsgCopying src dest]) (log s)).
Proof.
  intros Hp Hsrc Hrec Hpre Hm Hout.
  assert (St : exists t', store dest c (fs s) = Some t').
  { destruct c as [m d|es]; simpl in Hrec.
    - destruct Hrec as (Hne & [es He] & _); exact (store_in_dir _ _ _ _ Hne He).
    - destruct Hrec as [Hn He]; exact (store_free _ _ _ Hn He). }
  destruct St as [t' St]; exists t'; split; [exact St|].
  assert (Hne : path_eqb src dest = false).
  { apply path_eqb_neq; intros ->; rewrite prefix_refl in Hpre; discriminate. }
  unfold copy_asset; step; rewrite Hp.
  assert (E : (d <- query (fun t => isdir t src) ;;
               if d then libcall (copytree src dest)
               else syscall (copy2 src dest))
                (mkState (fs s) (out s ++ [MsgCopying src dest]) (log s))
              = (Ok tt, mkState t' (out s ++ [MsgCopying src dest]) (log s))).
  { step; unfold isdir; rewrite Hsrc.
    destruct c as [m d|ces]; unfold syscall, libcall; cbn [fs out log];
      simpl in Hrec.
    - destruct Hrec as (_ & [es He] & Hnd).
      assert (Hd : isdir (fs s) dest = false).
      { unfold isdir; destruct (lookup (fs s) dest) as [[m' d'|es']|] eqn:G;
          try reflexivity.
        exfalso; exact (Hnd es' eq_refl). }
      unfold copy2; rewrite Hd; unfold exists_.
      rewrite Hsrc, Hne, andb_false_r, He, St.
      unfold isdir in Hd.
      destruct (lookup (fs s) dest) as [[m' d'|es']|];
        [reflexivity | discriminate | reflexivity].
    - destruct Hrec as [Hn _].
      unfold copytree, exists_, copies_into_itself.
      rewrite Hsrc, Hn, Hpre, St; reflexivity. }
  erewrite bind_ok by exact E.
  cbv zeta; step.
  rewrite (isfile_store _ _ _ _ _ St Hout), Hm; reflexivity.
Qed.

(** An existing source is apart from a destination that can receive
    it. *)
Lemma receives_apart (t : node) (src dest : path) (c : node) :
  lookup t src = Some c -> receives t dest c -> prefix src dest = false ->
  apart dest src.
Proof.
  intros Hsrc Hrec Hpre; split; [|exact Hpre].
  destruct (prefix dest src) eqn:P; [|reflexivity].
  apply prefix_spec in P; destruct P as [x ->].
  destruct x as [|a x].
  { rewrite app_nil_r, prefix_refl in Hpre; discriminate. }
  destruct c as [m d|es]; simpl in Hrec.
  - destruct Hrec as (_ & _ & Hnd).
    rewrite lookup_app in Hsrc.
    destruct (lookup t dest) as [[m' d'|es']|]; try discriminate.
    exfalso; exact (Hnd es' eq_refl).
  - destruct Hrec as [Hn _].
    rewrite (lookup_none_below _ _ _ Hn) in Hsrc; discriminate.
Qed.

(** X11.  With preview off, [copy_asset] copies, under these
    conditions: the source exists; the destination can receive it (for
    a regular file an existing parent directory and no directory in the
    way, for a directory a free path, whose missing ancestors are made);
    the destination is neither the source nor a path inside it; the
    working directory holds no regular file [.meta], and the path of
    that file is neither the destination nor a path inside it, so that
    the copy cannot make it.  Then the call announces the copy and
    returns; the destination holds the node of the source (for a file
    its bytes and its modification time, for a directory the whole
    tree), the source still holds it, and every path apart from the
    destination holds what it held before. *)
Theorem copy_asset_copies
    (cwd : path) (self : comparer) (src dest : path) (c : node) (s : state) :
  preview self = false ->
  lookup (fs s) src = Some c ->
  receives (fs s) dest c ->
  prefix src dest = false ->
  isfile (fs s) (cwd ++ [".meta"]) = false ->
  prefix dest (cwd ++ [".meta"]) = false ->
  exists t',
    copy_asset cwd self src dest s =
      (Ok tt, mkState t' (out s ++ [MsgCopying src dest]) (log s)) /\
    lookup t' dest = Some c /\
    lookup t' src = Some c /\
    (forall q, apart dest q -> lookup t' q = lookup (fs s) q).
Proof.
  intros Hp Hsrc Hrec Hpre Hm Hout.
  destruct (copy_asset_to cwd self src dest c s Hp Hsrc Hrec Hpre Hm Hout)
    as (t' & St & E).
  exists t'; repeat split.
  - exact E.
  - exact (lookup_store_same _ _ _ _ St).
  - rewrite (lookup_store_apart _ _ _ _ _ St
               (receives_apart _ _ _ _ Hsrc Hrec Hpre)).
    exact Hsrc.
  - intros q Hq; exact (lookup_store_apart _ _ _ _ _ St Hq).
Qed.

Lemma copy_asset_copies_witness :
  exists t',
    copy_asset sample_cwd (PullComparer false false) ["o"; "Foo"] ["l"; "Foo"]
      (start sidecar_tree)
    = (Ok tt, mkState t' ([] ++ [MsgCopying ["o"; "Foo"] ["l"; "Foo"]]) []) /\
    lookup t' ["l"; "Foo"] = Some (File 7 "mesh") /\
    lookup t' ["o"; "Foo"] = Some (File 7 "mesh") /\
    (forall q, apart ["l"; "Foo"] q ->
               lookup t' q = lookup sidecar_tree q).
Proof.
  apply (copy_asset_copies sample_cwd (PullComparer false false)
           ["o"; "Foo"] ["l"; "Foo"] (File 7 "mesh") (start sidecar_tree));
    try reflexivity.
  repeat split.
  - discriminate.
  - exists []; reflexivity.
  - intros es H; discriminate H.
Defined.

Lemma erase_existing (p : path) (c : node) (t : node) :
  lookup t p = Some c -> p <> [] ->
  exists t', erase p t = Some t' /\ lookup t' p = None.
Proof.
  intros L Hp.
  destruct (exists_last Hp) as (l & n & ->).
  destruct (lookup_parent_dir _ _ _ _ L) as [es Hl].
  destruct (store_replace l (Dir (del_ent n es)) _ _ Hl) as [t' St].
  exists t'; rewrite (erase_child _ _ _ _ Hl); split; [exact St|].
  exact (removed_child _ _ _ _ _ Hl St).
Qed.

(** X12.  With preview off, [remove_asset] on an existing entry (a
    regular file or a directory with all it holds) announces the
    removal and returns; nothing is left at the path or below it, and
    every path apart from it holds what it held before.  On a path that
    holds nothing it announces the removal and then raises the
    [OSError] of [os.remove], with the file system as it was. *)
Theorem remove_asset_removes
    (self : comparer) (p : path) (s : state) :
  preview self = false ->
  p <> [] ->
  match lookup (fs s) p with
  | Some _ =>
      exists t',
        remove_asset self p s =
          (Ok tt, mkState t' (out s ++ [MsgRemoving p]) (log s)) /\
        (forall x, lookup t' (p ++ x) = None) /\
        (forall q, apart p q -> lookup t' q = lookup (fs s) q)
  | None =>
      remove_asset self p s =
        (Raise (OSError (missing_errno (fs s) p)),
         mkState (fs s) (out s ++ [MsgRemoving p]) (log s))
  end.
Proof.
  intros Hp Hne.
  destruct (lookup (fs s) p) as [c|] eqn:L.
  - destruct (erase_existing _ _ _ L Hne) as (t' & Er & Gone).
    exists t'; repeat split.
    + unfold remove_asset; step; rewrite Hp; step.
      unfold isdir; rewrite L.
      destruct c; unfold syscall, rmtree, os_remove; cbn [fs out log];
        rewrite L, Er; reflexivity.
    + intro x; exact (lookup_none_below _ _ x Gone).
    + intros q Hq; exact (lookup_erase_apart _ _ _ _ Er Hq).
  - unfold remove_asset; step; rewrite Hp; step.
    unfold isdir; rewrite L.
    unfold syscall, os_remove; cbn [fs out log]; rewrite L; reflexivity.
Qed.

Lemma remove_asset_witness :
  exists t',
    remove_asset (PushComparer true false) (origin_w ++ ["old"])
      (start tags_tree)
    = (Ok tt, mkState t' ([] ++ [MsgRemoving (origin_w ++ ["old"])]) []) /\
    (forall x, lookup t' ((origin_w ++ ["old"]) ++ x) = None) /\
    (forall q, apart (origin_w ++ ["old"]) q ->
               lookup t' q = lookup tags_tree q).
Proof.
  apply (remove_asset_removes (PushComparer true false) (origin_w ++ ["old"])
           (start tags_tree) eq_refl).
  discriminate.
Defined.

(** ** The bootstrap copy of [validate] *)

Lemma validate_pull_missing_local (cwd : path) (clean dry : bool)
    (origin local : path) (s : state) :
  isdir (fs s) local = false ->
  validate cwd (PullComparer clean dry) origin local s =
  (copy_asset cwd (PullComparer clean dry) origin local ;; ret false) s.
Proof.
  intro H; unfold validate; step; rewrite H; reflexivity.
Qed.

Lemma validate_push_missing_origin (cwd : path) (clean dry : bool)
    (origin local : path) (s : state) :
  isdir (fs s) local = true ->
  isdir (fs s) origin = false ->
  validate cwd (PushComparer clean dry) origin local s =
  (copy_asset cwd (PushComparer clean dry) local origin ;; ret false) s.
Proof.
  intros H1 H2; unfold validate; step; rewrite H1; cbn [negb].
  step; rewrite H2; reflexivity.
Qed.

(** A report step over two directories that mirror one another. *)
Lemma diff_step_in_sync (cwd : path) (fuel : nat) (origin local : path)
    (le re : entries) (s : state) :
  lookup (fs s) origin = Some (Dir le) ->
  lookup (fs s) local = Some (Dir re) ->
  mirrored le re -> mirrored re le ->
  height (Dir le) <= fuel ->
  exists new,
    sync_step cwd fuel DiffComparer origin local s =
      (Ok tt, mkState (fs s) (out s) (log s ++ new)) /\
    Forall nothing_to_do new.
Proof.
  intros Ho Hl Hlr Hrl Hh.
  assert (V : validate cwd DiffComparer origin local s = (Ok true, s)).
  { unfold validate.
    step; unfold isdir at 1; rewrite Hl; cbn [negb].
    step; unfold isdir at 1; rewrite Ho; reflexivity. }
  unfold sync_step; erewrite bind_ok by exact V; cbn [negb].
  exact (in_sync_walk cwd DiffComparer (fs s) fuel origin local le re
           Ho Hl Hlr Hrl Hh s eq_refl).
Qed.

(** X13.  The bootstrap of [pull], under these conditions: the origin
    folder is a directory; the local asset folder does not exist, no
    regular file stands on its way, and it does not lie inside the
    origin folder; the working directory holds no regular file [.meta],
    and the path of that file is neither the local path nor a path
    inside it.  Then a [pull] step with preview off copies the origin
    folder to the local path, making the missing ancestors, and skips
    the walk; the local folder then holds the entries of the origin, the
    origin is as before, and so is every path apart from the local
    folder.  A report step that follows, with fuel for the height of the
    folder, finds nothing: it prints nothing and every comparison is
    empty. *)
Theorem pull_bootstrap_copies_origin
    (cwd : path) (fuel fuel' : nat) (clean : bool) (origin local : path)
    (le : entries) (s : state) :
  lookup (fs s) origin = Some (Dir le) ->
  lookup (fs s) local = None ->
  missing_errno (fs s) local = ENOENT ->
  prefix origin local = false ->
  isfile (fs s) (cwd ++ [".meta"]) = false ->
  prefix local (cwd ++ [".meta"]) = false ->
  height (Dir le) <= fuel' ->
  exists t',
    sync_step cwd fuel (PullComparer clean false) origin local s =
      (Ok tt, mkState t' (out s ++ [MsgCopying origin local]) (log s)) /\
    lookup t' local = Some (Dir le) /\
    lookup t' origin = Some (Dir le) /\
    (forall q, apart local q -> lookup t' q = lookup (fs s) q) /\
    (forall s1, fs s1 = t' ->
       exists new,
         sync_step cwd fuel' DiffComparer origin local s1 =
           (Ok tt, mkState t' (out s1) (log s1 ++ new)) /\
         Forall nothing_to_do new).
Proof.
  intros Ho Hl He Hpre Hm Hout Hh.
  assert (Hrec : receives (fs s) local (Dir le)) by (split; assumption).
  destruct (copy_asset_to cwd (PullComparer clean false) origin local
              (Dir le) s eq_refl Ho Hrec Hpre Hm Hout) as (t' & St & E).
  pose proof (lookup_store_same _ _ _ _ St) as Ll.
  assert (Lo : lookup t' origin = Some (Dir le)).
  { rewrite (lookup_store_apart _ _ _ _ _ St
               (receives_apart _ _ _ _ Ho Hrec Hpre)); exact Ho. }
  exists t'; repeat split; auto.
  - unfold sync_step.
    erewrite bind_ok.
    2:{ rewrite validate_pull_missing_local
          by (unfold isdir; rewrite Hl; reflexivity).
        erewrite bind_ok by exact E; reflexivity. }
    reflexivity.
  - intros q Hq; exact (lookup_store_apart _ _ _ _ _ St Hq).
  - intros s1 <-.
    apply (diff_step_in_sync cwd fuel' origin local le le); auto;
      apply mirrored_refl.
Qed.

Lemma pull_bootstrap_witness :
  exists t',
    sync_step sample_cwd 0 (PullComparer false false) origin_w local_w
      (start bootstrap_tree)
    = (Ok tt, mkState t' ([] ++ [MsgCopying origin_w local_w]) []) /\
    lookup t' local_w = Some (Dir bootstrap_entries) /\
    lookup t' origin_w = Some (Dir bootstrap_entries) /\
    (forall q, apart local_w q -> lookup t' q = lookup bootstrap_tree q) /\
    (forall s1, fs s1 = t' ->
       exists new,
         sync_step sample_cwd 1 DiffComparer origin_w local_w s1 =
           (Ok tt, mkState t' (out s1) (log s1 ++ new)) /\
         Forall nothing_to_do new).
Proof.
  apply (pull_bootstrap_copies_origin sample_cwd 0 1 false origin_w local_w
           bootstrap_entries (start bootstrap_tree));
    first [reflexivity | vm_compute; lia].
Defined.

(** X14.  The bootstrap of [push], under these conditions: the local
    asset folder is a directory; the origin folder does not exist, no
    regular file stands on its way, and it does not lie inside the
    local folder; the working directory holds no regular file [.meta],
    and the path of that file is neither the origin path nor a path
    inside it.  Then a [push] step with preview off copies the local
    folder to the origin path, making the missing ancestors, and skips
    the walk; the origin folder then holds the entries of the local one,
    the local folder is as before, and so is every path apart from the
    origin folder.  A report step that follows, with fuel for the height
    of the folder, finds nothing: it prints nothing and every comparison
    is empty. *)
Theorem push_bootstrap_copies_local
    (cwd : path) (fuel fuel' : nat) (clean : bool) (origin local : path)
    (re : entries) (s : state) :
  lookup (fs s) local = Some (Dir re) ->
  lookup (fs s) origin = None ->
  missing_errno (fs s) origin = ENOENT ->
  prefix local origin = false ->
  isfile (fs s) (cwd ++ [".meta"]) = false ->
  prefix origin (cwd ++ [".meta"]) = false ->
  height (Dir re) <= fuel' ->
  exists t',
    sync_step cwd fuel (PushComparer clean false) origin local s =
      (Ok tt, mkState t' (out s ++ [MsgCopying local origin]) (log s)) /\
    lookup t' origin = Some (Dir re) /\
    lookup t' local = Some (Dir re) /\
    (forall q, apart origin q -> lookup t' q = lookup (fs s) q) /\
    (forall s1, fs s1 = t' ->
       exists new,
         sync_step cwd fuel' DiffComparer origin local s1 =
           (Ok tt, mkState t' (out s1) (log s1 ++ new)) /\
         Forall nothing_to_do new).
Proof.
  intros Hl Ho He Hpre Hm Hout Hh.
  assert (Hrec : receives (fs s) origin (Dir re)) by (split; assumption).
  destruct (copy_asset_to cwd (PushComparer clean false) local origin
              (Dir re) s eq_refl Hl Hrec Hpre Hm Hout) as (t' & St & E).
  pose proof (lookup_store_same _ _ _ _ St) as Lo.
  assert (Ll : lookup t' local = Some (Dir re)).
  { rewrite (lookup_store_apart _ _ _ _ _ St
               (receives_apart _ _ _ _ Hl Hrec Hpre)); exact Hl. }
  exists t'; repeat split; auto.
  - unfold sync_step.
    erewrite bind_ok.
    2:{ rewrite validate_push_missing_origin
          by (unfold isdir; rewrite ?Hl, ?Ho; reflexivity).
        erewrite bind_ok by exact E; reflexivity. }
    reflexivity.
  - intros q Hq; exact (lookup_store_apart _ _ _ _ _ St Hq).
  - intros s1 <-.
    apply (diff_step_in_sync cwd fuel' origin local re re); auto;
      apply mirrored_refl.
Qed.

Lemma push_bootstrap_witness :
  exists t',
    sync_step sample_cwd 0 (PushComparer false false) origin_w local_w
      (start push_bootstrap_tree)
    = (Ok tt, mkState t' ([] ++ [MsgCopying local_w origin_w]) []) /\
    lookup t' origin_w = Some (Dir bootstrap_entries) /\
    lookup t' local_w = Some (Dir bootstrap_entries) /\
    (forall q, apart origin_w q ->
               lookup t' q = lookup push_bootstrap_tree q) /\
    (forall s1, fs s1 = t' ->
       exists new,
         sync_step sample_cwd 1 DiffComparer origin_w local_w s1 =
           (Ok tt, mkState t' (out s1) (log s1 ++ new)) /\
         Forall nothing_to_do new).
Proof.
  apply (push_bootstrap_copies_local sample_cwd 0 1 false origin_w local_w
           bootstrap_entries (start push_bootstrap_tree));
    first [reflexivity | vm_compute; lia].
Defined.

(** X15.  An asset that exists on neither side: the origin path holds
    nothing and the local path is no directory.  [validate] of the pull
    policy (preview off) announces the bootstrap copy and raises the
    [OSError] of copying a source that is not there, which ends the run;
    the push policy returns false without a word; the report policy
    prints the origin path as left-only and returns false.  The file
    system is as before in all three cases. *)
Theorem validate_when_both_missing
    (cwd : path) (clean : bool) (origin local : path) (s : state) :
  lookup (fs s) origin = None ->
  isdir (fs s) local = false ->
  validate cwd (PullComparer clean false) origin local s =
    (Raise (OSError (missing_errno (fs s) origin)),
     mkState (fs s) (out s ++ [MsgCopying origin local]) (log s)) /\
  validate cwd (PushComparer clean false) origin local s = (Ok false, s) /\
  validate cwd DiffComparer origin local s =
    (Ok false, mkState (fs s) (out s ++ [MsgL origin]) (log s)).
Proof.
  intros Ho Hl; repeat split.
  - rewrite validate_pull_missing_local by exact Hl.
    apply bind_raise.
    unfold copy_asset; step; cbn [preview].
    apply bind_raise.
    step; unfold isdir at 1; rewrite Ho.
    unfold syscall, copy2; cbn [fs out log]; rewrite Hl.
    unfold exists_; rewrite Ho; reflexivity.
  - unfold validate; step; rewrite Hl; reflexivity.
  - unfold validate; step; rewrite Hl; cbn [negb]; step; reflexivity.
Qed.

Lemma validate_when_both_missing_witness :
  fst (validate sample_cwd (PullComparer false false)
         ["o"; "Assets"; "z"] ["l"; "Assets"; "z"] (start no_manifest_tree))
  = Raise (OSError ENOENT).
Proof.
  rewrite (proj1 (validate_when_both_missing sample_cwd false
                    ["o"; "Assets"; "z"] ["l"; "Assets"; "z"]
                    (start no_manifest_tree) eq_refl eq_refl));
    reflexivity.
Defined.

(** ** What a report prints *)












(** ** The steps of a run *)

Lemma bind_ext {A B} (m : M A) (f g : A -> M B) (s : state) :
  (forall a s', f a s' = g a s') -> bind m f s = bind m g s.
Proof.
  intro H; unfold bind; destruct (m s) as [[a|e|] s1]; auto.
Qed.


Lemma foreach_ext {A} (xs : list A) (f g : A -> M unit) :
  (forall x s, f x s = g x s) -> forall s, foreach xs f s = foreach xs g s.
Proof.
  intro H; induction xs as [|x xs IH]; intro s; cbn [foreach]; [reflexivity|].
  unfold bind; rewrite H; destruct (g x s) as [[a|e|] s1]; auto.
Qed.







(** ** What an acting policy does *)

Lemma files_equal_sym (a b : node) : files_equal a b = files_equal b a.
Proof.
  destruct a as [m d|a], b as [m' d'|b]; simpl; try reflexivity.
  rewrite (Nat.eqb_sym (String.length d') (String.length d)).
  rewrite (Nat.eqb_sym m' m), (String.eqb_sym d' d); reflexivity.
Qed.

(** The entries of the target directory after one level of a walk mirror
    the source entries, and are mirrored by them when the policy cleans.
    [so], [do], [df] and [cd] are the names on the source side only, on
    the target side only, of the differing files and of the common
    directories; [es] are the entries the level leaves. *)
Lemma level_mirrors (clean : bool) (se de es : entries)
    (so do df cd : list string) :
  (forall n, In n so <->
     get_ent n se <> None /\ get_ent n de = None /\ ignored n = false) ->
  (forall n, In n do <->
     get_ent n de <> None /\ get_ent n se = None /\ ignored n = false) ->
  (forall n, In n df <->
     ignored n = false /\
     exists m d m' d', get_ent n se = Some (File m d) /\
                       get_ent n de = Some (File m' d') /\
                       files_equal (File m d) (File m' d') = false) ->
  (forall n, In n cd <->
     ignored n = false /\
     exists a b, get_ent n se = Some (Dir a) /\ get_ent n de = Some (Dir b)) ->
  (forall n a, In n cd -> get_ent n se = Some (Dir a) ->
     exists b, get_ent n es = Some (Dir b) /\
               mirrored a b /\ (clean = true -> mirrored b a)) ->
  (forall n, ~ In n cd -> In n so \/ In n df ->
     get_ent n es = get_ent n se) ->
  (clean = true -> forall n, ~ In n cd -> In n do -> get_ent n es = None) ->
  (forall n, ~ In n cd -> ~ In n so -> ~ In n df ->
     (clean = true -> ~ In n do) -> get_ent n es = get_ent n de) ->
  mirrored se es /\
  (clean = true -> mirrored es se) /\
  (clean = false ->
   forall n, get_ent n se = None -> get_ent n es = get_ent n de).
Proof.
  intros Hso Hdo Hdf Hcd Hsub Hcopy Hdel Hkeep.
  assert (Rest : forall n c c', ignored n = false ->
            ~ In n cd -> ~ In n df ->
            get_ent n se = Some c -> get_ent n de = Some c' ->
            mirrors c c' /\ mirrors c' c).
  { intros n c c' Hi Ncd Ndf Gs Gd.
    destruct c as [m d|a], c' as [m' d'|b].
    - assert (E : files_equal (File m d) (File m' d') = true).
      { destruct (files_equal (File m d) (File m' d')) eqn:Ef; [reflexivity|].
        exfalso; apply Ndf, Hdf; split; [exact Hi | eauto 8]. }
      split; apply mirrors_file; [|rewrite files_equal_sym]; exact E.
    - split; constructor.
    - split; constructor.
    - exfalso; apply Ncd, Hcd; split; [exact Hi | eauto]. }
  split; [|split].
  - (* every source entry has its mirror *)
    apply mirrored_entries; intros n c Hi Hc.
    destruct (in_dec string_dec n cd) as [Icd|Ncd].
    { pose proof (proj1 (Hcd n) Icd) as (_ & a & b & Ga & Gb).
      destruct (Hsub n a Icd Ga) as (b' & Gb' & S1 & _).
      exists (Dir b'); split; [exact Gb'|].
      rewrite Hc in Ga; injection Ga as ->; apply mirrors_dir, S1. }
    destruct (in_dec string_dec n so) as [Iso|Nso].
    { exists c; rewrite Hcopy; auto using mirrors_refl. }
    destruct (in_dec string_dec n df) as [Idf|Ndf].
    { exists c; rewrite Hcopy; auto using mirrors_refl. }
    assert (Ndo : ~ In n do) by (intro H; apply Hdo in H; intuition congruence).
    rewrite Hkeep by auto.
    destruct (get_ent n de) as [c'|] eqn:Gd.
    + exists c'; split; [reflexivity|].
      exact (proj1 (Rest n c c' Hi Ncd Ndf Hc Gd)).
    + exfalso; apply Nso, Hso; rewrite Hc; repeat split;
        try discriminate; auto.
  - (* with the clean flag, every entry that is left mirrors a source
       entry *)
    intro Hcl; apply mirrored_entries; intros n c Hi Hc.
    destruct (in_dec string_dec n cd) as [Icd|Ncd].
    { pose proof (proj1 (Hcd n) Icd) as (_ & a & b & Ga & Gb).
      destruct (Hsub n a Icd Ga) as (b' & Gb' & _ & S2).
      exists (Dir a); split; [exact Ga|].
      rewrite Hc in Gb'; injection Gb' as ->; apply mirrors_dir, S2, Hcl. }
    destruct (in_dec string_dec n so) as [Iso|Nso].
    { exists c; rewrite <- Hcopy; auto using mirrors_refl. }
    destruct (in_dec string_dec n df) as [Idf|Ndf].
    { exists c; rewrite <- Hcopy; auto using mirrors_refl. }
    destruct (in_dec string_dec n do) as [Ido|Ndo].
    { rewrite Hdel in Hc by assumption; discriminate. }
    rewrite Hkeep in Hc by auto.
    destruct (get_ent n se) as [c0|] eqn:Gs.
    + exists c0; split; [reflexivity|].
      exact (proj2 (Rest n c0 c Hi Ncd Ndf Gs Hc)).
    + exfalso; apply Ndo, Hdo; rewrite Hc; repeat split;
        try discriminate; auto.
  - (* without it, the names that the source lacks are left alone *)
    intros Hcl n Gs; apply Hkeep.
    + intro H; apply Hcd in H; destruct H as (_ & a & b & Ga & _); congruence.
    + intro H; apply Hso in H; tauto.
    + intro H; apply Hdf in H.
      destruct H as (_ & m & d & m' & d' & Ga & _); congruence.
    + congruence.
Qed.

(** The common directories and the differing files, from the entries. *)
Lemma entries_classes (le re : entries) (common : list string) :
  (forall n, In n common <->
     get_ent n le <> None /\ get_ent n re <> None /\ ignored n = false) ->
  (forall d, In d (filter (fun x => is_dir_class (classify_entries le re x))
                     common)
     <-> ignored d = false /\
         exists a b, get_ent d le = Some (Dir a) /\
                     get_ent d re = Some (Dir b)) /\
  (forall n, In n (filter (differs le re)
                     (filter (fun x => is_file_class (classify_entries le re x))
                        common))
     <-> ignored n = false /\
         exists m d m' d',
           get_ent n le = Some (File m d) /\
           get_ent n re = Some (File m' d') /\
           files_equal (File m d) (File m' d') = false).
Proof.
  intros Hco; split.
  - intro d; rewrite filter_In, Hco; unfold classify_entries; split.
    + intros [(_ & _ & Hi) Hd]; split; [exact Hi|].
      destruct (get_ent d le) as [[m x|a]|]; try discriminate;
        destruct (get_ent d re) as [[m' x'|b]|]; try discriminate; eauto.
    + intros (Hi & a & b & -> & ->); repeat split; try discriminate; auto.
  - intro n; rewrite !filter_In, Hco; unfold classify_entries, differs; split.
    + intros [[(_ & _ & Hi) Hf] Hd]; split; [exact Hi|].
      destruct (get_ent n le) as [[m x|a]|]; try discriminate;
        destruct (get_ent n re) as [[m' x'|b]|]; try discriminate.
      exists m, x, m', x'; repeat split.
      destruct (files_equal (File m x) (File m' x')); [discriminate|reflexivity].
    + intros (Hi & m & d & m' & d' & -> & -> & Hne).
      rewrite Hne; repeat split; try discriminate; auto.
Qed.

(** [phase2] and [phase3] in a state that holds the entries [le] and
    [re] under the common names. *)
Lemma phases_pure (t : node) (l r : path) (le re : entries)
    (common : list string) :
  (forall n, In n common ->
     lookup t (l ++ [n]) = get_ent n le /\
     lookup t (r ++ [n]) = get_ent n re) ->
  phase2 t l r common =
    (filter (fun x => is_dir_class (classify_entries le re x)) common,
     filter (fun x => is_file_class (classify_entries le re x)) common,
     filter (fun x => is_funny_class (classify_entries le re x)) common) /\
  phase3 t l r
    (filter (fun x => is_file_class (classify_entries le re x)) common) =
    filter (differs le re)
      (filter (fun x => is_file_class (classify_entries le re x)) common).
Proof.
  intro L.
  assert (C : forall n, In n common ->
                classify t l r n = classify_entries le re n).
  { intros n Hn; destruct (L n Hn) as [Ll Lr].
    unfold classify, classify_entries; rewrite Ll, Lr; reflexivity. }
  split.
  - unfold phase2; f_equal; [f_equal|]; apply filter_ext_in; intros n Hn;
      rewrite (C n Hn); reflexivity.
  - unfold phase3; apply filter_ext_in; intros n Hn.
    apply filter_In in Hn; destruct Hn as [Hn Hf].
    destruct (L n Hn) as [Ll Lr].
    unfold classify_entries, differs in *.
    destruct (get_ent n le) as [[m x|a]|]; try discriminate;
      destruct (get_ent n re) as [[m' x'|b]|]; try discriminate.
    rewrite (cmp_files _ _ _ _ _ Ll Lr).
    destruct (files_equal (File m x) (File m' x')); reflexivity.
Qed.

(** The loops of one level, for a policy with preview off that writes
    into the directory [dst] from the directory [src]. *)
Section ActingLevel.

Variable cwd : path.
Variables src dst : path.
Variable se : entries.
Variable s0 : state.
Variable self : comparer.

Hypothesis preview_off : preview self = false.
Hypothesis meta_outside : prefix dst (relative cwd [".meta"]) = false.
Hypothesis roots_apart : apart src dst.
Hypothesis source_dir : lookup (fs s0) src = Some (Dir se).

Lemma source_entry (n : string) (es : entries) (s : state) :
  at_level cwd dst s0 es s -> lookup (fs s) (src ++ [n]) = get_ent n se.
Proof.
  intros (_ & Hf & _).
  rewrite Hf; [apply lookup_child; exact source_dir|].
  apply apart_sym, apart_below, roots_apart.
Qed.

Lemma copy_loop (mk : string -> event) (names : list string) (es : entries)
    (s : state) :
  NoDup names -> (forall n, In n names -> pushable se n es) ->
  at_level cwd dst s0 es s ->
  exists s',
    foreach names (fun name =>
      record (mk name) ;;
      copy_asset cwd self (src ++ [name]) (dst ++ [name])) s = (Ok tt, s') /\
    at_level cwd dst s0 (fold_left (fun es n => pushed se n es) names es) s'.
Proof.
  apply (level_loop cwd dst s0 _ (pushed se) (pushable se)).
  - intros n es' s' Hat (c & Hc & Hfree); step.
    unfold pushed; rewrite Hc.
    apply (copy_asset_at_level cwd dst s0 meta_outside self);
      [exact preview_off | exact Hat | | | exact Hfree].
    + rewrite <- Hc; apply (source_entry n es'); exact Hat.
    + apply (apart_below_both src dst [n] [n]), roots_apart.
  - intros n m es' Hnm (c & Hc & Hfree); exists c; split; [exact Hc|].
    rewrite get_pushed_other by congruence; exact Hfree.
Qed.

Lemma remove_loop (mk : string -> event) (names : list string) (es : entries)
    (s : state) :
  NoDup names -> (forall n, In n names -> get_ent n es <> None) ->
  at_level cwd dst s0 es s ->
  exists s',
    foreach names (fun name =>
      record (mk name) ;;
      remove_asset self (dst ++ [name])) s = (Ok tt, s') /\
    at_level cwd dst s0 (fold_left (fun es n => del_ent n es) names es) s'.
Proof.
  apply (level_loop cwd dst s0 _ (fun n es => del_ent n es)
           (fun n es => get_ent n es <> None)).
  - intros n es' s' Hat Hn; step.
    apply (remove_asset_at_level cwd dst s0 meta_outside self);
      [exact preview_off | exact Hat | exact Hn].
  - intros n m es' Hnm Hn; rewrite get_del_other; auto.
Qed.

Lemma skip_loop (mk : string -> event) (names : list string) (es : entries)
    (s : state) :
  at_level cwd dst s0 es s ->
  exists s',
    foreach names (fun name => record (mk name) ;; ret tt) s = (Ok tt, s') /\
    at_level cwd dst s0 es s'.
Proof.
  revert s; induction names as [|n names IH]; intros s Hat; simpl.
  - exists s; split; [reflexivity | exact Hat].
  - destruct (IH (mkState (fs s) (out s) (log s ++ [mk n])))
      as (s' & E & Hat'); [exact Hat|].
    exists s'; split; [|exact Hat'].
    erewrite bind_ok by reflexivity; exact E.
Qed.

End ActingLevel.

Lemma bind_inv {A B} (m : M A) (f : A -> M B) (s s' : state) (b : B) :
  bind m f s = (Ok b, s') ->
  exists a s1, m s = (Ok a, s1) /\ f a s1 = (Ok b, s').
Proof.
  unfold bind; destruct (m s) as [[a|e|] s1]; try discriminate.
  intro H; exists a, s1; auto.
Qed.

(** The log of a loop of handler calls that returns. *)
Lemma foreach_calls_log (mk : string -> event) (h : string -> M unit)
    (names : list string) :
  (forall n, silent (h n)) ->
  forall s s',
    foreach names (fun n => record (mk n) ;; h n) s = (Ok tt, s') ->
    log s' = log s ++ map mk names.
Proof.
  intro Hh; induction names as [|n names IH]; intros s s' E; cbn [foreach] in E.
  - injection E as <-; rewrite app_nil_r; reflexivity.
  - apply bind_inv in E; destruct E as ([] & s1 & E1 & E2).
    rewrite (IH _ _ E2).
    erewrite bind_ok in E1 by reflexivity.
    pose proof (silent_log (h n) (mkState (fs s) (out s) (log s ++ [mk n]))
                  (Hh n)) as L.
    rewrite E1 in L; cbn [snd log] in L.
    rewrite L, <- app_assoc; reflexivity.
Qed.

(** A loop over entries of [dst], each step of which writes below its
    own entry and logs the events [ev]. *)
Lemma sibling_loop (dst : path) (Inv : state -> Prop)
    (body : string -> M unit) (Pre Post : string -> node -> Prop)
    (ev : string -> list event) :
  (forall d s, Pre d (fs s) -> Inv s ->
     exists s', body d s = (Ok tt, s') /\
       (forall q, apart (dst ++ [d]) q ->
                  lookup (fs s') q = lookup (fs s) q) /\
       Post d (fs s') /\ Inv s' /\ log s' = log s ++ ev d) ->
  (forall d ds t t', ~ In d ds ->
     (forall q, (forall d', In d' ds -> apart (dst ++ [d']) q) ->
                lookup t' q = lookup t q) ->
     (Pre d t -> Pre d t') /\ (Post d t -> Post d t')) ->
  forall names s,
    NoDup names -> (forall d, In d names -> Pre d (fs s)) -> Inv s ->
    exists s',
      foreach names body s = (Ok tt, s') /\
      (forall q, (forall d, In d names -> apart (dst ++ [d]) q) ->
                 lookup (fs s') q = lookup (fs s) q) /\
      (forall d, In d names -> Post d (fs s')) /\
      Inv s' /\
      log s' = log s ++ flat_map ev names.
Proof.
  intros Hbody Hstable names; induction names as [|d names IH];
    intros s Hnd Hpre Hinv; cbn [foreach flat_map].
  - exists s; rewrite app_nil_r; repeat split; auto; contradiction.
  - inversion Hnd as [|? ? Hd Hnd']; subst.
    destruct (Hbody d s (Hpre d (or_introl eq_refl)) Hinv)
      as (s1 & E1 & F1 & P1 & I1 & L1).
    destruct (IH s1 Hnd') as (s2 & E2 & F2 & P2 & I2 & L2); [|exact I1|].
    { intros d' Hd'.
      assert (Hn : ~ In d' [d]) by (intros [->|[]]; contradiction).
      assert (Hf : forall q, (forall x, In x [d] -> apart (dst ++ [x]) q) ->
                             lookup (fs s1) q = lookup (fs s) q)
        by (intros q Hq; apply F1, Hq; left; reflexivity).
      apply (proj1 (Hstable d' [d] (fs s) (fs s1) Hn Hf)).
      apply Hpre; right; exact Hd'. }
    exists s2; split; [erewrite bind_ok by exact E1; exact E2|].
    split; [|split; [|split; [exact I2|]]].
    + intros q Hq.
      rewrite F2 by (intros d' Hd'; apply Hq; right; exact Hd').
      apply F1, Hq; left; reflexivity.
    + intros d' [<-|Hd']; [|exact (P2 d' Hd')].
      exact (proj2 (Hstable d names (fs s1) (fs s2) Hd F2) P1).
    + rewrite L2, L1, app_assoc; reflexivity.
Qed.

Lemma acts_cases (c : comparer) :
  acts c = true ->
  exists cl, c = PullComparer cl false \/ c = PushComparer cl false.
Proof.
  destruct c as [|cl [|]|cl [|]]; try discriminate; intros _; exists cl; auto.
Qed.

Lemma acts_preview (c : comparer) : acts c = true -> preview c = false.
Proof. destruct c as [|cl [|]|cl [|]]; try discriminate; reflexivity. Qed.

Section ActingWalk.

Variable cwd : path.

(** The handlers for the one-sided names: an acting policy copies the
    names that only the source has and, with the clean flag, removes
    those that only the target has. *)
Lemma one_sided (c : comparer) (l r : path) (le re : entries)
    (lo ro : list string) (s : state) :
  acts c = true ->
  lookup (fs s) l = Some (Dir le) ->
  lookup (fs s) r = Some (Dir re) ->
  apart l r ->
  isfile (fs s) (relative cwd [".meta"]) = false ->
  prefix (target c l r) (relative cwd [".meta"]) = false ->
  (forall n, In n lo <->
     get_ent n le <> None /\ get_ent n re = None /\ ignored n = false) ->
  (forall n, In n ro <->
     get_ent n re <> None /\ get_ent n le = None /\ ignored n = false) ->
  NoDup lo -> NoDup ro ->
  exists s1 s2 es2,
    foreach lo (fun name =>
      record (Call HLeftOnly l r name) ;;
      left_only cwd c l r name) s = (Ok tt, s1) /\
    foreach ro (fun name =>
      record (Call HRightOnly l r name) ;;
      right_only cwd c l r name) s1 = (Ok tt, s2) /\
    at_level cwd (target c l r) s es2 s2 /\
    log s2 = log s ++ map (Call HLeftOnly l r) lo
                   ++ map (Call HRightOnly l r) ro /\
    (forall n, In n (source c lo ro) ->
               get_ent n es2 = get_ent n (source c le re)) /\
    (cleans c = true ->
     forall n, In n (target c lo ro) -> get_ent n es2 = None) /\
    (forall n, ~ In n (source c lo ro) ->
               (cleans c = true -> ~ In n (target c lo ro)) ->
               get_ent n es2 = get_ent n (target c le re)).
Proof.
  intros Hc Hl Hr Hlr Hm Hmeta Hlo Hro Nlo Nro.
  pose proof (apart_sym _ _ Hlr) as Hrl.
  assert (Dis : forall n, In n lo -> In n ro -> False)
    by (intros n H1 H2; apply Hlo in H1; apply Hro in H2; tauto).
  assert (Pushed : forall se names es n,
            In n names -> get_ent n se <> None ->
            get_ent n (fold_left (fun es n => pushed se n es) names es)
            = get_ent n se).
  { intros se names es n Hn Hs.
    destruct (get_ent n se) as [x|] eqn:G; [|congruence].
    apply get_fold_pushed; assumption. }
  assert (Kept : forall se names es n,
            ~ In n names ->
            get_ent n (fold_left (fun es n => pushed se n es) names es)
            = get_ent n es).
  { intros se names es n Hn; apply (get_fold_other (pushed se)); [|exact Hn].
    intros; apply get_pushed_other; assumption. }
  assert (Left : forall names es n,
            ~ In n names ->
            get_ent n (fold_left (fun es n => del_ent n es) names es)
            = get_ent n es).
  { intros names es n Hn.
    apply (get_fold_other (fun n es => del_ent n es)); [|exact Hn].
    intros; apply get_del_other; assumption. }
  destruct (acts_cases c Hc) as [cl [-> | ->]]; cbn [source target cleans] in *.
  - (* pull: copy the origin-only names, then see to the local-only ones *)
    assert (A0 : at_level cwd r s re s) by (repeat split; auto).
    destruct (copy_loop cwd l r le s (PullComparer cl false) eq_refl Hmeta
                Hlr Hl (fun n => Call HLeftOnly l r n) lo re s Nlo)
      as (s1 & E1 & A1); [| exact A0 |].
    { intros n Hn; apply Hlo in Hn; destruct Hn as (Hn1 & Hn2 & Hn3).
      destruct (get_ent n le) as [x|] eqn:Ec; [|congruence].
      exists x; split; [exact Ec|].
      destruct x; [intros es'; rewrite Hn2; discriminate | exact Hn2]. }
    pose proof (foreach_calls_log _ _ lo
                  (fun n => silent_copy_asset cwd _ _ _) _ _ E1) as L1.
    destruct cl.
    + destruct (remove_loop cwd r s (PullComparer true false) eq_refl Hmeta
                  (fun n => Call HRightOnly l r n) ro
                  (fold_left (fun es n => pushed le n es) lo re) s1 Nro)
        as (s2 & E2 & A2); [| exact A1 |].
      { intros n Hn; rewrite Kept by (intro H; exact (Dis n H Hn)).
        apply Hro in Hn; tauto. }
      pose proof (foreach_calls_log _ _ ro
                    (fun n => silent_remove_asset _ _) _ _ E2) as L2.
      exists s1, s2; eexists; split; [exact E1|].
      split; [exact E2|]; split; [exact A2|].
      split; [rewrite L2, L1, <- app_assoc; reflexivity|].
      split; [|split].
      * intros n Hn; rewrite Left by (intro H; exact (Dis n Hn H)).
        apply Pushed; [exact Hn | apply Hlo in Hn; tauto].
      * intros _ n Hn; apply get_fold_del; exact Hn.
      * intros n N1 N2; rewrite Left, Kept; auto.
    + destruct (skip_loop cwd r s (fun n => Call HRightOnly l r n) ro
                  (fold_left (fun es n => pushed le n es) lo re) s1 A1)
        as (s2 & E2 & A2).
      pose proof (foreach_calls_log _ _ ro (fun n => silent_ret tt) _ _ E2)
        as L2.
      exists s1, s2; eexists; split; [exact E1|].
      split; [exact E2|]; split; [exact A2|].
      split; [rewrite L2, L1, <- app_assoc; reflexivity|].
      split; [|split].
      * intros n Hn; apply Pushed; [exact Hn | apply Hlo in Hn; tauto].
      * discriminate.
      * intros n N1 _; apply Kept; exact N1.
  - (* push: see to the origin-only names, then copy the local-only ones *)
    assert (A0 : at_level cwd l s le s) by (repeat split; auto).
    destruct cl.
    + destruct (remove_loop cwd l s (PushComparer true false) eq_refl Hmeta
                  (fun n => Call HLeftOnly l r n) lo le s Nlo)
        as (s1 & E1 & A1); [| exact A0 |].
      { intros n Hn; apply Hlo in Hn; tauto. }
      pose proof (foreach_calls_log _ _ lo
                    (fun n => silent_remove_asset _ _) _ _ E1) as L1.
      destruct (copy_loop cwd r l re s (PushComparer true false) eq_refl Hmeta
                  Hrl Hr (fun n => Call HRightOnly l r n) ro
                  (fold_left (fun es n => del_ent n es) lo le) s1 Nro)
        as (s2 & E2 & A2); [| exact A1 |].
      { intros n Hn; pose proof (Dis n) as D.
        apply Hro in Hn; destruct Hn as (Hn1 & Hn2 & Hn3).
        assert (Hfree : get_ent n
                          (fold_left (fun es n => del_ent n es) lo le) = None).
        { rewrite Left; [exact Hn2|].
          intro H; apply Hlo in H; tauto. }
        destruct (get_ent n re) as [x|] eqn:Ec; [|congruence].
        exists x; split; [exact Ec|].
        destruct x; [intros es'; rewrite Hfree; discriminate | exact Hfree]. }
      pose proof (foreach_calls_log _ _ ro
                    (fun n => silent_copy_asset cwd _ _ _) _ _ E2) as L2.
      exists s1, s2; eexists; split; [exact E1|].
      split; [exact E2|]; split; [exact A2|].
      split; [rewrite L2, L1, <- app_assoc; reflexivity|].
      split; [|split].
      * intros n Hn; apply Pushed; [exact Hn | apply Hro in Hn; tauto].
      * intros _ n Hn; rewrite Kept by (intro H; exact (Dis n Hn H)).
        apply get_fold_del; exact Hn.
      * intros n N1 N2; rewrite Kept, Left; auto.
    + destruct (skip_loop cwd l s (fun n => Call HLeftOnly l r n) lo le s A0)
        as (s1 & E1 & A1).
      pose proof (foreach_calls_log _ _ lo (fun n => silent_ret tt) _ _ E1)
        as L1.
      destruct (copy_loop cwd r l re s (PushComparer false false) eq_refl
                  Hmeta Hrl Hr (fun n => Call HRightOnly l r n) ro le s1 Nro)
        as (s2 & E2 & A2); [| exact A1 |].
      { intros n Hn; apply Hro in Hn; destruct Hn as (Hn1 & Hn2 & Hn3).
        destruct (get_ent n re) as [x|] eqn:Ec; [|congruence].
        exists x; split; [exact Ec|].
        destruct x; [intros es'; rewrite Hn2; discriminate | exact Hn2]. }
      pose proof (foreach_calls_log _ _ ro
                    (fun n => silent_copy_asset cwd _ _ _) _ _ E2) as L2.
      exists s1, s2; eexists; split; [exact E1|].
      split; [exact E2|]; split; [exact A2|].
      split; [rewrite L2, L1, <- app_assoc; reflexivity|].
      split; [|split].
      * intros n Hn; apply Pushed; [exact Hn | apply Hro in Hn; tauto].
      * discriminate.
      * intros n N1 _; apply Kept; exact N1.
Qed.

Lemma diff_copies (c : comparer) (l r : path) (n : string) (s : state) :
  acts c = true ->
  diff cwd c l r n s =
  copy_asset cwd c (source c l r ++ [n]) (target c l r ++ [n]) s.
Proof.
  intro Hc; destruct (acts_cases c Hc) as [cl [-> | ->]]; reflexivity.
Qed.

Lemma target_child (c : comparer) (l r : path) (d : string) :
  target c (l ++ [d]) (r ++ [d]) = target c l r ++ [d].
Proof. destruct c; reflexivity. Qed.

Lemma sides (c : comparer) {A} (l r : A) :
  (source c l r = l /\ target c l r = r) \/
  (source c l r = r /\ target c l r = l).
Proof. destruct c; auto. Qed.

Lemma acting_walk_holds (c : comparer) :
  acts c = true -> forall fuel, walk_spec cwd c fuel.
Proof.
  intros Hc fuel; induction fuel as [|fuel IH];
    intros l r le re s Hl Hr Hlr Hm Hmeta Hh.
  { simpl in Hh; lia. }
  pose proof (acts_preview c Hc) as Hpv.
  cbn [visit_dcmp plan].
  erewrite bind_ok by (apply phase0_dirs; eassumption).
  cbn [fst snd].
  pose proof (phase1_listing le re) as P1.
  destruct (phase1 (listing le) (listing re)) as [[common lo] ro].
  destruct P1 as (Hco & Hlo & Hro & Nco & Nlo & Nro).
  (* the one-sided names *)
  destruct (one_sided c l r le re lo ro s Hc Hl Hr Hlr Hm Hmeta Hlo Hro
              Nlo Nro)
    as (s1 & s2 & es2 & E1 & E2 & A2 & Lg2 & Gso & Gdo & Gkeep).
  erewrite bind_ok by exact E1.
  erewrite bind_ok by exact E2.
  step.
  set (src := source c l r) in *; set (dst := target c l r) in *.
  set (se := source c le re) in *; set (de := target c le re) in *.
  set (so := source c lo ro) in *; set (do := target c lo ro) in *.
  assert (Hsd : apart src dst).
  { unfold src, dst; destruct c; cbn [source target]; auto using apart_sym. }
  assert (Hsrc : lookup (fs s) src = Some (Dir se)).
  { unfold src, se; destruct c; cbn [source target]; assumption. }
  assert (Hso : forall n, In n so <->
            get_ent n se <> None /\ get_ent n de = None /\ ignored n = false).
  { unfold so, se, de; destruct c; cbn [source target]; assumption. }
  assert (Hdo : forall n, In n do <->
            get_ent n de <> None /\ get_ent n se = None /\ ignored n = false).
  { unfold do, se, de; destruct c; cbn [source target]; assumption. }
  assert (Hco' : forall n, In n common ->
            get_ent n se <> None /\ get_ent n de <> None).
  { intros n Hn; apply Hco in Hn; unfold se, de; destruct c; cbn [source target]; tauto. }
  assert (Nco_so : forall n, In n common -> ~ In n so).
  { intros n Hn H; apply Hco' in Hn; apply Hso in H; tauto. }
  assert (Nco_do : forall n, In n common -> ~ In n do).
  { intros n Hn H; apply Hco' in Hn; apply Hdo in H; tauto. }
  assert (S2 : forall n, In n common ->
            lookup (fs s2) (src ++ [n]) = get_ent n se /\
            lookup (fs s2) (dst ++ [n]) = get_ent n de).
  { intros n Hn; split.
    - exact (source_entry cwd src dst se s Hsd Hsrc n es2 s2 A2).
    - rewrite (lookup_child _ _ n _ (proj1 A2)); apply Gkeep; auto. }
  assert (L2 : forall n, In n common ->
            lookup (fs s2) (l ++ [n]) = get_ent n le /\
            lookup (fs s2) (r ++ [n]) = get_ent n re).
  { intros n Hn; destruct (S2 n Hn) as [H1 H2]; revert H1 H2.
    unfold src, dst, se, de; destruct c; cbn [source target]; auto. }
  destruct (phases_pure (fs s2) l r le re common L2) as [Ph2 Ph3].
  rewrite Ph2; cbv beta iota; rewrite Ph3.
  destruct (entries_classes le re common Hco) as [Cd Df].
  set (cd := filter (fun x => is_dir_class (classify_entries le re x)) common)
    in *.
  set (cf := filter (fun x => is_file_class (classify_entries le re x)) common)
    in *.
  set (cfunny :=
         filter (fun x => is_funny_class (classify_entries le re x)) common)
    in *.
  set (df := filter (differs le re) cf) in *.
  assert (Hdf : forall n, In n df -> In n common).
  { intros n Hn; apply filter_In in Hn; destruct Hn as [Hn _].
    apply filter_In in Hn; tauto. }
  assert (Hcd : forall n, In n cd -> In n common).
  { intros n Hn; apply filter_In in Hn; tauto. }
  assert (Cd' : forall n, In n cd <->
            ignored n = false /\
            exists a b, get_ent n se = Some (Dir a) /\
                        get_ent n de = Some (Dir b)).
  { intro n; rewrite Cd; unfold se, de; destruct c; cbn [source target];
      split; intros (Hi & a & b & Ga & Gb); eauto. }
  assert (Df' : forall n, In n df <->
            ignored n = false /\
            exists m d m' d', get_ent n se = Some (File m d) /\
                              get_ent n de = Some (File m' d') /\
                              files_equal (File m d) (File m' d') = false).
  { intro n; rewrite Df; unfold se, de; destruct c; cbn [source target]; try reflexivity.
    split; intros (Hi & m & d & m' & d' & Ga & Gb & Hne); split; auto;
      exists m', d', m, d; rewrite files_equal_sym; auto. }
  (* the differing files are copied *)
  destruct (copy_loop cwd src dst se s c Hpv Hmeta Hsd Hsrc
              (fun n => Call HDiff l r n) df es2 s2)
    as (s3 & E3 & A3); [| | exact A2 |].
  { apply NoDup_filter, NoDup_filter, Nco. }
  { intros n Hn; pose proof (Hdf n Hn) as Hcm.
    apply Df' in Hn; destruct Hn as (_ & m & d & m' & d' & Ga & Gb & _).
    exists (File m d); split; [exact Ga|].
    intros es'; rewrite Gkeep, Gb; auto; discriminate. }
  assert (E3' : foreach df (fun name =>
                  record (Call HDiff l r name) ;; diff cwd c l r name) s2
                = (Ok tt, s3)).
  { rewrite <- E3; apply foreach_ext; intros n s'.
    apply bind_ext; intros _ s''; apply diff_copies, Hc. }
  erewrite bind_ok by exact E3'.
  pose proof (foreach_calls_log _ _ df
                (fun n => silent_copy_asset cwd _ _ _) _ _ E3) as Lg3.
  set (es3 := fold_left (fun es n => pushed se n es) df es2) in *.
  assert (G3 : forall n, ~ In n df -> get_ent n es3 = get_ent n es2).
  { intros n Hn; apply (get_fold_other (pushed se)); [|exact Hn].
    intros; apply get_pushed_other; assumption. }
  step.
  assert (Ncd : forall d, In d cd -> ~ In d df).
  { intros d Hd Hd'; apply Cd in Hd; apply Df in Hd'.
    destruct Hd as (_ & a & b & Ga & _).
    destruct Hd' as (_ & m & x & m' & x' & Ga' & _); congruence. }
  (* the common directories are walked *)
  set (ev := fun d =>
         match get_ent d le, get_ent d re with
         | Some (Dir a), Some (Dir b) => plan fuel (l ++ [d]) (r ++ [d]) a b
         | _, _ => []
         end).
  match goal with
  | |- context [foreach cd ?body ?s3'] =>
      destruct (sibling_loop dst
                  (fun s => isfile (fs s) (relative cwd [".meta"]) = false)
                  body
                  (fun d t => exists a b,
                     get_ent d le = Some (Dir a) /\
                     get_ent d re = Some (Dir b) /\
                     lookup t (l ++ [d]) = Some (Dir a) /\
                     lookup t (r ++ [d]) = Some (Dir b))
                  (fun d t => forall a b,
                     get_ent d le = Some (Dir a) ->
                     get_ent d re = Some (Dir b) ->
                     exists es', lookup t (dst ++ [d]) = Some (Dir es') /\
                       mirrored (source c a b) es' /\
                       (cleans c = true -> mirrored es' (source c a b)))
                  ev)
        with (names := cd) (s := s3')
        as (s4 & E4 & F4 & O4 & M4 & Lg4)
  end.
  { intros d s' (a & b & Ga & Gb & La & Lb) Hm'.
    destruct (IH (l ++ [d]) (r ++ [d]) a b s' La Lb
                (apart_below_both l r [d] [d] Hlr) Hm')
      as (s'' & es'' & E & F & R & Mi & Mc & _ & M & Lg).
    { rewrite target_child; apply prefix_below, Hmeta. }
    { pose proof (height_get_ent _ _ _ Ga); lia. }
    rewrite target_child in F, R.
    exists s''; split; [exact E|]; split; [exact F|].
    split; [|split; [exact M|]].
    - intros a0 b0 Ga0 Gb0; exists es''; split; [exact R|].
      assert (a0 = a) by congruence; assert (b0 = b) by congruence.
      subst; auto.
    - unfold ev; rewrite Ga, Gb; exact Lg. }
  { intros d ds t t' Hd F.
    assert (Fs : lookup t' (src ++ [d]) = lookup t (src ++ [d])).
    { apply F; intros d' _.
      apply (apart_below_both dst src [d'] [d]), apart_sym, Hsd. }
    assert (Ft : lookup t' (dst ++ [d]) = lookup t (dst ++ [d])).
    { apply F; intros d' Hd'; apply (apart_siblings dst [] [] d' d).
      intros ->; contradiction. }
    assert (Fl : lookup t' (l ++ [d]) = lookup t (l ++ [d]))
      by (revert Fs Ft; unfold src, dst; destruct c; cbn [source target]; auto).
    assert (Fr : lookup t' (r ++ [d]) = lookup t (r ++ [d]))
      by (revert Fs Ft; unfold src, dst; destruct c; cbn [source target]; auto).
    rewrite Fl, Fr, Ft; auto. }
  { apply NoDup_filter, Nco. }
  { intros d Hd; pose proof (Hcd d Hd) as Hcm.
    pose proof (proj1 (Cd d) Hd) as (_ & a & b & Ga & Gb).
    pose proof (proj1 (Cd' d) Hd) as (_ & a' & b' & Ga' & Gb').
    assert (Ss : lookup (fs s3) (src ++ [d]) = get_ent d se)
      by exact (source_entry cwd src dst se s Hsd Hsrc d es3 s3 A3).
    assert (St : lookup (fs s3) (dst ++ [d]) = get_ent d de).
    { rewrite (lookup_child _ _ d _ (proj1 A3)), G3 by auto.
      apply Gkeep; auto. }
    exists a, b; cbn [fs]; split; [exact Ga|]; split; [exact Gb|].
    revert Ss St Ga Gb; unfold src, dst, se, de; destruct c; cbn [source target];
      intros -> -> Ga Gb; auto. }
  { exact (proj2 (proj2 A3)). }
  cbn [fs log] in *.
  assert (R4 : exists es4, lookup (fs s4) dst = Some (Dir es4)).
  { destruct (empty_or_In cd) as [He|[d0 Hd0]].
    - exists es3; rewrite F4; [exact (proj1 A3)|].
      intros d Hd; destruct (He d Hd).
    - pose proof (proj1 (Cd d0) Hd0) as (_ & a & b & Ga & Gb).
      destruct (O4 d0 Hd0 a b Ga Gb) as (es' & R & _).
      exact (lookup_parent_dir _ _ _ _ R). }
  destruct R4 as [es4 R4].
  assert (Other : forall n, ~ In n cd -> get_ent n es4 = get_ent n es3).
  { intros n Hn; rewrite <- (lookup_child _ _ n _ R4), F4.
    - apply lookup_child; exact (proj1 A3).
    - intros d Hd; apply (apart_siblings dst [] [] d n); intros ->.
      contradiction. }
  destruct (level_mirrors (cleans c) se de es4 so do df cd Hso Hdo Df' Cd')
    as (Mi & Mc & Mk).
  { intros n a Hn Ga.
    pose proof (proj1 (Cd n) Hn) as (_ & a0 & b0 & Ga0 & Gb0).
    destruct (O4 n Hn a0 b0 Ga0 Gb0) as (b & R & Sy1 & Sy2).
    assert (source c a0 b0 = a).
    { revert Ga; unfold se; destruct c; cbn [source target]; congruence. }
    subst a; exists b; split; [|split; assumption].
    rewrite <- (lookup_child _ _ n _ R4); exact R. }
  { intros n Hn [Ho|Hf]; rewrite Other by exact Hn.
    - destruct (in_dec string_dec n df) as [Idf|Ndf].
      + destruct (get_ent n se) as [x|] eqn:Gx;
          [|apply Hso in Ho; tauto].
        apply get_fold_pushed; assumption.
      + rewrite G3 by exact Ndf; apply Gso, Ho.
    - pose proof (proj1 (Df' n) Hf) as (_ & m & d & m' & d' & Ga & _).
      rewrite Ga; apply get_fold_pushed; assumption. }
  { intros Hcl n Hn Ho.
    assert (Ndf : ~ In n df) by (intro H; exact (Nco_do n (Hdf n H) Ho)).
    rewrite Other, G3 by assumption; apply Gdo; assumption. }
  { intros n Hn Nso Ndf Ndo; rewrite Other, G3 by assumption.
    apply Gkeep; assumption. }
  exists s4, es4; split; [exact E4|].
  split; [|split; [exact R4 | split; [exact Mi | split; [exact Mc |
    split; [exact Mk | split; [exact M4|]]]]]].
  - intros q Hq; rewrite F4 by (intros; apply apart_below; exact Hq).
    exact (proj1 (proj2 A3) q Hq).
  - rewrite Lg4, Lg3, Lg2; rewrite <- !app_assoc; reflexivity.
Qed.

End ActingWalk.

Lemma validate_dirs (cwd : path) (c : comparer) (origin local : path)
    (le re : entries) (s : state) :
  lookup (fs s) origin = Some (Dir le) ->
  lookup (fs s) local = Some (Dir re) ->
  validate cwd c origin local s = (Ok true, s).
Proof.
  intros Ho Hl.
  assert (Io : isdir (fs s) origin = true)
    by (unfold isdir; rewrite Ho; reflexivity).
  assert (Il : isdir (fs s) local = true)
    by (unfold isdir; rewrite Hl; reflexivity).
  destruct c as [|cl pv|cl pv]; unfold validate;
    (step; rewrite Il; cbn [negb]);
    (step; rewrite Io; reflexivity).
Qed.

(** A step over two directories is the walk. *)
Lemma sync_step_dirs (cwd : path) (fuel : nat) (c : comparer)
    (origin local : path) (le re : entries) (s : state) :
  lookup (fs s) origin = Some (Dir le) ->
  lookup (fs s) local = Some (Dir re) ->
  sync_step cwd fuel c origin local s = visit_dcmp cwd fuel c origin local s.
Proof.
  intros Ho Hl; unfold sync_step.
  erewrite bind_ok by exact (validate_dirs cwd c _ _ _ _ s Ho Hl).
  reflexivity.
Qed.

(** A step of any policy over two directories that mirror one
    another. *)
Lemma sync_step_in_sync (cwd : path) (fuel : nat) (c : comparer)
    (origin local : path) (le re : entries) (s : state) :
  lookup (fs s) origin = Some (Dir le) ->
  lookup (fs s) local = Some (Dir re) ->
  in_sync le re ->
  height (Dir le) <= fuel ->
  exists new,
    sync_step cwd fuel c origin local s =
      (Ok tt, mkState (fs s) (out s) (log s ++ new)) /\
    Forall nothing_to_do new.
Proof.
  intros Ho Hl [Hlr Hrl] Hh.
  rewrite (sync_step_dirs cwd fuel c _ _ _ _ s Ho Hl).
  exact (in_sync_walk cwd c (fs s) fuel origin local le re
           Ho Hl Hlr Hrl Hh s eq_refl).
Qed.

(** X18.  [pull --clean] (preview off) brings an asset pair in sync.
    Take origin and local folders that are directories and lie apart, a
    working directory that is not the local folder or below it and holds
    no file [.meta], and fuel for the height of the origin folder.  The
    step ends normally; the local folder then mirrors the origin folder
    and is mirrored by it (the same names outside [dircmp]'s ignore
    list, no two regular files under a common name that [filecmp.cmp]
    tells apart, common directories in sync in turn; a name that is a
    regular file on one side and a directory on the other is left as it
    is); nothing at or below
    the origin folder has changed; and a step of any policy that follows
    finds nothing to do: it prints nothing, changes nothing and calls no
    handler. *)
Theorem pull_clean_brings_in_sync
    (cwd : path) (fuel fuel' : nat) (origin local : path) (le re : entries)
    (s : state) :
  lookup (fs s) origin = Some (Dir le) ->
  lookup (fs s) local = Some (Dir re) ->
  apart origin local ->
  isfile (fs s) (cwd ++ [".meta"]) = false ->
  prefix local (cwd ++ [".meta"]) = false ->
  height (Dir le) <= fuel ->
  height (Dir le) <= fuel' ->
  exists s' re',
    sync_step cwd fuel (PullComparer true false) origin local s = (Ok tt, s') /\
    lookup (fs s') local = Some (Dir re') /\
    mirrored le re' /\ mirrored re' le /\
    (forall q, lookup (fs s') (origin ++ q) = lookup (fs s) (origin ++ q)) /\
    (forall c s1, fs s1 = fs s' ->
       exists new,
         sync_step cwd fuel' c origin local s1 =
           (Ok tt, mkState (fs s') (out s1) (log s1 ++ new)) /\
         Forall nothing_to_do new).
Proof.
  intros Ho Hl Hap Hm Hmeta Hh Hh'.
  destruct (acting_walk_holds cwd (PullComparer true false) eq_refl fuel
              origin local le re s Ho Hl Hap Hm Hmeta Hh)
    as (s' & re' & E & F & R & S1 & S2 & _ & M & _).
  cbn [source target cleans] in *; specialize (S2 eq_refl).
  assert (Fo : forall q, lookup (fs s') (origin ++ q)
                         = lookup (fs s) (origin ++ q)).
  { intro q; apply F, apart_sym, apart_below, Hap. }
  exists s', re'.
  split; [|split; [exact R | split; [exact S1 | split; [exact S2 |
    split; [exact Fo|]]]]].
  - rewrite (sync_step_dirs cwd fuel _ _ _ _ _ s Ho Hl); exact E.
  - intros c s1 Hs1; rewrite <- Hs1.
    apply (sync_step_in_sync cwd fuel' c origin local le re').
    + rewrite Hs1, <- (app_nil_r origin), Fo, app_nil_r; exact Ho.
    + rewrite Hs1; exact R.
    + split; assumption.
    + exact Hh'.
Qed.

Lemma pull_clean_witness :
  exists s' re',
    sync_step sample_cwd 3 (PullComparer true false) origin_w local_w
      (start mixed_tree) = (Ok tt, s') /\
    lookup (fs s') local_w = Some (Dir re') /\
    mirrored [("a", File 1 "x"); ("sub", Dir [("c", File 1 "y")])] re' /\
    mirrored re' [("a", File 1 "x"); ("sub", Dir [("c", File 1 "y")])] /\
    (forall q, lookup (fs s') (origin_w ++ q)
               = lookup mixed_tree (origin_w ++ q)) /\
    (forall c s1, fs s1 = fs s' ->
       exists new,
         sync_step sample_cwd 3 c origin_w local_w s1 =
           (Ok tt, mkState (fs s') (out s1) (log s1 ++ new)) /\
         Forall nothing_to_do new).
Proof.
  apply (pull_clean_brings_in_sync sample_cwd 3 3 origin_w local_w
           [("a", File 1 "x"); ("sub", Dir [("c", File 1 "y")])]
           [("b", File 1 "z"); ("sub", Dir [])]
           (start mixed_tree));
    first [reflexivity | split; reflexivity | vm_compute; lia].
Defined.

(** X19.  [push --clean] (preview off) brings an asset pair in sync.
    Take origin and local folders that are directories and lie apart, a
    working directory that is not the origin folder or below it and
    holds no file [.meta], and fuel for the height of the origin folder.
    The step ends normally; the origin folder then mirrors the local
    folder and is mirrored by it; nothing at or below the local folder
    has changed; and a step of any policy that follows (with fuel for
    the new height of the origin folder) finds nothing to do. *)
Theorem push_clean_brings_in_sync
    (cwd : path) (fuel : nat) (origin local : path) (le re : entries)
    (s : state) :
  lookup (fs s) origin = Some (Dir le) ->
  lookup (fs s) local = Some (Dir re) ->
  apart origin local ->
  isfile (fs s) (cwd ++ [".meta"]) = false ->
  prefix origin (cwd ++ [".meta"]) = false ->
  height (Dir le) <= fuel ->
  exists s' le',
    sync_step cwd fuel (PushComparer true false) origin local s = (Ok tt, s') /\
    lookup (fs s') origin = Some (Dir le') /\
    mirrored re le' /\ mirrored le' re /\
    (forall q, lookup (fs s') (local ++ q) = lookup (fs s) (local ++ q)) /\
    (forall c fuel' s1, fs s1 = fs s' -> height (Dir le') <= fuel' ->
       exists new,
         sync_step cwd fuel' c origin local s1 =
           (Ok tt, mkState (fs s') (out s1) (log s1 ++ new)) /\
         Forall nothing_to_do new).
Proof.
  intros Ho Hl Hap Hm Hmeta Hh.
  destruct (acting_walk_holds cwd (PushComparer true false) eq_refl fuel
              origin local le re s Ho Hl Hap Hm Hmeta Hh)
    as (s' & le' & E & F & R & S1 & S2 & _ & M & _).
  cbn [source target cleans] in *; specialize (S2 eq_refl).
  assert (Fl : forall q, lookup (fs s') (local ++ q)
                         = lookup (fs s) (local ++ q)).
  { intro q; apply F, apart_sym, apart_below, apart_sym, Hap. }
  exists s', le'.
  split; [|split; [exact R | split; [exact S1 | split; [exact S2 |
    split; [exact Fl|]]]]].
  - rewrite (sync_step_dirs cwd fuel _ _ _ _ _ s Ho Hl); exact E.
  - intros c fuel' s1 Hs1 Hh'; rewrite <- Hs1.
    apply (sync_step_in_sync cwd fuel' c origin local le' re).
    + rewrite Hs1; exact R.
    + rewrite Hs1, <- (app_nil_r local), Fl, app_nil_r; exact Hl.
    + split; assumption.
    + exact Hh'.
Qed.

Lemma push_clean_sync_witness :
  exists s' le',
    sync_step sample_cwd 3 (PushComparer true false) origin_w local_w
      (start mixed_tree) = (Ok tt, s') /\
    lookup (fs s') origin_w = Some (Dir le') /\
    mirrored [("b", File 1 "z"); ("sub", Dir [])] le' /\
    mirrored le' [("b", File 1 "z"); ("sub", Dir [])] /\
    (forall q, lookup (fs s') (local_w ++ q)
               = lookup mixed_tree (local_w ++ q)) /\
    (forall c fuel' s1, fs s1 = fs s' -> height (Dir le') <= fuel' ->
       exists new,
         sync_step sample_cwd fuel' c origin_w local_w s1 =
           (Ok tt, mkState (fs s') (out s1) (log s1 ++ new)) /\
         Forall nothing_to_do new).
Proof.
  apply (push_clean_brings_in_sync sample_cwd 3 origin_w local_w
           [("a", File 1 "x"); ("sub", Dir [("c", File 1 "y")])]
           [("b", File 1 "z"); ("sub", Dir [])]
           (start mixed_tree));
    first [reflexivity | split; reflexivity | vm_compute; lia].
Defined.

(** ** What a walk prints *)

Lemma mute_bind {A B} (m : M A) (f : A -> M B) :
  mute m -> (forall a, mute (f a)) -> mute (bind m f).
Proof.
  intros Hm Hf s; unfold bind; destruct (Hm s) as [H1 H2].
  destruct (m s) as [[a|e|] s1]; simpl in *; auto.
  destruct (Hf a s1) as [H3 H4]; split; congruence.
Qed.

Lemma mute_same {A} (m : M A) :
  (forall s, snd (m s) = s) -> mute m.
Proof. intros H s; rewrite H; auto. Qed.

Lemma mute_syscall (f : node -> errno + node) : mute (syscall f).
Proof. intro s; unfold syscall; destruct (f (fs s)); auto. Qed.

Lemma mute_libcall (f : node -> exn + node) : mute (libcall f).
Proof. intro s; unfold libcall; destruct (f (fs s)); auto. Qed.

Lemma mute_os_listdir (p : path) : mute (os_listdir p).
Proof. intro s; unfold os_listdir; destruct (listdir (fs s) p); auto. Qed.

Lemma mute_phase0 (l r : path) : mute (phase0 l r).
Proof.
  unfold phase0; apply mute_bind; [apply mute_os_listdir | intro].
  apply mute_bind; [apply mute_os_listdir | intro].
  apply mute_same; reflexivity.
Qed.

Lemma announces_mute (c : comparer) {A} (m : M A) : mute m -> announces c m.
Proof.
  intros H s; destruct (H s) as [H1 H2]; exists [].
  rewrite H1, H2, !app_nil_r; auto.
Qed.

Lemma announces_bind (c : comparer) {A B} (m : M A) (f : A -> M B) :
  announces c m -> (forall a, announces c (f a)) -> announces c (bind m f).
Proof.
  intros Hm Hf s; unfold bind; destruct (Hm s) as (n1 & L1 & O1).
  destruct (m s) as [[a|e|] s1]; simpl in *;
    [| exists n1; auto | exists n1; auto].
  destruct (Hf a s1) as (n2 & L2 & O2).
  exists (n1 ++ n2); rewrite L2, O2, L1, O1, flat_map_app, !app_assoc; auto.
Qed.

Lemma announces_foreach (c : comparer) {A} (xs : list A)
    (body : A -> M unit) :
  (forall x, announces c (body x)) -> announces c (foreach xs body).
Proof.
  intro Hb; induction xs as [|x xs IH]; simpl.
  - apply announces_mute, mute_same; reflexivity.
  - apply announces_bind; [apply Hb | intros _; exact IH].
Qed.

Lemma print_then_mute (x : msg) (m : M unit) (s : state) :
  mute m ->
  out (snd ((print x ;; m) s)) = out s ++ [x] /\
  log (snd ((print x ;; m) s)) = log s.
Proof.
  intro Hm; erewrite bind_ok by reflexivity.
  exact (Hm (mkState (fs s) (out s ++ [x]) (log s))).
Qed.

(** [copy_asset] and [remove_asset] print their announcement first, and
    nothing after it, preview or not. *)
Lemma copy_asset_prints (cwd : path) (c : comparer) (src dest : path)
    (s : state) :
  out (snd (copy_asset cwd c src dest s)) = out s ++ [MsgCopying src dest] /\
  log (snd (copy_asset cwd c src dest s)) = log s.
Proof.
  unfold copy_asset; apply print_then_mute.
  destruct (preview c); [apply mute_same; reflexivity|].
  apply mute_bind.
  - apply mute_bind; [apply mute_same; reflexivity | intros d].
    destruct d; [apply mute_libcall | apply mute_syscall].
  - intros _; cbv zeta.
    apply mute_bind; [apply mute_same; reflexivity | intros f].
    destruct f; [apply mute_syscall | apply mute_same; reflexivity].
Qed.

Lemma remove_asset_prints (c : comparer) (p : path) (s : state) :
  out (snd (remove_asset c p s)) = out s ++ [MsgRemoving p] /\
  log (snd (remove_asset c p s)) = log s.
Proof.
  unfold remove_asset; apply print_then_mute.
  destruct (preview c); [apply mute_same; reflexivity|].
  apply mute_bind; [apply mute_same; reflexivity | intros d].
  destruct d; apply mute_syscall.
Qed.

(** A handler call, with its record in the log. *)
Lemma announces_call (cwd : path) (c : comparer) (l r : path) (n : string) :
  announces c (record (Call HLeftOnly l r n) ;; left_only cwd c l r n) /\
  announces c (record (Call HRightOnly l r n) ;; right_only cwd c l r n) /\
  announces c (record (Call HDiff l r n) ;; diff cwd c l r n).
Proof.
  assert (K : forall (h : handler) (m : M unit),
             (forall s, out (snd (m s))
                        = out s ++ announcement c (Call h l r n) /\
                        log (snd (m s)) = log s) ->
             announces c (record (Call h l r n) ;; m)).
  { intros h m Hm s; exists [Call h l r n].
    erewrite bind_ok by reflexivity.
    destruct (Hm (mkState (fs s) (out s) (log s ++ [Call h l r n])))
      as [H1 H2].
    rewrite H1, H2; cbn [out log flat_map]; rewrite app_nil_r; auto. }
  destruct c as [|cl pv|cl pv]; repeat split; apply K; intro s;
    unfold left_only, right_only, diff, announcement;
    try (split; reflexivity);
    try apply copy_asset_prints;
    destruct cl;
    first [apply remove_asset_prints
          | split; [rewrite app_nil_r|]; reflexivity].
Qed.

Lemma announces_visit_dcmp (cwd : path) (c : comparer) (fuel : nat) :
  forall l r, announces c (visit_dcmp cwd fuel c l r).
Proof.
  induction fuel as [|fuel IH]; intros l r.
  - apply announces_mute, mute_same; reflexivity.
  - simpl.
    apply announces_bind; [apply announces_mute, mute_phase0 | intros [ll rl]].
    destruct (phase1 ll rl) as [[common lo] ro].
    apply announces_bind.
    { apply announces_foreach; intro n; apply announces_call. }
    intros _; apply announces_bind.
    { apply announces_foreach; intro n; apply announces_call. }
    intros _; apply announces_bind;
      [apply announces_mute, mute_same; reflexivity | intro t].
    destruct (phase2 t l r common) as [[cd cf] cfunny].
    apply announces_bind.
    { apply announces_foreach; intro n; apply announces_call. }
    intros _; apply announces_bind.
    { intro s; eexists [_].
      unfold record; cbn [snd out log]; split; [reflexivity|].
      cbn [flat_map announcement app]; rewrite app_nil_r; reflexivity. }
    intros _; apply announces_foreach; intro n; apply IH.
Qed.

(** X20.  A walk prints the announcements of its handler calls, one per
    call and in the order of the calls, and nothing else, whatever the
    outcome.  The line of a call depends on the policy and on its clean
    flag, not on the preview flag: a previewing policy announces a call
    as the policy that acts does.  A handler that does nothing ([pull]
    for a local-only entry and [push] for an origin-only entry, without
    [--clean]) prints nothing. *)
Theorem walk_prints_announcements
    (cwd : path) (fuel : nat) (comparer : comparer) (left right : path)
    (s : state) :
  let s' := snd (visit_dcmp cwd fuel comparer left right s) in
  exists calls,
    log s' = log s ++ calls /\
    out s' = out s ++ flat_map (announcement comparer) calls /\
    forall clean dry e,
      announcement (PullComparer clean dry) e
        = announcement (PullComparer clean (negb dry)) e /\
      announcement (PushComparer clean dry) e
        = announcement (PushComparer clean (negb dry)) e.
Proof.
  destruct (announces_visit_dcmp cwd comparer fuel left right s)
    as (new & L & O).
  exists new; repeat split; auto.
Qed.

(** ** The sidecar of an asset *)

Lemma append_meta_neq (n : string) : (n ++ ".meta")%string <> n.
Proof.
  induction n as [|a n IH]; simpl; [discriminate|].
  intro H; injection H as H; exact (IH H).
Qed.

(** The sidecar path of an entry lies apart from the entry. *)
Lemma sidecar_apart (p : path) :
  p <> [] -> apart p (add_suffix p ".meta").
Proof.
  intro Hp; destruct (exists_last Hp) as (l & n & ->).
  rewrite add_suffix_child.
  apply (apart_siblings l [] [] n (n ++ ".meta")%string).
  intro H; exact (append_meta_neq n (eq_sym H)).
Qed.

Lemma syscall_ok (f : node -> errno + node) (s : state) :
  fst (syscall f s) = Ok tt ->
  exists t, f (fs s) = inr t /\ syscall f s = (Ok tt, mkState t (out s) (log s)).
Proof.
  destruct (syscall_outcome f s) as [(t & E & S) | (e & E & S)]; rewrite S.
  - intros _; exists t; auto.
  - discriminate.
Qed.

Lemma libcall_ok (f : node -> exn + node) (s : state) :
  fst (libcall f s) = Ok tt ->
  exists t, f (fs s) = inr t /\ libcall f s = (Ok tt, mkState t (out s) (log s)).
Proof.
  destruct (libcall_outcome f s) as [(t & E & S) | (e & E & S)]; rewrite S.
  - intros _; exists t; auto.
  - discriminate.
Qed.

Lemma bind_ok_inv {A B} (m : M A) (f : A -> M B) (s : state) (b : B) :
  fst (bind m f s) = Ok b ->
  exists a s1, m s = (Ok a, s1) /\ fst (f a s1) = Ok b.
Proof.
  unfold bind; destruct (m s) as [[a|e|] s1]; try discriminate.
  intro H; exists a, s1; auto.
Qed.

(** X21.  Where the sidecar of a copy comes from.  After a successful
    [copy_asset] with preview off, the sidecar path of the destination
    ([dest + '.meta']) holds the file [.meta] of the working directory
    when there is such a regular file; otherwise it holds what it held
    before.  The sidecar of the source is never read.  (The destination
    is not the root and lies apart from [.meta] in the working
    directory, and its sidecar path holds no directory.) *)
Theorem sidecar_comes_from_working_directory
    (cwd : path) (self : comparer) (src dest : path) (s : state) :
  preview self = false ->
  dest <> [] ->
  apart dest (cwd ++ [".meta"]) ->
  (forall es, lookup (fs s) (add_suffix dest ".meta") <> Some (Dir es)) ->
  fst (copy_asset cwd self src dest s) = Ok tt ->
  lookup (fs (snd (copy_asset cwd self src dest s))) (add_suffix dest ".meta")
  = match lookup (fs s) (cwd ++ [".meta"]) with
    | Some (File m d) => Some (File m d)
    | _ => lookup (fs s) (add_suffix dest ".meta")
    end.
Proof.
  intros Hp Hne Hap Hnd.
  unfold copy_asset.
  erewrite bind_ok by reflexivity; rewrite Hp.
  set (s0 := mkState (fs s) (out s ++ [MsgCopying src dest]) (log s)).
  intro H; apply bind_ok_inv in H; destruct H as ([] & s1 & E1 & H).
  erewrite bind_ok by exact E1.
  (* the copy of the asset leaves the two paths alone *)
  assert (F : forall q, apart dest q -> lookup (fs s1) q = lookup (fs s) q).
  { intros q Hq; revert E1.
    erewrite bind_ok by reflexivity.
    destruct (isdir (fs s0) src); intro E1.
    - destruct (libcall_ok (copytree src dest) s0) as (t & Et & St);
        [rewrite E1; reflexivity|].
      rewrite St in E1; injection E1 as <-; cbn [fs].
      exact (frame_copytree _ _ _ _ _ Et Hq).
    - destruct (syscall_ok (copy2 src dest) s0) as (t & Et & St);
        [rewrite E1; reflexivity|].
      rewrite St in E1; injection E1 as <-; cbn [fs].
      exact (frame_copy2 _ _ _ _ _ Et Hq). }
  pose proof (F _ Hap) as Fm.
  pose proof (F _ (sidecar_apart dest Hne)) as Fs.
  revert H; cbv zeta.
  erewrite !bind_ok by reflexivity.
  unfold isfile, relative; rewrite Fm.
  destruct (lookup (fs s) (cwd ++ [".meta"])) as [[m d|es]|] eqn:Lm;
    try (intros _; exact Fs).
  intro H; destruct (syscall_ok _ s1 H) as (t & Et & St); rewrite St.
  cbn [snd fs]; revert Et; unfold copy2.
  assert (Hd : isdir (fs s1) (add_suffix dest ".meta") = false).
  { unfold isdir; rewrite Fs.
    destruct (lookup (fs s) (add_suffix dest ".meta")) as [[m' d'|es']|] eqn:L;
      try reflexivity.
    exfalso; exact (Hnd es' eq_refl). }
  rewrite Hd.
  destruct (exists_ (fs s1) (cwd ++ [".meta"]) &&
            path_eqb (cwd ++ [".meta"]) (add_suffix dest ".meta"));
    [discriminate|].
  rewrite Fm.
  destruct (lookup (fs s1) (add_suffix dest ".meta")) as [[m' d'|es']|];
    try discriminate;
    destruct (lookup (fs s1) (parent (add_suffix dest ".meta")))
      as [[m'' d''|es'']|]; try discriminate;
    destruct (store _ _ (fs s1)) as [t1|] eqn:S; try discriminate;
    intro Et; injection Et as <-; exact (lookup_store_same _ _ _ _ S).
Qed.

Lemma sidecar_witness :
  lookup (fs (snd (copy_asset sample_cwd (PullComparer false false)
                     (origin_w ++ ["a"]) (local_w ++ ["a"])
                     (start dot_meta_tree))))
         (local_w ++ ["a.meta"])
  = Some (File 5 "Y").
Proof.
  refine (sidecar_comes_from_working_directory sample_cwd
            (PullComparer false false) (origin_w ++ ["a"]) (local_w ++ ["a"])
            (start dot_meta_tree) eq_refl _ _ _ _);
    [discriminate | split; reflexivity | | reflexivity].
  intros es H; discriminate H.
Defined.

(** X22.  [remove_asset] leaves the sidecar behind: whatever the
    flags and the outcome, the sidecar path of the removed entry
    ([path + '.meta']) holds after the call what it held before.  A
    sidecar goes only in a handler call of its own. *)
Theorem remove_asset_keeps_sidecar
    (self : comparer) (p : path) (s : state) :
  p <> [] ->
  lookup (fs (snd (remove_asset self p s))) (add_suffix p ".meta")
  = lookup (fs s) (add_suffix p ".meta").
Proof.
  intro Hp.
  apply (frame_remove_asset self p (fun q => apart p q) (fun q H => H) s).
  exact (sidecar_apart p Hp).
Qed.

Lemma remove_asset_keeps_sidecar_witness :
  lookup (fs (snd (remove_asset (PullComparer true false) (local_w ++ ["a"])
                     (start dot_meta_tree)))) (local_w ++ ["a.meta"])
  = Some (File 1 "M").
Proof.
  refine (remove_asset_keeps_sidecar (PullComparer true false)
            (local_w ++ ["a"]) (start dot_meta_tree) _).
  discriminate.
Defined.

(** X23.  What a step of [pull] or [push] with preview off achieves,
    with or without [--clean].  [pull] reads the origin and writes the
    local side, [push] the reverse.  Take origin and local folders that
    are directories and lie apart, a working directory that is not the
    target folder or below it and holds no file [.meta], and fuel for
    the height of the origin folder.  The step ends normally; the
    target folder then mirrors the source folder (every source entry
    that the walk meets has an entry under its name on the target side:
    for a regular file a regular file that [filecmp.cmp] takes for
    equal, for a directory a directory that mirrors it in turn; an entry
    that is a regular file on one side and a directory on the other is
    left as it is); nothing at or below the source folder has changed;
    and without [--clean] the target entries under names that the
    source folder lacks are what they were. *)
Theorem acting_step_makes_target_mirror_source
    (cwd : path) (fuel : nat) (comparer : comparer) (origin local : path)
    (le re : entries) (s : state) :
  acts comparer = true ->
  lookup (fs s) origin = Some (Dir le) ->
  lookup (fs s) local = Some (Dir re) ->
  apart origin local ->
  isfile (fs s) (cwd ++ [".meta"]) = false ->
  prefix (target comparer origin local) (cwd ++ [".meta"]) = false ->
  height (Dir le) <= fuel ->
  exists s' es',
    sync_step cwd fuel comparer origin local s = (Ok tt, s') /\
    lookup (fs s') (target comparer origin local) = Some (Dir es') /\
    mirrored (source comparer le re) es' /\
    (forall q, lookup (fs s') (source comparer origin local ++ q)
               = lookup (fs s) (source comparer origin local ++ q)) /\
    (cleans comparer = false ->
     forall n, get_ent n (source comparer le re) = None ->
               get_ent n es' = get_ent n (target comparer le re)).
Proof.
  intros Hc Ho Hl Hap Hm Hmeta Hh.
  destruct (acting_walk_holds cwd comparer Hc fuel origin local le re s
              Ho Hl Hap Hm Hmeta Hh)
    as (s' & es' & E & F & R & Mi & _ & Mk & _ & _).
  exists s', es'.
  split; [|split; [exact R | split; [exact Mi | split; [|exact Mk]]]].
  - rewrite (sync_step_dirs cwd fuel _ _ _ _ _ s Ho Hl); exact E.
  - intro q; apply F, apart_sym, apart_below.
    destruct comparer; cbn [source target]; auto using apart_sym.
Qed.

Lemma acting_step_witness :
  exists s' es',
    sync_step sample_cwd 3 (PushComparer false false) origin_w local_w
      (start mixed_tree) = (Ok tt, s') /\
    lookup (fs s') origin_w = Some (Dir es') /\
    mirrored [("b", File 1 "z"); ("sub", Dir [])] es' /\
    (forall q, lookup (fs s') (local_w ++ q)
               = lookup mixed_tree (local_w ++ q)) /\
    (false = false ->
     forall n, get_ent n [("b", File 1 "z"); ("sub", Dir [])] = None ->
               get_ent n es'
               = get_ent n [("a", File 1 "x");
                            ("sub", Dir [("c", File 1 "y")])]).
Proof.
  apply (acting_step_makes_target_mirror_source sample_cwd 3
           (PushComparer false false) origin_w local_w
           [("a", File 1 "x"); ("sub", Dir [("c", File 1 "y")])]
           [("b", File 1 "z"); ("sub", Dir [])]
           (start mixed_tree));
    first [reflexivity | split; reflexivity | vm_compute; lia].
Defined.

(** ** What a preview announces *)

Lemma steady_calls (mk : string -> event) (h : string -> M unit)
    (t0 : node) (names : list string) :
  (forall n s, exists o, h n s = (Ok tt, mkState (fs s) o (log s))) ->
  steady (map mk names) t0 (foreach names (fun n => record (mk n) ;; h n)).
Proof.
  intro Hh; induction names as [|n names IH]; intros s Hs; cbn [foreach map].
  - exists (out s); rewrite app_nil_r; destruct s; simpl in *; subst.
    reflexivity.
  - destruct (Hh n (mkState (fs s) (out s) (log s ++ [mk n]))) as (o1 & E1).
    cbn [fs log] in E1.
    destruct (IH (mkState (fs s) o1 (log s ++ [mk n])) Hs) as (o2 & E2).
    cbn [log] in E2.
    exists o2.
    erewrite bind_ok by (erewrite bind_ok by reflexivity; exact E1).
    rewrite E2, <- app_assoc; reflexivity.
Qed.

Lemma steady_foreach (ev : string -> list event) (t0 : node)
    (names : list string) (body : string -> M unit) :
  (forall d, In d names -> steady (ev d) t0 (body d)) ->
  steady (flat_map ev names) t0 (foreach names body).
Proof.
  induction names as [|d names IH]; intros Hb s Hs; cbn [foreach flat_map].
  - exists (out s); rewrite app_nil_r; destruct s; simpl in *; subst.
    reflexivity.
  - destruct (Hb d (or_introl eq_refl) s Hs) as (o1 & E1).
    destruct (IH (fun x Hx => Hb x (or_intror Hx))
                (mkState t0 o1 (log s ++ ev d)) eq_refl) as (o2 & E2).
    cbn [log] in E2.
    exists o2; erewrite bind_ok by exact E1.
    rewrite E2, <- app_assoc; reflexivity.
Qed.

(** The handlers of a policy that only announces return at once. *)
Lemma announcing_handlers (cwd : path) (c : comparer) (l r : path)
    (n : string) (s : state) :
  announces_only c = true ->
  (exists o, left_only cwd c l r n s = (Ok tt, mkState (fs s) o (log s))) /\
  (exists o, right_only cwd c l r n s = (Ok tt, mkState (fs s) o (log s))) /\
  (exists o, diff cwd c l r n s = (Ok tt, mkState (fs s) o (log s))).
Proof.
  destruct c as [|cl [|]|cl [|]]; try discriminate; intros _;
    repeat split;
    try (eexists; reflexivity);
    destruct cl; try (eexists; reflexivity);
    exists (out s); destruct s; reflexivity.
Qed.

(** The walk of a policy that only announces makes the calls of
    [plan]. *)
Lemma announcing_walk_plan (cwd : path) (c : comparer) (t0 : node) :
  announces_only c = true ->
  forall fuel l r le re,
    lookup t0 l = Some (Dir le) -> lookup t0 r = Some (Dir re) ->
    height (Dir le) <= fuel ->
    steady (plan fuel l r le re) t0 (visit_dcmp cwd fuel c l r).
Proof.
  intros Hc fuel; induction fuel as [|fuel IH]; intros l r le re Hl Hr Hh.
  { pose proof (height_dir_pos le); lia. }
  intros s Hs; subst t0.
  assert (L : forall n, lookup (fs s) (l ++ [n]) = get_ent n le /\
                        lookup (fs s) (r ++ [n]) = get_ent n re).
  { intro n; split; apply lookup_child; assumption. }
  cbn [visit_dcmp plan].
  erewrite bind_ok by (apply phase0_dirs; eassumption).
  cbn [fst snd].
  pose proof (phase1_listing le re) as P1.
  destruct (phase1 (listing le) (listing re)) as [[common lo] ro].
  destruct P1 as (Hco & _).
  destruct (steady_calls (fun n => Call HLeftOnly l r n)
              (fun n => left_only cwd c l r n) (fs s) lo
              (fun n s' => proj1 (announcing_handlers cwd c l r n s' Hc))
              s eq_refl) as (o1 & E1).
  erewrite bind_ok by exact E1.
  match goal with
  | |- context [bind (foreach ro _) _ ?s1] =>
      destruct (steady_calls (fun n => Call HRightOnly l r n)
                  (fun n => right_only cwd c l r n) (fs s) ro
                  (fun n s' =>
                     proj1 (proj2 (announcing_handlers cwd c l r n s' Hc)))
                  s1 eq_refl) as (o2 & E2)
  end.
  erewrite bind_ok by exact E2.
  step.
  destruct (phases_pure (fs s) l r le re common (fun n _ => L n))
    as [Ph2 Ph3].
  rewrite Ph2; cbv beta iota; rewrite Ph3.
  destruct (entries_classes le re common Hco) as [Cd _].
  match goal with
  | |- context [bind (foreach ?df _) _ ?s2] =>
      destruct (steady_calls (fun n => Call HDiff l r n)
                  (fun n => diff cwd c l r n) (fs s) df
                  (fun n s' =>
                     proj2 (proj2 (announcing_handlers cwd c l r n s' Hc)))
                  s2 eq_refl) as (o3 & E3)
  end.
  erewrite bind_ok by exact E3.
  step.
  match goal with
  | |- context [foreach ?cd ?body ?s3] =>
      destruct (steady_foreach
                  (fun d =>
                     match get_ent d le, get_ent d re with
                     | Some (Dir a), Some (Dir b) =>
                         plan fuel (l ++ [d]) (r ++ [d]) a b
                     | _, _ => []
                     end) (fs s) cd body) with (s := s3) as (o4 & E4);
        [| reflexivity |]
  end.
  { intros d Hd; apply Cd in Hd; destruct Hd as (_ & a & b & Ga & Gb).
    rewrite Ga, Gb; destruct (L d) as [Ll Lr].
    apply IH; [congruence | congruence |].
    pose proof (height_get_ent _ _ _ Ga); lia. }
  exists o4; rewrite E4; cbn [log]; rewrite <- !app_assoc; reflexivity.
Qed.

Lemma announcement_previewing (c : comparer) (e : event) :
  announcement (previewing c) e = announcement c e.
Proof. destruct c, e; reflexivity. Qed.

Lemma previewing_announces (c : comparer) :
  acts c = true -> announces_only (previewing c) = true.
Proof. destruct c; [discriminate | reflexivity | reflexivity]. Qed.

(** X24.  A preview announces what the run does.  For an asset pair
    whose folders are directories that lie apart (working directory not
    the target folder or below it, no file [.meta] in it, fuel for the
    height of the origin folder), a step of [pull] or [push] with
    preview off and the step of the same policy with [--preview], from
    the same state, both end normally and print the same lines in the
    same order: the preview announces every copy and every removal of
    the run, and nothing that the run does not do. *)
Theorem preview_announces_what_the_run_does
    (cwd : path) (fuel : nat) (comparer : comparer) (origin local : path)
    (le re : entries) (s : state) :
  acts comparer = true ->
  lookup (fs s) origin = Some (Dir le) ->
  lookup (fs s) local = Some (Dir re) ->
  apart origin local ->
  isfile (fs s) (cwd ++ [".meta"]) = false ->
  prefix (target comparer origin local) (cwd ++ [".meta"]) = false ->
  height (Dir le) <= fuel ->
  let run := sync_step cwd fuel comparer origin local s in
  let dry := sync_step cwd fuel (previewing comparer) origin local s in
  fst run = Ok tt /\
  fst dry = Ok tt /\
  fs (snd dry) = fs s /\
  out (snd run) = out (snd dry).
Proof.
  intros Hc Ho Hl Hap Hm Hmeta Hh run dry; unfold run, dry.
  rewrite !(sync_step_dirs cwd fuel _ _ _ _ _ s Ho Hl).
  destruct (acting_walk_holds cwd comparer Hc fuel origin local le re s
              Ho Hl Hap Hm Hmeta Hh)
    as (s' & es' & E & _ & _ & _ & _ & _ & _ & Lg).
  destruct (announcing_walk_plan cwd (previewing comparer) (fs s)
              (previewing_announces comparer Hc) fuel origin local le re
              Ho Hl Hh s eq_refl) as (o & D).
  destruct (announces_visit_dcmp cwd comparer fuel origin local s)
    as (n1 & L1 & O1).
  destruct (announces_visit_dcmp cwd (previewing comparer) fuel origin local s)
    as (n2 & L2 & O2).
  rewrite E in *; rewrite D in *; cbn [fst snd fs out log] in *.
  rewrite Lg in L1; apply app_inv_head in L1; subst n1.
  apply app_inv_head in L2; subst n2.
  repeat split; try reflexivity.
  rewrite O1, O2; f_equal.
  apply flat_map_ext; intro e; symmetry; apply announcement_previewing.
Qed.

Lemma preview_announces_witness :
  out (snd (sync_step sample_cwd 3 (PullComparer true false)
              origin_w local_w (start mixed_tree)))
  = out (snd (sync_step sample_cwd 3 (PullComparer true true)
                origin_w local_w (start mixed_tree))).
Proof.
  apply (preview_announces_what_the_run_does sample_cwd 3
           (PullComparer true false) origin_w local_w
           [("a", File 1 "x"); ("sub", Dir [("c", File 1 "y")])]
           [("b", File 1 "z"); ("sub", Dir [])]
           (start mixed_tree));
    first [reflexivity | split; reflexivity | vm_compute; lia].
Defined.

(** ** The outcomes of [validate] *)






(** The fourth outcome is met: the local project sits inside the origin
    asset folder, and the bootstrap copy of a pull has its destination
    below the entry [p] of its source. *)
Lemma validate_recurses_below_origin :
  prefix origin_w nested_local = true /\
  fst (validate nested_cwd (PullComparer false false) origin_w nested_local
         (start nested_tree)) = Raise RecursionError.
Proof. vm_compute; split; reflexivity. Qed.
